(** * dependencyFramework: the dependency graph and its failure propagation

    A shallow embedding of the Go package [dependencygraph] (type [Node],
    its methods and the free functions over node lists), of the helper
    [nodeStack], and of the constructors [NewModule] and [NewJob] of the
    main package.

    Go pointers [*Node] are addresses into a heap of nodes; a method with
    receiver [m *Node] becomes a computation in a small monad that threads
    the heap.  The embedded [sync.Mutex] of a node is the boolean field
    [locked]: in a single thread of control, locking a held mutex never
    returns, which the monad reports as the fault [Deadlock]. *)

From Stdlib Require Import ZArith String List Lia.
From stdpp Require Import base tactics option list gmap strings relations.

Local Open Scope string_scope.
Local Open Scope list_scope.
Local Open Scope Z_scope.

(** ** Data model *)

(** A [*Node]: an index into the heap.  An index outside the heap plays
    the part of a nil pointer. *)
Abbreviation ptr := nat.

(** [type Node struct]; [status] is the embedded [*status]:
    [None] is nil (not run), [Some b] is [&status{Failed: b}].  The struct
    [Module] of dependencyGraph.go has the same fields, and its methods
    [Pass], [Fail], [DependsOn] and [Step] are those of [Node] up to the
    names of the local variables, so that one record serves for both. *)
Record Node := mkNode {
  name : string;
  blocked : bool;
  hasDependencies : bool;
  depsRemaining : Z;
  locked : bool;
  dependencyOf : list ptr;
  status : option bool
}.

Abbreviation heap := (list Node).

Definition set_blocked (b : bool) (n : Node) : Node :=
  mkNode (name n) b (hasDependencies n) (depsRemaining n) (locked n)
         (dependencyOf n) (status n).
Definition set_hasDependencies (b : bool) (n : Node) : Node :=
  mkNode (name n) (blocked n) b (depsRemaining n) (locked n)
         (dependencyOf n) (status n).
Definition set_depsRemaining (z : Z) (n : Node) : Node :=
  mkNode (name n) (blocked n) (hasDependencies n) z (locked n)
         (dependencyOf n) (status n).
Definition set_locked (b : bool) (n : Node) : Node :=
  mkNode (name n) (blocked n) (hasDependencies n) (depsRemaining n) b
         (dependencyOf n) (status n).
Definition set_dependencyOf (l : list ptr) (n : Node) : Node :=
  mkNode (name n) (blocked n) (hasDependencies n) (depsRemaining n) (locked n)
         l (status n).
Definition set_status (s : option bool) (n : Node) : Node :=
  mkNode (name n) (blocked n) (hasDependencies n) (depsRemaining n) (locked n)
         (dependencyOf n) s.

(** Go's [int] on a 64-bit platform: two's complement wrap-around. *)
Definition wrap (z : Z) : Z := (z + 2 ^ 63) mod 2 ^ 64 - 2 ^ 63.

(** The error values of the package, named as the specification names
    them; [message] gives the text the Go code builds. *)
Inductive error :=
| EmptyName
| EmptyJobName
| SelfDependency
| DuplicateDependency (dep : string)
| DuplicateInList (dep : string)
| AlreadyResolved
| CircularDependency
| NotResolved (node : string)
| EmptyStack.

Definition message (e : error) : string :=
  match e with
  | EmptyName => "Module must have a name"
  | EmptyJobName => "your job must have a unique, non empty name"
  | SelfDependency => "a node cannot be dependent on itself"
  | DuplicateDependency d =>
      String.append "node dependency " (String.append d " is a duplicate")
  | DuplicateInList d => String.append d " is a duplicate dependency"
  | AlreadyResolved => "you cannot apply results to a node multiple times"
  | CircularDependency => "graph has circular dependency"
  | NotResolved n =>
      String.append "node "
        (String.append n " status was not updated, can not step")
  | EmptyStack => "Empty Stack"
  end.

(** ** The heap monad *)

(** What stops a call without a Go-level return: a nil dereference
    (panic), a [Lock] on a held mutex, an [Unlock] of a free mutex (fatal
    error), or the model running out of fuel. *)
Inductive fault := NilDeref | Deadlock | UnlockOfUnlocked | OutOfFuel.

Inductive res (A : Type) :=
| Ok (a : A) (h : heap)
| Fault (f : fault).
Arguments Ok {A} a h.
Arguments Fault {A} f.

Definition M (A : Type) : Type := heap -> res A.

Definition ret {A} (a : A) : M A := fun h => Ok a h.
Definition fail {A} (f : fault) : M A := fun _ => Fault f.
Definition bind {A B} (c : M A) (k : A -> M B) : M B :=
  fun h => match c h with
           | Ok a h' => k a h'
           | Fault f => Fault f
           end.

Notation "x <- c ;; k" := (bind c (fun x => k))
  (at level 100, c at next level, right associativity).
Notation "c ;; k" := (bind c (fun _ => k))
  (at level 100, k at level 200, right associativity).

Definition load (p : ptr) : M Node :=
  fun h => match h !! p with
           | Some n => Ok n h
           | None => Fault NilDeref
           end.

(** A write to one field of the node at [p], as in [p.blocked = true] or
    [p.depsRemaining -= 1]: [f] is the setter applied to the node as it is
    in the heap at that moment. *)
Definition update (p : ptr) (f : Node -> Node) : M unit :=
  fun h => match h !! p with
           | Some n => Ok tt (<[p := f n]> h)
           | None => Fault NilDeref
           end.

(** [p.Lock()] and [p.Unlock()] on the node's embedded mutex. *)
Definition Lock (p : ptr) : M unit :=
  n <- load p ;;
  if locked n then fail Deadlock else update p (set_locked true).

Definition Unlock (p : ptr) : M unit :=
  n <- load p ;;
  if locked n then update p (set_locked false) else fail UnlockOfUnlocked.

Fixpoint forEach {A} (l : list A) (body : A -> M unit) : M unit :=
  match l with
  | [] => ret tt
  | x :: l' => body x ;; forEach l' body
  end.

(** ** nodestack.go *)

(** The slice [s.s]; the stack's own mutex is local to one call of [Fail]
    and always free when taken, so it is left out. *)
Abbreviation nodeStack := (list ptr).

Definition New : nodeStack := [].

Definition Push (s : nodeStack) (m : ptr) : nodeStack := s ++ [m].

Definition Pop (s : nodeStack) : option ptr * option error * nodeStack :=
  let l := length s in
  if (l =? 0)%nat then (None, Some EmptyStack, s)
  else (s !! (l - 1)%nat, None, take (l - 1)%nat s).

Definition Len (s : nodeStack) : nat := length s.

(** ** Node: construction *)

(** [NewNode(name)]: [&Node{name: name}], every other field zero. *)
Definition NewNode (nm : string) : M ptr :=
  fun h => Ok (length h) (h ++ [mkNode nm false false 0 false [] None]).

(** [NewModule(name)] of dependencyGraph.go. *)
Definition NewModule (nm : string) : M (option ptr * option error) :=
  if String.eqb nm "" then ret (None, Some EmptyName)
  else p <- NewNode nm ;; ret (Some p, None).

(** [NewJob(j, name)]: the job wrapper checks the name, then calls
    [graph.NewNode]. *)
Record jobNode (J : Type) := mkJob { job : J; node : ptr }.
Arguments mkJob {J} job node.
Arguments job {J} j.
Arguments node {J} j.

Definition NewJob {J} (j : J) (nm : string)
  : M (option (jobNode J) * option error) :=
  if String.eqb nm "" then ret (None, Some EmptyJobName)
  else p <- NewNode nm ;; ret (Some (mkJob j p), None).

(** ** Node: Pass and Fail *)

(** The body of [for _, dep := range m.dependencyOf]:
    [dep.Lock(); dep.depsRemaining -= 1; dep.Unlock()]. *)
Definition decrement (dep : ptr) : M unit :=
  Lock dep ;;
  update dep (fun d => set_depsRemaining (wrap (depsRemaining d - 1)) d) ;;
  Unlock dep.

Definition Pass (m : ptr) : M (option error) :=
  Lock m ;;
  n <- load m ;;
  match status n with
  | Some _ => Unlock m ;; ret (Some AlreadyResolved)
  | None =>
      update m (set_status (Some false)) ;;
      n <- load m ;;
      forEach (dependencyOf n) decrement ;;
      Unlock m ;;
      ret None
  end.

(** [visited[name]] on a [map[string]bool]: a missing key reads false. *)
Definition visited_at (visited : gmap string bool) (nm : string) : bool :=
  default false (visited !! nm).

(** The inner loop of the traversal: push the dependents whose name is
    not yet in [visited]. *)
Fixpoint pushUnvisited (visited : gmap string bool) (deps : list ptr)
    (nodes : nodeStack) : M nodeStack :=
  match deps with
  | [] => ret nodes
  | dependency :: deps' =>
      d <- load dependency ;;
      if negb (visited_at visited (name d))
      then pushUnvisited visited deps' (Push nodes dependency)
      else pushUnvisited visited deps' nodes
  end.

(** The loop [for nodes.Len() != 0] of [Fail]; [fuel] bounds the number of
    iterations. *)
Fixpoint blockDependents (fuel : nat) (m : ptr) (visited : gmap string bool)
    (nodes : nodeStack) : M (option error) :=
  match fuel with
  | O => fail OutOfFuel
  | S fuel' =>
      if (Len nodes =? 0)%nat then ret None
      else
        let '(top, _, nodes) := Pop nodes in
        match top with
        | None => fail NilDeref
        | Some node =>
            nd <- load node ;;
            mn <- load m ;;
            if String.eqb (name nd) (name mn)
            then ret (Some CircularDependency)
            else if negb (visited_at visited (name nd)) then
              let visited := <[name nd := true]> visited in
              update node (set_blocked true) ;;
              nd <- load node ;;
              nodes <- pushUnvisited visited (dependencyOf nd) nodes ;;
              blockDependents fuel' m visited nodes
            else blockDependents fuel' m visited nodes
        end
  end.

Definition Fail (fuel : nat) (m : ptr) : M (option error) :=
  Lock m ;;
  n <- load m ;;
  match status n with
  | Some _ => Unlock m ;; ret (Some AlreadyResolved)
  | None =>
      update m (set_status (Some true)) ;;
      n <- load m ;;
      forEach (dependencyOf n) decrement ;;
      n <- load m ;;
      let nodes := fold_left Push (dependencyOf n) New in
      n <- load m ;;
      let visited : gmap string bool := <[name n := true]> ∅ in
      e <- blockDependents fuel m visited nodes ;;
      Unlock m ;;
      ret e
  end.

(** ** Node: DependsOn *)

(** [for _, d := range dep.dependencyOf { if d.name == dep.name ... }]:
    true when the loop takes its [return]. *)
Fixpoint duplicateFound (dep : ptr) (ds : list ptr) : M bool :=
  match ds with
  | [] => ret false
  | d :: ds' =>
      dn <- load d ;;
      depn <- load dep ;;
      if String.eqb (name dn) (name depn) then ret true
      else duplicateFound dep ds'
  end.

Definition DependsOn (m dep : ptr) : M (option error) :=
  depn <- load dep ;;
  mn <- load m ;;
  if String.eqb (name depn) (name mn) then ret (Some SelfDependency)
  else
    Lock dep ;;
    depn <- load dep ;;
    dup <- duplicateFound dep (dependencyOf depn) ;;
    if dup then
      (* returns with dep's mutex still held *)
      depn <- load dep ;;
      ret (Some (DuplicateDependency (name depn)))
    else
      update dep (fun d => set_dependencyOf (dependencyOf d ++ [m]) d) ;;
      Unlock dep ;;
      Lock m ;;
      update m (fun n => set_depsRemaining (wrap (depsRemaining n + 1)) n) ;;
      update m (set_hasDependencies true) ;;
      Unlock m ;;
      ret None.

(** The method [DependsOnList] of [Node]: with the [seen] map of names. *)
Fixpoint DependsOnListFrom (m : ptr) (seen : gmap string bool)
    (deps : list ptr) : M (option error) :=
  match deps with
  | [] => ret None
  | dep :: deps' =>
      depn <- load dep ;;
      if visited_at seen (name depn)
      then ret (Some (DuplicateInList (name depn)))
      else
        let seen := <[name depn := true]> seen in
        err <- DependsOn m dep ;;
        match err with
        | Some e => ret (Some e)
        | None => DependsOnListFrom m seen deps'
        end
  end.

Definition DependsOnList (m : ptr) (deps : list ptr) : M (option error) :=
  DependsOnListFrom m ∅ deps.

(** ** Graph queries *)

Fixpoint GetRootDependencies (nodes : list ptr) : M (list ptr) :=
  match nodes with
  | [] => ret []
  | nd :: nodes' =>
      n <- load nd ;;
      roots <- GetRootDependencies nodes' ;;
      ret (if negb (hasDependencies n) then nd :: roots else roots)
  end.

(** The inner loop of [Step]: append to [depth] the dependents that are
    not blocked and wait for nothing. *)
Fixpoint readyDependents (deps : list ptr) (depth : list ptr)
  : M (list ptr) :=
  match deps with
  | [] => ret depth
  | dependency :: deps' =>
      d <- load dependency ;;
      if negb (blocked d) && (depsRemaining d =? 0)
      then readyDependents deps' (depth ++ [dependency])
      else readyDependents deps' depth
  end.

Fixpoint StepFrom (nodes : list ptr) (depth : list ptr)
  : M (list ptr * option error) :=
  match nodes with
  | [] => ret (depth, None)
  | nd :: nodes' =>
      n <- load nd ;;
      match status n with
      | None => ret ([], Some (NotResolved (name n)))
      | Some _ =>
          depth <- readyDependents (dependencyOf n) depth ;;
          StepFrom nodes' depth
      end
  end.

Definition Step (nodes : list ptr) : M (list ptr * option error) :=
  StepFrom nodes [].

(** ** Node: names for diagnostics *)

(** The loop of [GetDependencyNames]: the name of each dependent is read
    with the mutex of that dependent held. *)
Fixpoint GetDependencyNamesFrom (deps : list ptr) (names : list string)
  : M (list string) :=
  match deps with
  | [] => ret names
  | dep :: deps' =>
      Lock dep ;;
      d <- load dep ;;
      let names := names ++ [name d] in
      Unlock dep ;;
      GetDependencyNamesFrom deps' names
  end.

Definition GetDependencyNames (m : ptr) : M (list string) :=
  n <- load m ;;
  GetDependencyNamesFrom (dependencyOf n) [].

Fixpoint ListNodeNamesFrom (nodes : list ptr) (a : list string)
  : M (list string) :=
  match nodes with
  | [] => ret a
  | nd :: nodes' =>
      n <- load nd ;;
      ListNodeNamesFrom nodes' (a ++ [name n])
  end.

Definition ListNodeNames (nodes : list ptr) : M (list string) :=
  ListNodeNamesFrom nodes [].

(** ** Module: DependsOnList *)

(** The method [DependsOnList] of [Module] in dependencyGraph.go: the same
    loop without the [seen] map. *)
Fixpoint ModuleDependsOnList (m : ptr) (deps : list ptr) : M (option error) :=
  match deps with
  | [] => ret None
  | dep :: deps' =>
      err <- DependsOn m dep ;;
      match err with
      | Some e => ret (Some e)
      | None => ModuleDependsOnList m deps'
      end
  end.

(** ** The job wrapper *)

(** An error that [Run] returns: the one the job returned, or one of the
    graph. *)
Inductive run_error (E : Type) :=
| JobError (e : E)
| GraphError (e : error).
Arguments JobError {E} e.
Arguments GraphError {E} e.

(** [type job func() ([]error, error)]: a call of the job is a computation
    on the heap that returns the validation errors and the error. *)
Definition job_fn (E : Type) : Type := M (list E * option E).

(** The method [DependsOn] of [jobNode]: the nodes of the jobs, in order,
    handed to [DependsOnList]. *)
Definition JobDependsOn {J} (j : jobNode J) (jobs : list (jobNode J))
  : M (option error) :=
  let nodeList := fold_left (fun l jb => l ++ [node jb]) jobs [] in
  DependsOnList (node j) nodeList.

(** The method [Run] of [jobNode]; [fuel] is the bound of [Fail]. *)
Definition Run {E} (fuel : nat) (j : jobNode (job_fn E))
  : M (list E * option (run_error E)) :=
  r <- job j ;;
  match snd r with
  | Some err =>
      e <- Fail fuel (node j) ;;
      match e with
      | Some _ => ret ([], Some (JobError err))
      | None => ret ([], Some (JobError err))
      end
  | None =>
      if (0 <? length (fst r))%nat then
        e <- Fail fuel (node j) ;;
        match e with
        | Some e => ret ([], Some (GraphError e))
        | None => ret (fst r, None)
        end
      else
        e <- Pass (node j) ;;
        match e with
        | Some e => ret ([], Some (GraphError e))
        | None => ret ([], None)
        end
  end.

(** * Vocabulary of the properties *)

(** One decrement of the counter, on a node and on the integer. *)
Definition decz (z : Z) : Z := wrap (z - 1).
Definition dec1 (n : Node) : Node := set_depsRemaining (decz (depsRemaining n)) n.
Definition decN (k : nat) (n : Node) : Node :=
  set_depsRemaining (Nat.iter k decz (depsRemaining n)) n.

(** The node at [p] once [m] has been marked with status [s] and the
    dependents in [ds] have been decremented. *)
Definition resolved_node (m : ptr) (s : bool) (ds : list ptr) (p : ptr)
    (np : Node) : Node :=
  decN (count_occ Nat.eq_dec ds p)
       (if decide (p = m) then set_status (Some s) np else np).

(** The dependents that the inner loop pushes. *)
Definition unvisited (visited : gmap string bool) (h : heap) (d : ptr) : bool :=
  match h !! d with
  | Some n => negb (visited_at visited (name n))
  | None => false
  end.

(** The traversal writes the field [blocked] only, and only to true. *)
Definition blocked_only (h h' : heap) : Prop :=
  length h' = length h /\
  forall p n, h !! p = Some n ->
    exists b, h' !! p = Some (set_blocked b n) /\
              (blocked n = true -> b = true).

(** The node of the dependent after a registered edge. *)
Definition add_dependency (mn : Node) : Node :=
  set_hasDependencies true (set_depsRemaining (wrap (depsRemaining mn + 1)) mn).

(** The node of the dependency after a registered edge to [m]. *)
Definition add_dependent (m : ptr) (depn : Node) : Node :=
  set_dependencyOf (dependencyOf depn ++ [m]) depn.

(** [edge h p q]: [q] is in [p.dependencyOf], that is, [q] depends on [p]. *)
Definition edge (h : heap) (p q : ptr) : Prop :=
  exists n, h !! p = Some n /\ q ∈ dependencyOf n.

(** [path h p q]: [q] is reached from [p] by one or more edges, that is,
    [q] is a transitive dependent of [p]. *)
Definition path (h : heap) : relation ptr := tc (edge h).

Definition acyclic (h : heap) : Prop := forall p, ~ path h p p.

(** The invariant that the callers keep (the comment on the field [name]:
    name must be a unique field): two nodes of the heap never carry the
    same name. *)
Definition unique_names (h : heap) : Prop :=
  forall p q np nq,
    h !! p = Some np -> h !! q = Some nq -> name np = name nq -> p = q.

(** The invariant of the traversal started by [Fail] on node [a], whose
    node is [na] in the heap [h0] at the entry of the loop: what [visited],
    the stack and the current heap [h] have to do with the graph of [h0]. *)
Section traversal_inv_def.
Variable h0 : heap.
Variable a : ptr.
Variable na : Node.

Record traversal_inv (V : gmap string bool) (St : list ptr) (h : heap)
  : Prop := mk_traversal_inv {
  ti_len : length h = length h0;
  ti_shape : forall p n0, h0 !! p = Some n0 ->
      exists b, h !! p = Some (set_blocked b n0);
  ti_origin : h !! a = Some na;
  ti_seed : visited_at V (name na) = true;
  ti_stack : forall s, s ∈ St -> path h0 a s;
  ti_expanded : forall p n0, h0 !! p = Some n0 ->
      visited_at V (name n0) = true -> p <> a ->
      path h0 a p /\ exists n, h !! p = Some n /\ blocked n = true;
  ti_closed : forall p n0 c, h0 !! p = Some n0 ->
      visited_at V (name n0) = true -> c ∈ dependencyOf n0 ->
      exists nc, h0 !! c = Some nc /\
                 (visited_at V (name nc) = true \/ c ∈ St);
  ti_untouched : forall p n0, h0 !! p = Some n0 ->
      visited_at V (name n0) = false -> h !! p = Some n0
}.

End traversal_inv_def.

(** What a node can still cost the loop: one expansion and one push per
    dependent, as long as its name is not in [visited]. *)
Definition weight (V : gmap string bool) (n : Node) : nat :=
  if visited_at V (name n) then 0%nat else S (length (dependencyOf n)).

Definition total (V : gmap string bool) (h : heap) : nat :=
  sum_list_with (weight V) h.

(** Nodes plus edges. *)
Definition graph_size (h : heap) : nat :=
  sum_list_with (fun n => S (length (dependencyOf n))) h.

(** A heap in which every edge leads to a node. *)
Definition closed (h : heap) : Prop :=
  forall p n d, h !! p = Some n -> d ∈ dependencyOf n -> is_Some (h !! d).

(** A heap in which every mutex is free, as between two calls of a
    single-threaded driver. *)
Definition quiescent (h : heap) : Prop :=
  forall p n, h !! p = Some n -> locked n = false.

(** Only the traversal consumes fuel. *)
Definition fuel_free {A} (c : M A) : Prop := forall h, c h <> Fault OutOfFuel.

(** How far a call of [Fail] gets before the traversal. *)
Inductive Fail_prefix (fuel : nat) (m : ptr) (h : heap) : Prop :=
| prefix_fault f :
    f <> OutOfFuel -> Fail fuel m h = Fault f -> Fail_prefix fuel m h
| prefix_resolved :
    Fail fuel m h = Ok (Some AlreadyResolved) h -> Fail_prefix fuel m h
| prefix_traversal n h0 :
    h !! m = Some n ->
    forEach (dependencyOf n) decrement
      (<[m := set_status (Some true) (set_locked true n)]> h) = Ok tt h0 ->
    Fail fuel m h =
      (e <- blockDependents fuel m (<[name n := true]> ∅) (dependencyOf n) ;;
       Unlock m ;; ret e) h0 ->
    Fail_prefix fuel m h.

(** A node that [Step] lets through: not blocked, waiting for nothing. *)
Definition ready (h : heap) (d : ptr) : bool :=
  match h !! d with
  | Some n => negb (blocked n) && (depsRemaining n =? 0)
  | None => false
  end.

(** The direct dependents of [p], in the order of [p.dependencyOf]. *)
Definition dependents (h : heap) (p : ptr) : list ptr :=
  match h !! p with
  | Some n => dependencyOf n
  | None => []
  end.

(** The frontier after [nodes], with repetitions. *)
Definition next_frontier (h : heap) (nodes : list ptr) : list ptr :=
  flat_map (fun p => filter (fun d => ready h d = true) (dependents h p)) nodes.

(** The node that a constructor allocates. *)
Definition fresh_node (nm : string) : Node :=
  mkNode nm false false 0 false [] None.

(** No node has a direct dependent of its own name: what the guard of
    [DependsOn] enforces. *)
Definition no_same_name_edge (h : heap) : Prop :=
  forall p n d nd,
    h !! p = Some n -> d ∈ dependencyOf n -> h !! d = Some nd ->
    name nd <> name n.

(** What every heap built by the API satisfies. *)
Record well_formed (h : heap) : Prop := mk_well_formed {
  wf_closed : closed h;
  wf_quiescent : quiescent h;
  wf_names : no_same_name_edge h
}.

(** The heaps reached from the empty heap by returning calls. *)
Inductive built : heap -> Prop :=
| built_empty : built []
| built_NewNode h nm p h' :
    built h -> NewNode nm h = Ok p h' -> built h'
| built_DependsOn h m dep e h' :
    built h -> DependsOn m dep h = Ok e h' -> built h'
| built_Pass h m e h' :
    built h -> Pass m h = Ok e h' -> built h'
| built_Fail h fuel m e h' :
    built h -> Fail fuel m h = Ok e h' -> built h'.

(** While the loop runs, the name of [m] is in [visited] and no node on
    the stack carries it: the guard on the push keeps it out. *)
Definition origin_kept_out (m : ptr) (nmm : string)
    (V : gmap string bool) (St : list ptr) (h : heap) : Prop :=
  (exists mn, h !! m = Some mn /\ name mn = nmm) /\
  visited_at V nmm = true /\
  forall s ns, s ∈ St -> h !! s = Some ns -> name ns <> nmm.

(** A driver as a list of calls, replayed from a heap; a call that does
    not return stops the replay. *)
Inductive call :=
| CallNewNode (nm : string)
| CallDependsOn (m dep : ptr)
| CallPass (m : ptr)
| CallFail (fuel : nat) (m : ptr).

Definition heap_of {A} (r : res A) : option heap :=
  match r with
  | Ok _ h' => Some h'
  | Fault _ => None
  end.

Definition exec (c : call) (h : heap) : option heap :=
  match c with
  | CallNewNode nm => heap_of (NewNode nm h)
  | CallDependsOn m dep => heap_of (DependsOn m dep h)
  | CallPass m => heap_of (Pass m h)
  | CallFail fuel m => heap_of (Fail fuel m h)
  end.

Fixpoint replay (cs : list call) (h : heap) : option heap :=
  match cs with
  | [] => Some h
  | c :: cs' =>
      match exec c h with
      | Some h' => replay cs' h'
      | None => None
      end
  end.

(** Nodes X, Y, Z at addresses 0, 1, 2; X depends on Y, Y on Z, Z on X. *)
Definition cycle_calls : list call :=
  [ CallNewNode "X"; CallNewNode "Y"; CallNewNode "Z";
    CallDependsOn 0 1; CallDependsOn 1 2; CallDependsOn 2 0 ].

Definition cycle_XYZ : heap :=
  [ mkNode "X" false true 1 false [2%nat] None;
    mkNode "Y" false true 1 false [0%nat] None;
    mkNode "Z" false true 1 false [1%nat] None ].

(** Nodes a and b at addresses 0 and 1, after [b.DependsOn(a)]. *)
Definition edge_ab : heap :=
  [ mkNode "a" false false 0 false [1%nat] None;
    mkNode "b" false true 1 false [] None ].

(** A chain: B depends on A, C depends on B; D stands apart. *)
Definition chain_ABCD : heap :=
  [ mkNode "A" false false 0 false [1%nat] None;
    mkNode "B" false true 1 false [2%nat] None;
    mkNode "C" false true 1 false [] None;
    mkNode "D" false false 0 false [] None ].

Definition chain_ABCD_failed : heap :=
  [ mkNode "A" false false 0 false [1%nat] (Some true);
    mkNode "B" true true 0 false [2%nat] None;
    mkNode "C" true true 1 false [] None;
    mkNode "D" false false 0 false [] None ].

(** A node that has passed. *)
Definition passed_a : heap := [ mkNode "a" false false 0 false [] (Some false) ].

(** The graph of the specification: B depends on A, E on B and on D, F on
    E; A and D have passed. *)
Definition graph_ABDEF_calls : list call :=
  [ CallNewNode "A"; CallNewNode "B"; CallNewNode "D"; CallNewNode "E";
    CallNewNode "F"; CallDependsOn 1 0; CallDependsOn 3 1; CallDependsOn 3 2;
    CallDependsOn 4 3; CallPass 0; CallPass 2 ].

Definition graph_ABDEF : heap :=
  [ mkNode "A" false false 0 false [1%nat] (Some false);
    mkNode "B" false true 0 false [3%nat] None;
    mkNode "D" false false 0 false [3%nat] (Some false);
    mkNode "E" false true 1 false [4%nat] None;
    mkNode "F" false true 1 false [] None ].

(** Two distinct nodes that carry the same name. *)
Definition twins : heap := [fresh_node "a"; fresh_node "a"].

(** A node that [GetRootDependencies] keeps. *)
Definition is_root (h : heap) (p : ptr) : bool :=
  match h !! p with
  | Some n => negb (hasDependencies n)
  | None => false
  end.

(** The name of the node at [p]. *)
Definition name_at (h : heap) (p : ptr) : string :=
  match h !! p with
  | Some n => name n
  | None => ""
  end.

(** What a call may do to a node: the name stays, a status that is set
    stays, [blocked] and [hasDependencies] stay once true, and the edge
    list is extended at its end. *)
Definition node_grows (n n' : Node) : Prop :=
  name n' = name n /\
  (forall s, status n = Some s -> status n' = Some s) /\
  (blocked n = true -> blocked n' = true) /\
  (hasDependencies n = true -> hasDependencies n' = true) /\
  dependencyOf n `prefix_of` dependencyOf n'.

(** What a call may do to a heap: nodes stay where they are and grow. *)
Definition heap_grows (h h' : heap) : Prop :=
  (length h <= length h')%nat /\
  forall p n, h !! p = Some n -> exists n', h' !! p = Some n' /\ node_grows n n'.

(** [hasDependencies] says whether the node is a dependent of some edge. *)
Definition flags_match_edges (h : heap) : Prop :=
  forall m nm, h !! m = Some nm ->
    (hasDependencies nm = true <-> exists p, edge h p m).

(** What the node [p] contributes to the dependencies that [m] still waits
    for: its edges to [m], as long as it has no status. *)
Definition pending_from (m : ptr) (p : Node) : nat :=
  match status p with
  | None => count_occ Nat.eq_dec (dependencyOf p) m
  | Some _ => 0%nat
  end.

(** The number of edges to [m] from nodes that have not resolved. *)
Definition pending (h : heap) (m : ptr) : nat :=
  sum_list_with (pending_from m) h.

(** The heaps of a driver that registers an edge only on a dependency that
    has not resolved yet: the calls of [built], with that condition on
    [DependsOn]. *)
Inductive orderly : heap -> Prop :=
| orderly_empty : orderly []
| orderly_NewNode h nm p h' :
    orderly h -> NewNode nm h = Ok p h' -> orderly h'
| orderly_DependsOn h m dep depn e h' :
    orderly h -> h !! dep = Some depn -> status depn = None ->
    DependsOn m dep h = Ok e h' -> orderly h'
| orderly_Pass h m e h' :
    orderly h -> Pass m h = Ok e h' -> orderly h'
| orderly_Fail h fuel m e h' :
    orderly h -> Fail fuel m h = Ok e h' -> orderly h'.

(** Every counter is the number of unresolved dependencies, in [int]. *)
Definition counters_match (h : heap) : Prop :=
  forall m nm, h !! m = Some nm ->
    depsRemaining nm = wrap (Z.of_nat (pending h m)).

(** A call that an orderly driver may make on [h]: [DependsOn] only on a
    dependency without a status. *)
Definition in_order (h : heap) (c : call) : bool :=
  match c with
  | CallDependsOn _ dep =>
      match h !! dep with
      | Some n => match status n with None => true | Some _ => false end
      | None => false
      end
  | _ => true
  end.

Fixpoint replay_in_order (cs : list call) (h : heap) : option heap :=
  match cs with
  | [] => Some h
  | c :: cs' =>
      if in_order h c then
        match exec c h with
        | Some h' => replay_in_order cs' h'
        | None => None
        end
      else None
  end.

(** Every direct dependent of a failed node is blocked. *)
Definition failed_blocks_dependents (h : heap) : Prop :=
  forall p np d, h !! p = Some np -> status np = Some true ->
    d ∈ dependencyOf np ->
    exists nd, h !! d = Some nd /\ blocked nd = true.

(** Two jobs on the node at address 0: one reports a failed validation,
    the other allocates a node and reports nothing. *)
Definition validating_job : jobNode (job_fn string) :=
  mkJob (ret (["validation failed"], None)) 0%nat.

Definition allocating_job : jobNode (job_fn string) :=
  mkJob (p <- NewNode "made by the job" ;; ret ([], None)) 0%nat.

(** What the traversal started by [Fail] on [a] from the heap [h0] keeps
    true: the stack holds transitive dependents of [a], and a node is as in
    [h0] or is such a dependent with [blocked] set. *)
Definition marks_dependents_only (h0 : heap) (a : ptr)
    (V : gmap string bool) (St : list ptr) (hc : heap) : Prop :=
  length hc = length h0 /\
  (forall s, s ∈ St -> path h0 a s) /\
  (forall p n, h0 !! p = Some n ->
     hc !! p = Some n \/
     (path h0 a p /\ hc !! p = Some (set_blocked true n))).

(** A blocked node has an ancestor that failed. *)
Definition blocked_by_failure (h : heap) : Prop :=
  forall q nq, h !! q = Some nq -> blocked nq = true ->
    exists p np, h !! p = Some np /\ status np = Some true /\ path h p q.

(** A node that no edge has made a dependent waits for nothing. *)
Definition roots_wait_for_nothing (h : heap) : Prop :=
  forall p n, h !! p = Some n -> hasDependencies n = false ->
    depsRemaining n = 0.

(** A with two dependents that carry the same name, as built by
    [b1.DependsOn(A)] and [b2.DependsOn(A)], and the same heap after
    [A.Fail()]. *)
Definition same_name_calls : list call :=
  [ CallNewNode "A"; CallNewNode "b"; CallNewNode "b";
    CallDependsOn 1 0; CallDependsOn 2 0 ].

Definition same_name_dependents : heap :=
  [ mkNode "A" false false 0 false [1%nat; 2%nat] None;
    mkNode "b" false true 1 false [] None;
    mkNode "b" false true 1 false [] None ].

Definition same_name_dependents_failed : heap :=
  [ mkNode "A" false false 0 false [1%nat; 2%nat] (Some true);
    mkNode "b" false true 0 false [] None;
    mkNode "b" true true 0 false [] None ].

(** Nodes a and b after [b.DependsOn(a)] twice and [a.Pass()]. *)
Definition edge_ab_twice_calls : list call :=
  [ CallNewNode "a"; CallNewNode "b"; CallDependsOn 1 0; CallDependsOn 1 0;
    CallPass 0 ].

Definition edge_ab_twice_passed : heap :=
  [ mkNode "a" false false 0 false [1%nat; 1%nat] (Some false);
    mkNode "b" false true 0 false [] None ].

(** * Properties *)

(** ** Reading the monad *)

Lemma bind_Ok {A B} (c : M A) (k : A -> M B) h b h2 :
  bind c k h = Ok b h2 <-> exists a h1, c h = Ok a h1 /\ k a h1 = Ok b h2.
Proof.
  unfold bind. destruct (c h) as [a h1|f]; split.
  - eauto.
  - intros (a' & h1' & Ha & Hk). by simplify_eq.
  - done.
  - intros (a' & h1' & Ha & Hk). done.
Qed.

Lemma ret_Ok {A} (a b : A) h h' : ret a h = Ok b h' <-> a = b /\ h = h'.
Proof. unfold ret. split; [intros [= -> ->]|intros [-> ->]]; done. Qed.

Lemma load_Ok p h n h' : load p h = Ok n h' <-> h !! p = Some n /\ h' = h.
Proof.
  unfold load. destruct (h !! p); split;
    [intros [= -> ->]|intros [[= ->] ->]|intros [=]|intros [[=] _]]; done.
Qed.

Lemma update_Ok p f h u h' :
  update p f h = Ok u h' <-> exists n, h !! p = Some n /\ h' = <[p := f n]> h.
Proof.
  unfold update. destruct (h !! p) as [n|], u; split.
  - intros [= <-]. eauto.
  - by intros (n' & [= <-] & ->).
  - done.
  - by intros (n' & [=] & _).
Qed.

Lemma set_locked_back n :
  locked n = false -> set_locked false (set_locked true n) = n.
Proof. destruct n; simpl; by intros ->. Qed.

Lemma Lock_Ok p h u h' :
  Lock p h = Ok u h' <->
  exists n, h !! p = Some n /\ locked n = false /\
            h' = <[p := set_locked true n]> h.
Proof.
  unfold Lock. rewrite bind_Ok. split.
  - intros (n & h1 & [Hn ->]%load_Ok & Hk).
    destruct (locked n) eqn:Hl; [done|].
    apply update_Ok in Hk as (n' & Hn' & ->).
    exists n. by replace n' with n in * by congruence.
  - intros (n & Hn & Hl & ->). exists n, h. split; [by apply load_Ok|].
    rewrite Hl. apply update_Ok. eauto.
Qed.

Lemma Unlock_Ok p h u h' :
  Unlock p h = Ok u h' <->
  exists n, h !! p = Some n /\ locked n = true /\
            h' = <[p := set_locked false n]> h.
Proof.
  unfold Unlock. rewrite bind_Ok. split.
  - intros (n & h1 & [Hn ->]%load_Ok & Hk).
    destruct (locked n) eqn:Hl; [|done].
    apply update_Ok in Hk as (n' & Hn' & ->).
    exists n. by replace n' with n in * by congruence.
  - intros (n & Hn & Hl & ->). exists n, h. split; [by apply load_Ok|].
    rewrite Hl. apply update_Ok. eauto.
Qed.

(** Taking and releasing the mutex of a node leaves the heap as it was. *)
Lemma Lock_Unlock_id p h n :
  h !! p = Some n -> locked n = false ->
  (Lock p ;; Unlock p) h = Ok tt h.
Proof.
  intros Hn Hl. apply bind_Ok. exists tt, (<[p := set_locked true n]> h).
  split; [apply Lock_Ok; eauto|]. apply Unlock_Ok.
  exists (set_locked true n). split_and!.
  - apply list_lookup_insert_eq. by eapply lookup_lt_Some.
  - done.
  - rewrite list_insert_insert_eq, set_locked_back by done.
    by rewrite list_insert_id.
Qed.

Lemma decN_0 n : decN 0 n = n.
Proof. by destruct n. Qed.

Lemma decN_dec1 k n : decN k (dec1 n) = decN (S k) n.
Proof.
  unfold decN, dec1, set_depsRemaining. destruct n; simpl. f_equal.
  induction k as [|k IH]; simpl in *; [done|by rewrite IH].
Qed.

Lemma decrement_Ok d h u h' :
  decrement d h = Ok u h' <->
  exists n, h !! d = Some n /\ locked n = false /\ h' = <[d := dec1 n]> h.
Proof.
  unfold decrement. rewrite bind_Ok. split.
  - intros (? & h1 & (n & Hn & Hl & ->)%Lock_Ok & Hk).
    apply bind_Ok in Hk as (? & h2 & (n2 & Hn2 & ->)%update_Ok & Hk).
    apply Unlock_Ok in Hk as (n3 & Hn3 & _ & ->).
    assert (d < length h)%nat by by eapply lookup_lt_Some.
    rewrite list_lookup_insert_eq in Hn2 by done.
    rewrite list_lookup_insert_eq in Hn3 by by rewrite length_insert.
    simplify_eq. exists n. split_and!; [done..|].
    rewrite !list_insert_insert_eq. f_equal.
    destruct n; simpl in *; by subst.
  - intros (n & Hn & Hl & ->).
    assert (d < length h)%nat by by eapply lookup_lt_Some.
    exists tt, (<[d := set_locked true n]> h). split; [apply Lock_Ok; eauto|].
    apply bind_Ok. eexists tt, _. split.
    + apply update_Ok. eexists. split; [by apply list_lookup_insert_eq|done].
    + apply Unlock_Ok. eexists. split_and!.
      * apply list_lookup_insert_eq. by rewrite !length_insert.
      * done.
      * rewrite !list_insert_insert_eq. f_equal.
        destruct n; simpl in *; by subst.
Qed.

(** The loop over [m.dependencyOf]: every node loses one unit per
    occurrence in the list, and nothing else moves. *)
Lemma forEach_decrement_Ok ds : forall h u h',
  forEach ds decrement h = Ok u h' ->
  length h' = length h /\
  (forall p n, h !! p = Some n ->
     h' !! p = Some (decN (count_occ Nat.eq_dec ds p) n)) /\
  (forall p, p ∈ ds -> exists n, h !! p = Some n /\ locked n = false).
Proof.
  induction ds as [|d ds IH]; intros h u h' Hrun; simpl in Hrun.
  - apply ret_Ok in Hrun as [_ <-]. split_and!; [done| |].
    + intros p n Hn. by rewrite decN_0.
    + intros p Hp. by apply elem_of_nil in Hp.
  - apply bind_Ok in Hrun as (? & h1 & Hd & Hrest).
    apply decrement_Ok in Hd as (nd & Hnd & Hl & ->).
    apply IH in Hrest as (Hlen & Hcnt & Hfree).
    rewrite length_insert in Hlen.
    assert (d < length h)%nat by by eapply lookup_lt_Some.
    split_and!; [done| |].
    + intros p n Hn. simpl. destruct (Nat.eq_dec d p) as [->|Hne].
      * replace n with nd by congruence. rewrite <- decN_dec1. apply Hcnt.
        by apply list_lookup_insert_eq.
      * apply Hcnt. by rewrite list_lookup_insert_ne.
    + intros p [->|Hp]%elem_of_cons; [by eauto|].
      destruct (decide (d = p)) as [->|Hne]; [by eauto|].
      destruct (Hfree p Hp) as (n & Hn & Hln).
      rewrite list_lookup_insert_ne in Hn by done. eauto.
Qed.

(** ** Pass *)

Tactic Notation "step_in" hyp(H) "as" ident(a) ident(h) ident(Hs) :=
  apply bind_Ok in H as (a & h & Hs & H).

Lemma count_occ_notin (ds : list ptr) p :
  p ∉ ds -> count_occ Nat.eq_dec ds p = 0%nat.
Proof. rewrite list_elem_of_In. apply count_occ_not_In. Qed.

(** The common first part of [Pass] and [Fail], from the write of the
    status to the end of the decrement loop, run with [m]'s mutex held. *)
Lemma mark_and_decrement m s h n h1 h2 :
  h !! m = Some n -> locked n = false ->
  update m (set_status (Some s)) (<[m := set_locked true n]> h) = Ok tt h1 ->
  forEach (dependencyOf n) decrement h1 = Ok tt h2 ->
  length h2 = length h /\ (m ∉ dependencyOf n) /\
  (forall d, d ∈ dependencyOf n -> is_Some (h !! d)) /\
  h2 !! m = Some (set_status (Some s) (set_locked true n)) /\
  (forall p np, p <> m -> h !! p = Some np ->
     h2 !! p = Some (resolved_node m s (dependencyOf n) p np)).
Proof.
  intros Hn Hl Hup Hdec.
  assert (m < length h)%nat as Hm by by eapply lookup_lt_Some.
  apply update_Ok in Hup as (n1 & Hn1 & ->).
  rewrite list_lookup_insert_eq in Hn1 by done. simplify_eq.
  rewrite list_insert_insert_eq in Hdec.
  apply forEach_decrement_Ok in Hdec as (Hlen & Hcnt & Hfree).
  rewrite length_insert in Hlen.
  assert (m ∉ dependencyOf n) as Hnotin.
  { intros Hin. destruct (Hfree m Hin) as (n' & Hn' & Hl').
    rewrite list_lookup_insert_eq in Hn' by done. by simplify_eq. }
  split_and!; [done..| | |].
  - intros d Hd. destruct (Hfree d Hd) as (n' & Hn' & _).
    apply lookup_lt_is_Some. apply lookup_lt_Some in Hn'.
    by rewrite length_insert in Hn'.
  - erewrite Hcnt by by apply list_lookup_insert_eq.
    by rewrite count_occ_notin, decN_0.
  - intros p np Hne Hp. unfold resolved_node.
    rewrite decide_False by done. apply Hcnt.
    by rewrite list_lookup_insert_ne.
Qed.

Lemma Pass_Ok m h e h' :
  Pass m h = Ok e h' ->
  exists n, h !! m = Some n /\ locked n = false /\
    match status n with
    | Some _ => e = Some AlreadyResolved /\ h' = h
    | None =>
        e = None /\ (m ∉ dependencyOf n) /\ length h' = length h /\
        forall p np, h !! p = Some np ->
          h' !! p = Some (resolved_node m false (dependencyOf n) p np)
    end.
Proof.
  unfold Pass. intros H. step_in H as u1 h1 Hlock.
  apply Lock_Ok in Hlock as (n & Hn & Hl & ->).
  assert (m < length h)%nat as Hm by by eapply lookup_lt_Some.
  step_in H as n1 h1 Hload. apply load_Ok in Hload as [Hn1 ->].
  rewrite list_lookup_insert_eq in Hn1 by done. simplify_eq.
  exists n. split_and!; [done..|]. simpl in H.
  destruct (status n) as [s|] eqn:Hst.
  - step_in H as u2 h2 Hunl. apply ret_Ok in H as [<- <-].
    apply Unlock_Ok in Hunl as (n2 & Hn2 & _ & ->).
    rewrite list_lookup_insert_eq in Hn2 by done. simplify_eq.
    rewrite list_insert_insert_eq, set_locked_back by done.
    by rewrite list_insert_id.
  - step_in H as u2 h2 Hup. destruct u2.
    step_in H as n2 h3 Hload. apply load_Ok in Hload as [Hn2 ->].
    step_in H as u3 h3 Hdec. destruct u3.
    step_in H as u4 h4 Hunl. apply ret_Ok in H as [<- <-].
    assert (n2 = set_status (Some false) (set_locked true n)) as ->.
    { apply update_Ok in Hup as (n1 & Hn1 & ->).
      rewrite list_lookup_insert_eq in Hn1 by done.
      rewrite list_lookup_insert_eq in Hn2 by by rewrite length_insert.
      by simplify_eq. }
    simpl in Hdec.
    destruct (mark_and_decrement _ _ _ _ _ _ Hn Hl Hup Hdec)
      as (Hlen & Hnotin & _ & Hatm & Hothers).
    apply Unlock_Ok in Hunl as (n3 & Hn3 & _ & ->).
    rewrite Hatm in Hn3. simplify_eq.
    split_and!; [done..|by rewrite length_insert|].
    intros p np Hp. destruct (decide (p = m)) as [->|Hne].
    + rewrite list_lookup_insert_eq by by rewrite Hlen.
      replace np with n by congruence. unfold resolved_node.
      rewrite decide_True, count_occ_notin, decN_0 by done.
      f_equal. destruct n; simpl in *; by subst.
    + rewrite list_lookup_insert_ne by done. by apply Hothers.
Qed.

(** ** The stack *)

Lemma fold_left_Push (l : list ptr) (s : nodeStack) :
  fold_left Push l s = s ++ l.
Proof.
  revert s. induction l as [|x l IH]; intros s; simpl.
  - by rewrite app_nil_r.
  - rewrite IH. unfold Push. by rewrite <- app_assoc.
Qed.

Lemma Len_snoc (s : nodeStack) x : (Len (s ++ [x]) =? 0)%nat = false.
Proof. unfold Len. rewrite length_app. simpl. apply Nat.eqb_neq. lia. Qed.

(** [Pop] returns what the last [Push] added, and the stack before it. *)
Lemma Pop_Push (s : nodeStack) x : Pop (Push s x) = (Some x, None, s).
Proof.
  unfold Pop, Push. rewrite length_app. simpl.
  replace (length s + 1 =? 0)%nat with false by (symmetry; apply Nat.eqb_neq; lia).
  replace (length s + 1 - 1)%nat with (length s) by lia.
  rewrite lookup_app_r, Nat.sub_diag by done. simpl.
  by rewrite take_app_length.
Qed.

Lemma Pop_empty : Pop New = (None, Some EmptyStack, New).
Proof. reflexivity. Qed.

Lemma stack_cases (s : nodeStack) : s = [] \/ exists s' x, s = s' ++ [x].
Proof.
  induction s as [|x s _] using rev_ind; [by left|right; eauto].
Qed.

(** ** The traversal of Fail *)

Lemma pushUnvisited_Ok V ds : forall S h S' h',
  pushUnvisited V ds S h = Ok S' h' <->
  h' = h /\ (forall d, d ∈ ds -> is_Some (h !! d)) /\
  S' = S ++ filter (fun d => unvisited V h d = true) ds.
Proof.
  induction ds as [|d ds IH]; intros S h S' h'; simpl.
  - rewrite ret_Ok, app_nil_r. split.
    + intros [-> ->]. split_and!; [done| |done].
      intros d Hd. by apply elem_of_nil in Hd.
    + by intros (-> & _ & ->).
  - rewrite bind_Ok. split.
    + intros (n & h1 & [Hn ->]%load_Ok & Hk).
      assert (unvisited V h d = negb (visited_at V (name n))) as Hu
        by (unfold unvisited; by rewrite Hn).
      destruct (negb (visited_at V (name n))) eqn:Hv;
        apply IH in Hk as (-> & Hval & ->);
        (split_and!; [done|intros d' [->|Hd']%elem_of_cons; eauto|]).
      * rewrite filter_cons_True by done. unfold Push.
        by rewrite <- app_assoc.
      * rewrite filter_cons_False by by rewrite Hu.
        done.
    + intros (-> & Hval & ->).
      destruct (Hval d) as [n Hn]; [by left|].
      exists n, h. split; [by apply load_Ok|].
      assert (unvisited V h d = negb (visited_at V (name n))) as Hu
        by (unfold unvisited; by rewrite Hn).
      destruct (negb (visited_at V (name n))) eqn:Hv;
        (apply IH; split_and!;
           [done|intros d' Hd'; apply Hval; by right|]).
      * rewrite filter_cons_True by done. unfold Push.
        by rewrite <- app_assoc.
      * rewrite filter_cons_False by by rewrite Hu.
        done.
Qed.

Lemma blockDependents_nil fuel m V h :
  blockDependents (S fuel) m V [] h = Ok None h.
Proof. reflexivity. Qed.

(** One iteration of the loop on a stack whose top is [s]. *)
Lemma blockDependents_snoc fuel m V (St : nodeStack) s h :
  blockDependents (S fuel) m V (St ++ [s]) h =
  (nd <- load s ;;
   mn <- load m ;;
   if String.eqb (name nd) (name mn) then ret (Some CircularDependency)
   else if negb (visited_at V (name nd)) then
     update s (set_blocked true) ;;
     nd' <- load s ;;
     nodes <- pushUnvisited (<[name nd := true]> V) (dependencyOf nd') St ;;
     blockDependents fuel m (<[name nd := true]> V) nodes
   else blockDependents fuel m V St) h.
Proof.
  cbn [blockDependents]. rewrite Len_snoc.
  pose proof (Pop_Push St s) as HP. unfold Push in HP. by rewrite HP.
Qed.

(** A proof rule for the loop: a property of (visited, stack, heap) that
    survives the two kinds of iteration holds when the loop returns. *)
Section traversal_rule.
Variable m : ptr.
Variable I : gmap string bool -> list ptr -> heap -> Prop.

Hypothesis I_skip : forall V St s h nd mn,
  I V (St ++ [s]) h -> h !! s = Some nd -> h !! m = Some mn ->
  name nd <> name mn -> visited_at V (name nd) = true ->
  I V St h.

Hypothesis I_expand : forall V St s h nd mn,
  I V (St ++ [s]) h -> h !! s = Some nd -> h !! m = Some mn ->
  name nd <> name mn -> visited_at V (name nd) = false ->
  (forall d, d ∈ dependencyOf nd -> is_Some (h !! d)) ->
  I (<[name nd := true]> V)
    (St ++ filter (fun d => unvisited (<[name nd := true]> V)
                              (<[s := set_blocked true nd]> h) d = true)
                  (dependencyOf nd))
    (<[s := set_blocked true nd]> h).

Lemma blockDependents_rule fuel : forall V St h e h',
  I V St h -> blockDependents fuel m V St h = Ok e h' ->
  (e = None /\ exists V', I V' [] h') \/
  (e = Some CircularDependency /\
   exists V' St' s nd mn, I V' (St' ++ [s]) h' /\ h' !! s = Some nd /\
                          h' !! m = Some mn /\ name nd = name mn).
Proof.
  induction fuel as [|fuel IH]; intros V St h e h' HI Hrun; [done|].
  destruct (stack_cases St) as [->|(St' & s & ->)].
  - rewrite blockDependents_nil in Hrun. simplify_eq. left. eauto.
  - rewrite blockDependents_snoc in Hrun.
    step_in Hrun as nd h1 Hnd. apply load_Ok in Hnd as [Hnd ->].
    step_in Hrun as mn h1 Hmn. apply load_Ok in Hmn as [Hmn ->].
    destruct (String.eqb_spec (name nd) (name mn)) as [Heq|Hne].
    { apply ret_Ok in Hrun as [<- <-]. right. split; [done|].
      by exists V, St', s, nd, mn. }
    destruct (visited_at V (name nd)) eqn:Hv; simpl in Hrun.
    { eapply IH; [|done]. by eapply I_skip. }
    step_in Hrun as u h1 Hup. apply update_Ok in Hup as (nd1 & Hnd1 & ->).
    replace nd1 with nd in * by congruence.
    step_in Hrun as nd' h1 Hnd'. apply load_Ok in Hnd' as [Hnd' ->].
    rewrite list_lookup_insert_eq in Hnd' by by eapply lookup_lt_Some.
    simplify_eq.
    step_in Hrun as St2 h2 Hpush.
    apply pushUnvisited_Ok in Hpush as (-> & Hval & ->).
    eapply IH; [|done]. simpl. eapply I_expand; try done.
    intros d Hd. by eapply list_lookup_insert_is_Some, Hval.
Qed.
End traversal_rule.

Lemma set_blocked_same n : set_blocked (blocked n) n = n.
Proof. by destruct n. Qed.

Lemma blocked_only_refl h : blocked_only h h.
Proof.
  split; [done|]. intros p n Hn. exists (blocked n).
  by rewrite set_blocked_same.
Qed.

Lemma blocked_only_step h0 h s nd :
  blocked_only h0 h -> h !! s = Some nd ->
  blocked_only h0 (<[s := set_blocked true nd]> h).
Proof.
  intros [Hlen Hfr] Hnd. split; [by rewrite length_insert|].
  intros p n Hn. destruct (Hfr p n Hn) as (b & Hb & Hmono).
  destruct (decide (s = p)) as [->|Hne].
  - exists true. split; [|done].
    rewrite list_lookup_insert_eq by by eapply lookup_lt_Some.
    by replace nd with (set_blocked b n) by congruence.
  - exists b. by rewrite list_lookup_insert_ne.
Qed.

Lemma blockDependents_blocked_only fuel m V St h e h' :
  blockDependents fuel m V St h = Ok e h' -> blocked_only h h'.
Proof.
  intros Hrun.
  destruct (blockDependents_rule m (fun _ _ hc => blocked_only h hc))
    with (fuel := fuel) (V := V) (St := St) (h := h) (e := e) (h' := h')
    as [[_ [_ ?]]|[_ (_ & _ & _ & _ & _ & ? & _)]];
    auto using blocked_only_refl, blocked_only_step.
Qed.

(** ** Fail *)

(** What a returning call of [Fail] has done: either the node was already
    resolved and the heap is as before, or the status was written, the
    direct dependents were decremented (heap [h0]), the traversal ran from
    [h0] to [h1], and the mutex of [m] was released. *)
Lemma Fail_Ok fuel m h e h' :
  Fail fuel m h = Ok e h' ->
  exists n, h !! m = Some n /\ locked n = false /\
    match status n with
    | Some _ => e = Some AlreadyResolved /\ h' = h
    | None =>
        (m ∉ dependencyOf n) /\
        (forall d, d ∈ dependencyOf n -> is_Some (h !! d)) /\
        exists h0 h1 n1,
          length h0 = length h /\
          h0 !! m = Some (set_status (Some true) (set_locked true n)) /\
          (forall p np, p <> m -> h !! p = Some np ->
             h0 !! p = Some (resolved_node m true (dependencyOf n) p np)) /\
          blockDependents fuel m (<[name n := true]> ∅) (dependencyOf n) h0
            = Ok e h1 /\
          h1 !! m = Some n1 /\ locked n1 = true /\
          h' = <[m := set_locked false n1]> h1
    end.
Proof.
  unfold Fail. intros H. step_in H as u1 h1 Hlock.
  apply Lock_Ok in Hlock as (n & Hn & Hl & ->).
  assert (m < length h)%nat as Hm by by eapply lookup_lt_Some.
  step_in H as n1 h1 Hload. apply load_Ok in Hload as [Hn1 ->].
  rewrite list_lookup_insert_eq in Hn1 by done. simplify_eq.
  exists n. split_and!; [done..|]. simpl in H.
  destruct (status n) as [s|] eqn:Hst.
  - step_in H as u2 h2 Hunl. apply ret_Ok in H as [<- <-].
    apply Unlock_Ok in Hunl as (n2 & Hn2 & _ & ->).
    rewrite list_lookup_insert_eq in Hn2 by done. simplify_eq.
    rewrite list_insert_insert_eq, set_locked_back by done.
    by rewrite list_insert_id.
  - step_in H as u2 h2 Hup. destruct u2.
    step_in H as n2 h3 Hload. apply load_Ok in Hload as [Hn2 ->].
    step_in H as u3 h3 Hdec. destruct u3.
    assert (n2 = set_status (Some true) (set_locked true n)) as ->.
    { apply update_Ok in Hup as (n1 & Hn1 & ->).
      rewrite list_lookup_insert_eq in Hn1 by done.
      rewrite list_lookup_insert_eq in Hn2 by by rewrite length_insert.
      by simplify_eq. }
    simpl in Hdec.
    destruct (mark_and_decrement _ _ _ _ _ _ Hn Hl Hup Hdec)
      as (Hlen & Hnotin & Hval & Hatm & Hothers).
    step_in H as n3 h4 Hload. apply load_Ok in Hload as [Hn3 ->].
    step_in H as n4 h4 Hload. apply load_Ok in Hload as [Hn4 ->].
    rewrite Hatm in Hn3, Hn4. simplify_eq. simpl in H.
    rewrite fold_left_Push in H. unfold New in H. simpl in H.
    step_in H as e1 h4 Hloop. step_in H as u4 h5 Hunl.
    apply ret_Ok in H as [<- <-].
    apply Unlock_Ok in Hunl as (n5 & Hn5 & Hl5 & ->).
    split_and!; [done..|]. by exists h3, h4, n5.
Qed.

(** Every field of every node after a returning call of [Fail] that got
    past the status check. *)
Lemma Fail_frame fuel m h e h' n :
  Fail fuel m h = Ok e h' -> h !! m = Some n -> status n = None ->
  length h' = length h /\
  forall p np, h !! p = Some np ->
    exists b, h' !! p =
                Some (set_blocked b (resolved_node m true (dependencyOf n) p np))
              /\ (blocked np = true -> b = true).
Proof.
  intros (n' & Hn' & Hl & Hcase)%Fail_Ok Hn Hst.
  replace n' with n in * by congruence. rewrite Hst in Hcase.
  destruct Hcase as (Hnotin & _ & h0 & h1 & n1 & Hlen & H0m & H0 & Hloop
                     & Hn1 & Hl1 & ->).
  apply blockDependents_blocked_only in Hloop as [Hlen1 Hfr].
  split; [by rewrite length_insert, Hlen1|].
  intros p np Hp. destruct (decide (p = m)) as [->|Hne].
  - replace np with n by congruence.
    destruct (Hfr _ _ H0m) as (b & Hb & Hmono).
    replace n1 with (set_blocked b (set_status (Some true) (set_locked true n)))
      by congruence.
    exists b. split; [|done].
    rewrite list_lookup_insert_eq by
      (rewrite Hlen1, Hlen; by eapply lookup_lt_Some).
    f_equal. unfold resolved_node.
    rewrite decide_True, count_occ_notin, decN_0 by done.
    destruct n; simpl in *; by subst.
  - rewrite list_lookup_insert_ne by done.
    destruct (Hfr _ _ (H0 _ _ Hne Hp)) as (b & Hb & Hmono).
    exists b. split; [done|]. intros Hbl. apply Hmono.
    unfold resolved_node. rewrite decide_False by done. done.
Qed.

(** ** The fields of a resolved node *)

Lemma resolved_node_depsRemaining m s ds p np :
  depsRemaining (resolved_node m s ds p np) =
  Nat.iter (count_occ Nat.eq_dec ds p) decz (depsRemaining np).
Proof. unfold resolved_node. by destruct (decide (p = m)). Qed.

Lemma resolved_node_status m s ds p np :
  status (resolved_node m s ds p np) =
  if decide (p = m) then Some s else status np.
Proof. unfold resolved_node. by destruct (decide (p = m)). Qed.

Lemma resolved_node_name m s ds p np :
  name (resolved_node m s ds p np) = name np.
Proof. unfold resolved_node. by destruct (decide (p = m)). Qed.

Lemma resolved_node_dependencyOf m s ds p np :
  dependencyOf (resolved_node m s ds p np) = dependencyOf np.
Proof. unfold resolved_node. by destruct (decide (p = m)). Qed.

Lemma resolved_node_blocked m s ds p np :
  blocked (resolved_node m s ds p np) = blocked np.
Proof. unfold resolved_node. by destruct (decide (p = m)). Qed.

Lemma resolved_node_locked m s ds p np :
  locked (resolved_node m s ds p np) = locked np.
Proof. unfold resolved_node. by destruct (decide (p = m)). Qed.

Lemma resolved_node_hasDependencies m s ds p np :
  hasDependencies (resolved_node m s ds p np) = hasDependencies np.
Proof. unfold resolved_node. by destruct (decide (p = m)). Qed.

(** Away from the ends of the integer range the wrap-around is silent. *)
Lemma wrap_in_range z : - 2 ^ 63 <= z <= 2 ^ 63 - 1 -> wrap z = z.
Proof.
  intros Hz. unfold wrap. rewrite Z.mod_small; lia.
Qed.

Lemma iter_decz_in_range k : forall z,
  - 2 ^ 63 <= z - Z.of_nat k -> z <= 2 ^ 63 - 1 ->
  Nat.iter k decz z = z - Z.of_nat k.
Proof.
  induction k as [|k IH]; intros z Hlo Hhi; simpl.
  - lia.
  - rewrite IH by lia. unfold decz. rewrite wrap_in_range; lia.
Qed.

(** Running a computation forwards. *)
Lemma bind_run {A B} (c : M A) (k : A -> M B) h a h1 :
  c h = Ok a h1 -> bind c k h = k a h1.
Proof. unfold bind. by intros ->. Qed.

Lemma bind_fault {A B} (c : M A) (k : A -> M B) h f :
  c h = Fault f -> bind c k h = Fault f.
Proof. unfold bind. by intros ->. Qed.

Lemma load_fault p h : h !! p = None -> load p h = Fault NilDeref.
Proof. unfold load. by intros ->. Qed.

Lemma Lock_run p h n :
  h !! p = Some n -> locked n = false ->
  Lock p h = Ok tt (<[p := set_locked true n]> h).
Proof. intros. apply Lock_Ok. eauto. Qed.

Lemma load_run p h n : h !! p = Some n -> load p h = Ok n h.
Proof. intros. by apply load_Ok. Qed.

Lemma already_resolved_run (m : ptr) h n s :
  h !! m = Some n -> locked n = false -> status n = Some s ->
  forall k : M (option error),
  (Lock m ;; n <- load m ;;
   match status n with
   | Some _ => Unlock m ;; ret (Some AlreadyResolved)
   | None => k
   end) h = Ok (Some AlreadyResolved) h.
Proof.
  intros Hn Hl Hs k.
  assert (m < length h)%nat as Hm by by eapply lookup_lt_Some.
  erewrite bind_run by by apply Lock_run.
  erewrite bind_run by by apply load_run, list_lookup_insert_eq.
  simpl. rewrite Hs.
  erewrite (bind_run _ _ _ tt).
  2:{ apply Unlock_Ok. eexists.
      split_and!; [by apply list_lookup_insert_eq|done..]. }
  rewrite list_insert_insert_eq, set_locked_back by done.
  by rewrite list_insert_id.
Qed.

(** C6: when [b] occurs [k] times in [a.dependencyOf] (once per registered
    edge from [a] to [b]), a call of [Pass] or [Fail] on [a] that returns
    nil leaves [b.depsRemaining] decremented [k] times, which is a
    decrease by exactly [k] while the counter stays in the range of [int];
    a call that returns AlreadyResolved leaves the whole heap unchanged. *)
Theorem resolve_decrements_once_per_edge h a na b nb e h' :
  h !! a = Some na -> h !! b = Some nb ->
  (Pass a h = Ok e h' \/ exists fuel, Fail fuel a h = Ok e h') ->
  let k := count_occ Nat.eq_dec (dependencyOf na) b in
  (e = Some AlreadyResolved -> h' = h) /\
  (e = None ->
     exists nb', h' !! b = Some nb' /\
       depsRemaining nb' = Nat.iter k decz (depsRemaining nb) /\
       (- 2 ^ 63 <= depsRemaining nb - Z.of_nat k ->
        depsRemaining nb <= 2 ^ 63 - 1 ->
        depsRemaining nb' = depsRemaining nb - Z.of_nat k)).
Proof.
  intros Ha Hb Hrun k.
  assert (status na = None -> e = None ->
          exists nb', h' !! b = Some nb' /\
            depsRemaining nb' = Nat.iter k decz (depsRemaining nb)) as Hdec.
  { intros Hst _. destruct Hrun as [Hrun|[fuel Hrun]].
    - apply Pass_Ok in Hrun as (n & Hn & _ & Hcase).
      replace n with na in * by congruence. rewrite Hst in Hcase.
      destruct Hcase as (_ & _ & _ & Hpt).
      eexists. split; [by apply Hpt|]. apply resolved_node_depsRemaining.
    - destruct (Fail_frame _ _ _ _ _ _ Hrun Ha Hst) as [_ Hpt].
      destruct (Hpt _ _ Hb) as (bl & -> & _).
      eexists. split; [done|]. simpl. apply resolved_node_depsRemaining. }
  assert (match status na with
          | Some _ => e = Some AlreadyResolved /\ h' = h
          | None => e <> Some AlreadyResolved
          end) as Hcase.
  { destruct Hrun as [Hrun|[fuel Hrun]].
    - apply Pass_Ok in Hrun as (n & Hn & _ & Hcase).
      replace n with na in * by congruence.
      destruct (status na); [done|]. by destruct Hcase as (-> & _).
    - pose proof Hrun as (n & Hn & _ & Hcase)%Fail_Ok.
      replace n with na in * by congruence.
      destruct (status na) eqn:Hst; [done|].
      destruct Hcase as (_ & _ & h0 & h1 & n1 & _ & _ & _ & Hloop & _).
      intros ->.
      destruct (blockDependents_rule a (fun _ _ _ => True))
        with (fuel := fuel) (V := <[name na := true]> (∅ : gmap string bool))
             (St := dependencyOf na) (h := h0)
             (e := Some AlreadyResolved) (h' := h1)
        as [[? _]|[? _]]; auto; done. }
  split.
  - intros ->. destruct (status na); [by destruct Hcase|done].
  - intros ->. destruct (status na) eqn:Hst; [by destruct Hcase|].
    destruct Hdec as (nb' & Hnb' & Hdr); [done..|].
    exists nb'. split_and!; [done..|].
    intros Hlo Hhi. rewrite Hdr. by apply iter_decz_in_range.
Qed.

(** ** DependsOn *)

(** The duplicate loop reads only: it answers true when some node of the
    list carries the name of [dep] itself. *)
Lemma duplicateFound_Ok dep ds : forall h b h',
  duplicateFound dep ds h = Ok b h' ->
  h' = h /\
  if b then exists d nd depn, d ∈ ds /\ h !! d = Some nd /\
                              h !! dep = Some depn /\ name nd = name depn
  else forall d, d ∈ ds -> exists nd depn, h !! d = Some nd /\
                              h !! dep = Some depn /\ name nd <> name depn.
Proof.
  induction ds as [|d ds IH]; intros h b h' Hrun; simpl in Hrun.
  - apply ret_Ok in Hrun as [<- <-]. split; [done|].
    intros d Hd. by apply elem_of_nil in Hd.
  - step_in Hrun as nd h1 Hnd. apply load_Ok in Hnd as [Hnd ->].
    step_in Hrun as depn h1 Hdep. apply load_Ok in Hdep as [Hdep ->].
    destruct (String.eqb_spec (name nd) (name depn)) as [Heq|Hne].
    + apply ret_Ok in Hrun as [<- <-]. split; [done|].
      exists d, nd, depn. split_and!; [by left|done..].
    + apply IH in Hrun as [-> Hb]. split; [done|]. destruct b.
      * destruct Hb as (d' & nd' & depn' & Hd' & ?).
        exists d', nd', depn'. split; [by right|done].
      * intros d' [->|Hd']%elem_of_cons; [by exists nd, depn|by apply Hb].
Qed.

Lemma DependsOn_Ok m dep h e h' :
  DependsOn m dep h = Ok e h' ->
  exists depn mn, h !! dep = Some depn /\ h !! m = Some mn /\
    ((name depn = name mn /\ e = Some SelfDependency /\ h' = h) \/
     (name depn <> name mn /\ locked depn = false /\
      ((e = Some (DuplicateDependency (name depn)) /\
        (exists d nd, d ∈ dependencyOf depn /\ h !! d = Some nd /\
                      name nd = name depn) /\
        h' = <[dep := set_locked true depn]> h) \/
       (e = None /\ locked mn = false /\
        (forall d, d ∈ dependencyOf depn ->
           exists nd, h !! d = Some nd /\ name nd <> name depn) /\
        h' = <[m := add_dependency mn]> (<[dep := add_dependent m depn]> h))))).
Proof.
  unfold DependsOn. intros H.
  step_in H as depn h1 Hdep. apply load_Ok in Hdep as [Hdep ->].
  step_in H as mn h1 Hm. apply load_Ok in Hm as [Hm ->].
  exists depn, mn. split_and!; [done..|].
  destruct (String.eqb_spec (name depn) (name mn)) as [Heq|Hne].
  { apply ret_Ok in H as [<- <-]. by left. }
  right. assert (m <> dep) as Hmd by (intros ->; congruence).
  assert (dep < length h)%nat as Hdlt by by eapply lookup_lt_Some.
  assert (m < length h)%nat as Hmlt by by eapply lookup_lt_Some.
  step_in H as u1 h1 Hlock. apply Lock_Ok in Hlock as (n1 & Hn1 & Hl & ->).
  replace n1 with depn in * by congruence.
  step_in H as n2 h1 Hload. apply load_Ok in Hload as [Hn2 ->].
  rewrite list_lookup_insert_eq in Hn2 by done. simplify_eq.
  split_and!; [done..|]. cbn [dependencyOf set_locked] in H.
  step_in H as dup h1 Hdup. apply duplicateFound_Ok in Hdup as [-> Hdup].
  assert (forall d nd, <[dep := set_locked true depn]> h !! d = Some nd ->
            exists nd', h !! d = Some nd' /\ name nd' = name nd) as Hback.
  { intros d nd Hd. destruct (decide (dep = d)) as [<-|Hned].
    - rewrite list_lookup_insert_eq in Hd by done. simplify_eq. eauto.
    - rewrite list_lookup_insert_ne in Hd by done. eauto. }
  destruct dup.
  - left. step_in H as n3 h1 Hload. apply load_Ok in Hload as [Hn3 ->].
    rewrite list_lookup_insert_eq in Hn3 by done. simplify_eq.
    apply ret_Ok in H as [<- <-]. split_and!; [done| |done].
    destruct Hdup as (d & nd & depn' & Hd & Hnd & Hdepn' & Hnm).
    rewrite list_lookup_insert_eq in Hdepn' by done. simplify_eq.
    destruct (Hback _ _ Hnd) as (nd' & Hnd' & Hnm').
    exists d, nd'. split_and!; [done..|]. by rewrite Hnm'.
  - right. step_in H as u2 h1 Hup. apply update_Ok in Hup as (n3 & Hn3 & ->).
    rewrite list_lookup_insert_eq in Hn3 by done. simplify_eq.
    rewrite list_insert_insert_eq in H.
    step_in H as u3 h1 Hunl. apply Unlock_Ok in Hunl as (n4 & Hn4 & _ & ->).
    rewrite list_lookup_insert_eq in Hn4 by done. simplify_eq.
    rewrite list_insert_insert_eq in H.
    step_in H as u4 h1 Hlock. apply Lock_Ok in Hlock as (n5 & Hn5 & Hl5 & ->).
    rewrite list_lookup_insert_ne in Hn5 by done.
    replace n5 with mn in * by congruence.
    step_in H as u5 h1 Hup. apply update_Ok in Hup as (n6 & Hn6 & ->).
    rewrite list_lookup_insert_eq in Hn6 by by rewrite length_insert.
    simplify_eq. rewrite list_insert_insert_eq in H.
    step_in H as u6 h1 Hup. apply update_Ok in Hup as (n7 & Hn7 & ->).
    rewrite list_lookup_insert_eq in Hn7 by by rewrite length_insert.
    simplify_eq. rewrite list_insert_insert_eq in H.
    step_in H as u7 h1 Hunl. apply Unlock_Ok in Hunl as (n8 & Hn8 & _ & ->).
    rewrite list_lookup_insert_eq in Hn8 by by rewrite length_insert.
    simplify_eq. rewrite list_insert_insert_eq in H.
    apply ret_Ok in H as [<- <-]. split_and!; [done..| |].
    + intros d Hd. destruct (Hdup d Hd) as (nd & depn' & Hnd & Hdepn' & Hnm).
      rewrite list_lookup_insert_eq in Hdepn' by done. simplify_eq.
      destruct (Hback _ _ Hnd) as (nd' & Hnd' & Hnm').
      exists nd'. split; [done|]. by rewrite Hnm'.
    + f_equal; [|f_equal]; unfold add_dependency, add_dependent;
        destruct mn, depn; simpl in *; by subst.
Qed.

(** A write that keeps the status of the node it replaces keeps every
    status that is set. *)
Lemma insert_keeps_status (h : heap) p x m n s :
  h !! m = Some n -> status n = Some s ->
  (forall y, h !! p = Some y -> status x = status y) ->
  exists n', <[p := x]> h !! m = Some n' /\ status n' = Some s.
Proof.
  intros Hn Hs Hx. destruct (decide (p = m)) as [->|Hne].
  - exists x. rewrite list_lookup_insert_eq by by eapply lookup_lt_Some.
    split; [done|]. by rewrite (Hx n Hn).
  - exists n. by rewrite list_lookup_insert_ne.
Qed.

(** C3: on a node whose status is already set, [Pass] and [Fail] return
    the AlreadyResolved error and leave the heap, hence the status, as it
    was; and no returning call of [Pass], [Fail] or [DependsOn], on this
    node or on any other, changes a status that is set: a node reaches a
    terminal status at most once. *)
Theorem resolved_status_is_final h m n s :
  h !! m = Some n -> locked n = false -> status n = Some s ->
  Pass m h = Ok (Some AlreadyResolved) h /\
  (forall fuel, Fail fuel m h = Ok (Some AlreadyResolved) h) /\
  (forall q e h', Pass q h = Ok e h' ->
     exists n', h' !! m = Some n' /\ status n' = Some s) /\
  (forall fuel q e h', Fail fuel q h = Ok e h' ->
     exists n', h' !! m = Some n' /\ status n' = Some s) /\
  (forall q r e h', DependsOn q r h = Ok e h' ->
     exists n', h' !! m = Some n' /\ status n' = Some s).
Proof.
  intros Hn Hl Hs. split_and!.
  - unfold Pass. by eapply already_resolved_run.
  - intros fuel. unfold Fail. by eapply already_resolved_run.
  - intros q e h' (nq & Hnq & _ & Hcase)%Pass_Ok.
    destruct (status nq) eqn:Hsq.
    + destruct Hcase as [_ ->]. eauto.
    + destruct Hcase as (_ & _ & _ & Hpt).
      eexists. split; [by apply Hpt|].
      rewrite resolved_node_status, decide_False; [done|].
      intros ->. congruence.
  - intros fuel q e h' Hrun.
    destruct (Fail_Ok _ _ _ _ _ Hrun) as (nq & Hnq & _ & Hcase).
    destruct (status nq) eqn:Hsq.
    + destruct Hcase as [_ ->]. eauto.
    + destruct (Fail_frame _ _ _ _ _ _ Hrun Hnq Hsq) as [_ Hpt].
      destruct (Hpt _ _ Hn) as (b & -> & _).
      eexists. split; [done|]. unfold set_blocked. cbn [status].
      rewrite resolved_node_status, decide_False; [done|].
      intros ->. congruence.
  - intros q r e h' (depn & mn & Hdep & Hm & Hcase)%DependsOn_Ok.
    destruct Hcase as [(_ & _ & ->)
                      |(_ & _ & [(_ & _ & ->)|(_ & _ & _ & ->)])].
    + eauto.
    + eapply insert_keeps_status; [done..|].
      intros y Hy. by replace y with depn by congruence.
    + destruct (insert_keeps_status h r (add_dependent q depn) m n s)
        as (n1 & Hn1 & Hs1); [done..| |].
      { intros y Hy. by replace y with depn by congruence. }
      eapply insert_keeps_status; [done..|].
      intros y Hy. destruct (decide (r = q)) as [->|Hrq].
      * rewrite list_lookup_insert_eq in Hy by by eapply lookup_lt_Some.
        replace mn with depn by congruence. by simplify_eq.
      * rewrite list_lookup_insert_ne in Hy by done.
        by replace y with mn by congruence.
Qed.

(** C8: [A.DependsOn(A)] returns the SelfDependency error and leaves the
    heap as it was, so that [A]'s dependencyOf list, depsRemaining counter
    and hasDependencies flag are those of before the call. *)
Theorem DependsOn_self_rejected h a n :
  h !! a = Some n ->
  DependsOn a a h = Ok (Some SelfDependency) h.
Proof.
  intros Hn. unfold DependsOn.
  rewrite !(bind_run _ _ _ _ _ (load_run _ _ _ Hn)).
  by rewrite String.eqb_refl.
Qed.

(** C9: for two distinct nodes [a] and [b] that carry the same name,
    [b.DependsOn(a)] returns the SelfDependency error, because the guard
    compares names; the heap is unchanged, so no edge is added and no
    counter moves. *)
Theorem DependsOn_same_name_rejected h a b na nb :
  a <> b -> h !! a = Some na -> h !! b = Some nb -> name na = name nb ->
  DependsOn b a h = Ok (Some SelfDependency) h.
Proof.
  intros _ Ha Hb Hnm. unfold DependsOn.
  rewrite (bind_run _ _ _ _ _ (load_run _ _ _ Ha)).
  rewrite (bind_run _ _ _ _ _ (load_run _ _ _ Hb)).
  by rewrite Hnm, String.eqb_refl.
Qed.

(** ** The graph of a heap *)

Lemma visited_at_insert V k k' :
  visited_at (<[k := true]> V) k' =
  if decide (k = k') then true else visited_at V k'.
Proof.
  unfold visited_at. destruct (decide (k = k')) as [->|Hne].
  - by rewrite lookup_insert_eq.
  - by rewrite lookup_insert_ne.
Qed.

Lemma visited_at_empty k : visited_at ∅ k = false.
Proof. unfold visited_at. by rewrite lookup_empty. Qed.

Lemma path_same_edges h1 h2 p q :
  (forall x y, edge h1 x y -> edge h2 x y) -> path h1 p q -> path h2 p q.
Proof. intros Hsub. by apply (tc_congruence id). Qed.

(** ** The invariant of the traversal *)

Section traversal_inv.
(** [h0] is the heap at the entry of the loop, [a] the failed node. *)
Variable h0 : heap.
Variable a : ptr.
Variable na : Node.
Hypothesis Ha : h0 !! a = Some na.
Hypothesis Huniq : unique_names h0.

(** A node of the current heap is the node of [h0] up to [blocked]. *)
Lemma ti_back V St h s nd :
  traversal_inv h0 a na V St h -> h !! s = Some nd ->
  exists n0 b, h0 !! s = Some n0 /\ nd = set_blocked b n0.
Proof.
  intros HI Hnd.
  assert (is_Some (h0 !! s)) as [n0 Hn0].
  { apply lookup_lt_is_Some. rewrite <- (ti_len _ _ _ _ _ _ HI).
    by eapply lookup_lt_Some. }
  destruct (ti_shape _ _ _ _ _ _ HI _ _ Hn0) as (b & Hb).
  exists n0, b. split; [done|]. congruence.
Qed.

Lemma traversal_inv_init :
  (forall d, d ∈ dependencyOf na -> is_Some (h0 !! d)) ->
  traversal_inv h0 a na (<[name na := true]> ∅) (dependencyOf na) h0.
Proof.
  intros Hval. split.
  - done.
  - intros p n0 Hp. exists (blocked n0). by rewrite set_blocked_same.
  - done.
  - by rewrite visited_at_insert, decide_True.
  - intros s Hs. apply tc_once. by exists na.
  - intros p n0 Hp Hv Hne. rewrite visited_at_insert, visited_at_empty in Hv.
    case_decide as Hnm; [|done]. destruct Hne. by eapply Huniq.
  - intros p n0 c Hp Hv Hc. rewrite visited_at_insert, visited_at_empty in Hv.
    case_decide as Hnm; [|done].
    assert (p = a) as -> by by eapply Huniq.
    replace n0 with na in * by congruence.
    destruct (Hval c Hc) as [nc Hnc]. exists nc. split; [done|by right].
  - done.
Qed.

Lemma traversal_inv_skip V St s h nd mn :
  traversal_inv h0 a na V (St ++ [s]) h -> h !! s = Some nd -> h !! a = Some mn ->
  name nd <> name mn -> visited_at V (name nd) = true ->
  traversal_inv h0 a na V St h.
Proof.
  intros HI Hnd _ _ Hv.
  destruct (ti_back _ _ _ _ _ HI Hnd) as (n0 & b & Hn0 & ->).
  destruct HI as [Hlen Hshape Horig Hseed Hstack Hexp Hclosed Hunt].
  split; try done.
  - intros s' Hs'. apply Hstack, elem_of_app. by left.
  - intros p np c Hp Hvp Hc.
    destruct (Hclosed p np c Hp Hvp Hc) as (nc & Hnc & [Hvc|Hin]).
    + exists nc. auto.
    + apply elem_of_app in Hin as [Hin|Hin%list_elem_of_singleton].
      * exists nc. auto.
      * subst c. replace nc with n0 in * by congruence. exists n0. auto.
Qed.

Lemma traversal_inv_expand V St s h nd mn :
  traversal_inv h0 a na V (St ++ [s]) h -> h !! s = Some nd -> h !! a = Some mn ->
  name nd <> name mn -> visited_at V (name nd) = false ->
  (forall d, d ∈ dependencyOf nd -> is_Some (h !! d)) ->
  traversal_inv h0 a na (<[name nd := true]> V)
    (St ++ filter (fun d => unvisited (<[name nd := true]> V)
                              (<[s := set_blocked true nd]> h) d = true)
                  (dependencyOf nd))
    (<[s := set_blocked true nd]> h).
Proof.
  intros HI Hnd Hmn Hne Hv Hval.
  destruct (ti_back _ _ _ _ _ HI Hnd) as (n0 & b & Hn0 & ->).
  assert (s < length h)%nat as Hslt by by eapply lookup_lt_Some.
  assert (mn = na) as -> by (pose proof (ti_origin _ _ _ _ _ _ HI); congruence).
  assert (s <> a) as Hsa by (intros ->; congruence).
  assert (path h0 a s) as Hpath.
  { apply (ti_stack _ _ _ _ _ _ HI), elem_of_app. right. by left. }
  cbn [name set_blocked dependencyOf] in *.
  destruct HI as [Hlen Hshape Horig Hseed Hstack Hexp Hclosed Hunt].
  split.
  - by rewrite length_insert.
  - intros p np Hp. destruct (decide (s = p)) as [<-|Hsp].
    + exists true. rewrite list_lookup_insert_eq by done.
      by replace np with n0 by congruence.
    + rewrite list_lookup_insert_ne by done. by apply Hshape.
  - by rewrite list_lookup_insert_ne.
  - rewrite visited_at_insert. by case_decide.
  - intros s' [Hs'|Hs']%elem_of_app.
    + apply Hstack, elem_of_app. by left.
    + apply list_elem_of_filter in Hs' as [_ Hs'].
      eapply tc_r; [done|]. by exists n0.
  - intros p np Hp Hvp Hpa. rewrite visited_at_insert in Hvp.
    destruct (decide (s = p)) as [<-|Hsp].
    + split; [done|]. eexists.
      by rewrite list_lookup_insert_eq.
    + rewrite list_lookup_insert_ne by done.
      case_decide as Hnm; [|by apply (Hexp p np)].
      destruct Hsp. by eapply Huniq.
  - intros p np c Hp Hvp Hc. rewrite visited_at_insert in Hvp.
    assert (forall nc, h0 !! c = Some nc ->
              visited_at (<[name n0 := true]> V) (name nc) = true \/
              unvisited (<[name n0 := true]> V)
                        (<[s := set_blocked true (set_blocked b n0)]> h) c
                = true) as Hdich.
    { intros nc Hnc. unfold unvisited.
      destruct (visited_at (<[name n0 := true]> V) (name nc)) eqn:Hvc;
        [by left|right].
      destruct (decide (s = c)) as [<-|Hsc].
      - rewrite list_lookup_insert_eq by done.
        replace nc with n0 in * by congruence.
        cbn [name set_blocked]. by rewrite Hvc.
      - rewrite list_lookup_insert_ne by done.
        destruct (Hshape _ _ Hnc) as (b' & ->).
        cbn [name set_blocked]. by rewrite Hvc. }
    destruct (decide (visited_at V (name np) = true)) as [Hold|Hnew].
    + destruct (Hclosed p np c Hp Hold Hc) as (nc & Hnc & [Hvc|Hin]).
      * exists nc. split; [done|left].
        rewrite visited_at_insert. by destruct (decide (name n0 = name nc)).
      * apply elem_of_app in Hin as [Hin|Hin%list_elem_of_singleton].
        -- exists nc. split; [done|right]. apply elem_of_app. by left.
        -- subst c. replace nc with n0 in * by congruence.
           exists n0. split; [done|left].
           by rewrite visited_at_insert, decide_True.
    + case_decide as Hnm; [|done].
      assert (s = p) as <- by by eapply Huniq.
      replace np with n0 in * by congruence.
      destruct (Hval c Hc) as [nc' Hnc'].
      assert (is_Some (h0 !! c)) as [nc Hnc].
      { apply lookup_lt_is_Some. rewrite <- Hlen.
        by eapply lookup_lt_Some. }
      exists nc. split; [done|].
      destruct (Hdich nc Hnc) as [?|Hun]; [by left|right].
      apply elem_of_app. right. by apply list_elem_of_filter.
  - intros p np Hp Hvp. rewrite visited_at_insert in Hvp.
    case_decide as Hnm; [done|].
    rewrite list_lookup_insert_ne by (intros <-; congruence).
    by apply Hunt.
Qed.

(** When the loop returns nil, the dependents of [a] are exactly the nodes
    that it has marked. *)
Lemma blockDependents_marks fuel h1 :
  (forall d, d ∈ dependencyOf na -> is_Some (h0 !! d)) ->
  blockDependents fuel a (<[name na := true]> ∅) (dependencyOf na) h0
    = Ok None h1 ->
  length h1 = length h0 /\
  h1 !! a = Some na /\
  (forall q, path h0 a q -> q <> a ->
     exists nq, h1 !! q = Some nq /\ blocked nq = true) /\
  (forall q nq, ~ path h0 a q -> h0 !! q = Some nq -> h1 !! q = Some nq).
Proof.
  intros Hval Hrun.
  destruct (blockDependents_rule a (traversal_inv h0 a na)
              traversal_inv_skip traversal_inv_expand
              fuel _ _ _ _ _ (traversal_inv_init Hval) Hrun)
    as [[_ [V HI]]|[[=] _]].
  assert (forall q, path h0 a q ->
            exists nq, h0 !! q = Some nq /\ visited_at V (name nq) = true)
    as Hreach.
  { unfold path.
    apply (tc_ind_r
             (fun q => exists nq, h0 !! q = Some nq /\
                                  visited_at V (name nq) = true)).
    - intros q (n & Hn & Hin). replace n with na in * by congruence.
      destruct (ti_closed _ _ _ _ _ _ HI a na q Ha (ti_seed _ _ _ _ _ _ HI) Hin)
        as (nq & Hnq & [Hv|Hnil]); [eauto|by apply elem_of_nil in Hnil].
    - intros y q Hy (n & Hn & Hin) (ny & Hny & Hvy).
      replace n with ny in * by congruence.
      destruct (ti_closed _ _ _ _ _ _ HI y ny q Hny Hvy Hin)
        as (nq & Hnq & [Hv|Hnil]); [eauto|by apply elem_of_nil in Hnil]. }
  split_and!.
  - apply (ti_len _ _ _ _ _ _ HI).
  - apply (ti_origin _ _ _ _ _ _ HI).
  - intros q Hq Hqa. destruct (Hreach q Hq) as (nq & Hnq & Hv).
    by destruct (ti_expanded _ _ _ _ _ _ HI q nq Hnq Hv Hqa).
  - intros q nq Hnp Hq. destruct (decide (q = a)) as [->|Hqa].
    + replace nq with na by congruence. apply (ti_origin _ _ _ _ _ _ HI).
    + destruct (visited_at V (name nq)) eqn:Hv.
      * by destruct (ti_expanded _ _ _ _ _ _ HI q nq Hq Hv Hqa).
      * by apply (ti_untouched _ _ _ _ _ _ HI).
Qed.

End traversal_inv.

(** ** Failure propagation *)

(** The heap [h0] at the entry of the traversal has the names, the edges
    and the blocked flags of the heap [h] of the call. *)
Lemma entry_heap_same_graph m n h h0 :
  h !! m = Some n -> length h0 = length h ->
  h0 !! m = Some (set_status (Some true) (set_locked true n)) ->
  (forall p np, p <> m -> h !! p = Some np ->
     h0 !! p = Some (resolved_node m true (dependencyOf n) p np)) ->
  forall p,
    (forall np, h !! p = Some np ->
       exists np0, h0 !! p = Some np0 /\ name np0 = name np /\
         dependencyOf np0 = dependencyOf np /\ blocked np0 = blocked np) /\
    (forall np0, h0 !! p = Some np0 ->
       exists np, h !! p = Some np /\ name np0 = name np /\
         dependencyOf np0 = dependencyOf np /\ blocked np0 = blocked np).
Proof.
  intros Hn Hlen H0m H0 p.
  assert (forall np, h !! p = Some np ->
       exists np0, h0 !! p = Some np0 /\ name np0 = name np /\
         dependencyOf np0 = dependencyOf np /\ blocked np0 = blocked np) as Hfw.
  { intros np Hp. destruct (decide (p = m)) as [->|Hne].
    - replace np with n by congruence. eexists. split; [done|]. done.
    - eexists. split; [by apply H0|].
      by rewrite resolved_node_name, resolved_node_dependencyOf,
        resolved_node_blocked. }
  split; [done|]. intros np0 Hp0.
  assert (is_Some (h !! p)) as [np Hp].
  { apply lookup_lt_is_Some. rewrite <- Hlen. by eapply lookup_lt_Some. }
  destruct (Hfw np Hp) as (np0' & Hp0' & ?).
  exists np. by replace np0 with np0' by congruence.
Qed.

(** C2: on an acyclic graph of nodes, whose names are unique as the data
    model requires, after a call [a.Fail()] that returns nil every node
    reached from [a] by one or more dependencyOf edges is blocked, and
    every node with no such path from [a] has the blocked flag that it had
    before the call. *)
Theorem Fail_blocks_transitive_dependents fuel h a h' :
  unique_names h -> acyclic h -> Fail fuel a h = Ok None h' ->
  (forall q, path h a q ->
     exists nq, h' !! q = Some nq /\ blocked nq = true) /\
  (forall q nq, ~ path h a q -> h !! q = Some nq ->
     exists nq', h' !! q = Some nq' /\ blocked nq' = blocked nq).
Proof.
  intros Huniq Hacyc (n & Hn & Hl & Hcase)%Fail_Ok.
  destruct (status n) eqn:Hst; [by destruct Hcase|].
  destruct Hcase as (Hnotin & Hval & h0 & h1 & n1 & Hlen & H0m & H0 & Hloop
                     & Hn1 & Hl1 & ->).
  pose proof (entry_heap_same_graph _ _ _ _ Hn Hlen H0m H0) as Hsame.
  assert (unique_names h0) as Huniq0.
  { intros p q np nq Hp Hq Hnm.
    destruct (proj2 (Hsame p) _ Hp) as (np' & Hp' & Hnp' & _).
    destruct (proj2 (Hsame q) _ Hq) as (nq' & Hq' & Hnq' & _).
    eapply Huniq; [done..|congruence]. }
  assert (forall x y, edge h x y <-> edge h0 x y) as Hedge.
  { intros x y. split; intros (nx & Hx & Hin).
    - destruct (proj1 (Hsame x) _ Hx) as (nx0 & Hx0 & _ & Hd & _).
      exists nx0. split; [done|]. by rewrite Hd.
    - destruct (proj2 (Hsame x) _ Hx) as (nx' & Hx' & _ & Hd & _).
      exists nx'. split; [done|]. by rewrite <- Hd. }
  assert (forall q, path h a q <-> path h0 a q) as Hpath.
  { intros q. split; apply path_same_edges; intros x y; apply Hedge. }
  destruct (blockDependents_marks h0 a _ H0m Huniq0 fuel h1)
    as (Hlen1 & H1a & Hmarked & Hrest); [|done|].
  { intros d Hd. apply lookup_lt_is_Some. rewrite Hlen.
    by apply lookup_lt_is_Some, Hval. }
  split.
  - intros q Hq. assert (q <> a) as Hqa by (intros ->; by eapply Hacyc).
    rewrite list_lookup_insert_ne by done.
    by apply Hmarked; [apply Hpath|].
  - intros q nq Hnq Hq. destruct (decide (q = a)) as [->|Hqa].
    + rewrite list_lookup_insert_eq by
        (rewrite Hlen1, Hlen; by eapply lookup_lt_Some).
      eexists. split; [done|].
      replace n1 with (set_status (Some true) (set_locked true n))
        by congruence.
      by replace nq with n by congruence.
    + rewrite list_lookup_insert_ne by done.
      destruct (proj1 (Hsame q) _ Hq) as (nq0 & Hq0 & _ & _ & Hbl).
      exists nq0. split; [|done]. apply Hrest; [|done].
      by rewrite <- Hpath.
Qed.

(** ** Termination of the traversal *)

Lemma total_le_graph_size V h : (total V h <= graph_size h)%nat.
Proof.
  unfold total, graph_size. induction h as [|n h IH]; simpl; [done|].
  unfold weight at 1. destruct (visited_at V (name n)); lia.
Qed.

Lemma total_ext V V' (h h' : heap) :
  length h' = length h ->
  (forall p n, h !! p = Some n ->
     exists n', h' !! p = Some n' /\ (weight V' n' <= weight V n)%nat) ->
  (total V' h' <= total V h)%nat.
Proof.
  unfold total. revert h'.
  induction h as [|n h IH]; intros [|n' h'] Hlen Hpt; simpl in *; try done.
  destruct (Hpt 0%nat n eq_refl) as (n'' & [= <-] & Hle).
  assert (sum_list_with (weight V') h' <= sum_list_with (weight V) h)%nat.
  { apply IH; [lia|]. intros p np Hp. by apply (Hpt (S p)). }
  lia.
Qed.

Lemma graph_size_ext (h h' : heap) :
  length h' = length h ->
  (forall p n, h !! p = Some n ->
     exists n', h' !! p = Some n' /\ dependencyOf n' = dependencyOf n) ->
  graph_size h' = graph_size h.
Proof.
  unfold graph_size. revert h'.
  induction h as [|n h IH]; intros [|n' h'] Hlen Hpt; simpl in *; try done.
  destruct (Hpt 0%nat n eq_refl) as (n'' & [= <-] & ->).
  f_equal. f_equal. apply IH; [lia|].
  intros p np Hp. by apply (Hpt (S p)).
Qed.

(** Expanding a node pays for its pushes. *)
Lemma total_visit V (h : heap) s nd :
  h !! s = Some nd -> visited_at V (name nd) = false ->
  (total (<[name nd := true]> V) (<[s := set_blocked true nd]> h)
   + S (length (dependencyOf nd)) <= total V h)%nat.
Proof.
  intros Hs Hv.
  assert (forall n, weight (<[name nd := true]> V) n <= weight V n)%nat as Hmono.
  { intros n. unfold weight. rewrite visited_at_insert.
    case_decide; destruct (visited_at V (name n)); lia. }
  unfold total. revert s Hs.
  induction h as [|x h IH]; intros [|s] Hs; simpl in *; try done.
  - simplify_eq. unfold weight at 1 3. cbn [name set_blocked dependencyOf].
    rewrite visited_at_insert, decide_True, Hv by done.
    pose proof (total_ext V (<[name nd := true]> V) h h eq_refl) as Hle.
    unfold total in Hle.
    assert (sum_list_with (weight (<[name nd:=true]> V)) h
            <= sum_list_with (weight V) h)%nat; [|lia].
    apply Hle. intros p n Hp. eauto.
  - specialize (IH s Hs). specialize (Hmono x). lia.
Qed.

Lemma closed_set_blocked h s nd b :
  closed h -> h !! s = Some nd -> closed (<[s := set_blocked b nd]> h).
Proof.
  intros Hcl Hs p n d Hp Hd. apply list_lookup_insert_is_Some.
  destruct (decide (s = p)) as [<-|Hne].
  - rewrite list_lookup_insert_eq in Hp by by eapply lookup_lt_Some.
    simplify_eq. by eapply Hcl.
  - rewrite list_lookup_insert_ne in Hp by done. by eapply Hcl.
Qed.

(** With more fuel than the stack and the unvisited nodes can cost, the
    loop does not run out of fuel; on a closed heap it returns. *)
Lemma blockDependents_total a fuel : forall V St h,
  (length St + total V h < fuel)%nat ->
  blockDependents fuel a V St h <> Fault OutOfFuel /\
  (closed h -> (forall s, s ∈ St -> is_Some (h !! s)) -> is_Some (h !! a) ->
   exists e h', blockDependents fuel a V St h = Ok e h').
Proof.
  induction fuel as [|fuel IH]; intros V St h Hfuel; [lia|].
  destruct (stack_cases St) as [->|(St' & s & ->)].
  { rewrite blockDependents_nil. split; [done|eauto]. }
  rewrite blockDependents_snoc. rewrite length_app in Hfuel. simpl in Hfuel.
  destruct (h !! s) as [nd|] eqn:Hs.
  2:{ rewrite (bind_fault _ _ _ _ (load_fault _ _ Hs)).
      split; [done|]. intros _ Hval _.
      destruct (Hval s) as [? ?]; [apply elem_of_app; right; by left|].
      congruence. }
  rewrite (bind_run _ _ _ _ _ (load_run _ _ _ Hs)).
  destruct (h !! a) as [mn|] eqn:Hma.
  2:{ rewrite (bind_fault _ _ _ _ (load_fault _ _ Hma)).
      split; [done|]. by intros _ _ [? ?]. }
  rewrite (bind_run _ _ _ _ _ (load_run _ _ _ Hma)).
  destruct (String.eqb (name nd) (name mn)).
  { split; [done|]. intros. by eexists _, _. }
  destruct (visited_at V (name nd)) eqn:Hv; simpl.
  { destruct (IH V St' h) as [Hno Hret]; [lia|]. split; [done|].
    intros Hcl Hval Ha. apply Hret; [done| |done].
    intros s' Hs'. apply Hval, elem_of_app. by left. }
  erewrite (bind_run _ _ _ tt) by (apply update_Ok; eauto).
  erewrite bind_run by
    (apply load_run, list_lookup_insert_eq; by eapply lookup_lt_Some).
  cbn [dependencyOf set_blocked].
  pose proof (total_visit V h s nd Hs Hv) as Hpay.
  set (V' := <[name nd := true]> V) in *.
  set (h2 := <[s := set_blocked true nd]> h) in *.
  destruct (pushUnvisited V' (dependencyOf nd) St' h2) as [St2 h3|f] eqn:Hpush.
  - rewrite (bind_run _ _ _ _ _ Hpush).
    apply pushUnvisited_Ok in Hpush as (-> & Hval2 & ->).
    assert (length (filter (fun d => unvisited V' h2 d = true) (dependencyOf nd))
            <= length (dependencyOf nd))%nat as Hflt by apply length_filter.
    destruct (IH V' (St' ++ filter (fun d => unvisited V' h2 d = true)
                                   (dependencyOf nd)) h2) as [Hno Hret].
    { rewrite length_app. lia. }
    split; [done|]. intros Hcl Hval Ha. apply Hret.
    + by apply closed_set_blocked.
    + intros s' [Hs'|Hs']%elem_of_app.
      * apply list_lookup_insert_is_Some, Hval, elem_of_app. by left.
      * apply list_elem_of_filter in Hs' as [_ Hs']. by apply Hval2.
    + by apply list_lookup_insert_is_Some.
  - rewrite (bind_fault _ _ _ _ Hpush).
    assert (f = NilDeref) as ->.
    { clear -Hpush. revert St' Hpush.
      induction (dependencyOf nd) as [|d ds IHd]; intros St' Hpush;
        simpl in Hpush; [done|].
      unfold bind, load in Hpush. destruct (h2 !! d); [|congruence].
      destruct (negb _); eauto. }
    split; [done|]. intros Hcl Hval Ha. exfalso.
    assert (exists St2, pushUnvisited V' (dependencyOf nd) St' h2 = Ok St2 h2)
      as [St2 HSt2]; [|congruence].
    eexists. apply pushUnvisited_Ok. split_and!; [done| |done].
    intros d Hd. unfold h2. apply list_lookup_insert_is_Some.
    by apply (Hcl s nd).
Qed.

(** More fuel does not change a result. *)
Lemma blockDependents_fuel_mono a fuel : forall fuel' V St h e h',
  blockDependents fuel a V St h = Ok e h' -> (fuel <= fuel')%nat ->
  blockDependents fuel' a V St h = Ok e h'.
Proof.
  induction fuel as [|fuel IH]; intros fuel' V St h e h' Hrun Hle; [done|].
  destruct fuel' as [|fuel']; [lia|].
  destruct (stack_cases St) as [->|(St' & s & ->)]; [done|].
  rewrite blockDependents_snoc in *.
  unfold bind, load in *.
  destruct (h !! s) as [nd|]; [|done].
  destruct (h !! a) as [mn|]; [|done].
  destruct (String.eqb (name nd) (name mn)); [done|].
  destruct (negb (visited_at V (name nd))).
  - destruct (update s (set_blocked true) h) as [u h2|]; [|done].
    destruct (h2 !! s) as [nd'|]; [|done].
    destruct (pushUnvisited _ _ _ h2) as [St2 h3|]; [|done].
    apply IH; [done|lia].
  - apply IH; [done|lia].
Qed.

(** ** Termination of Fail *)

Lemma fuel_free_bind {A B} (c : M A) (k : A -> M B) :
  fuel_free c -> (forall a, fuel_free (k a)) -> fuel_free (bind c k).
Proof.
  intros Hc Hk h. unfold bind. specialize (Hc h).
  destruct (c h) as [a h1|f]; [apply Hk|congruence].
Qed.

Lemma fuel_free_load p : fuel_free (load p).
Proof. intros h. unfold load. by destruct (h !! p). Qed.

Lemma fuel_free_update p f : fuel_free (update p f).
Proof. intros h. unfold update. by destruct (h !! p). Qed.

Lemma fuel_free_Lock p : fuel_free (Lock p).
Proof.
  apply fuel_free_bind; [apply fuel_free_load|]. intros n.
  destruct (locked n); [done|apply fuel_free_update].
Qed.

Lemma fuel_free_Unlock p : fuel_free (Unlock p).
Proof.
  apply fuel_free_bind; [apply fuel_free_load|]. intros n.
  destruct (locked n); [apply fuel_free_update|done].
Qed.

Lemma fuel_free_decrement d : fuel_free (decrement d).
Proof.
  unfold decrement.
  apply fuel_free_bind; [apply fuel_free_Lock|intros _].
  apply fuel_free_bind; [apply fuel_free_update|intros _].
  apply fuel_free_Unlock.
Qed.

Lemma fuel_free_forEach_decrement ds : fuel_free (forEach ds decrement).
Proof.
  induction ds as [|d ds IH]; simpl; [done|].
  apply fuel_free_bind; [apply fuel_free_decrement|done].
Qed.

(** The decrement loop returns when its nodes exist and their mutexes
    are free. *)
Lemma forEach_decrement_run ds : forall h,
  (forall d, d ∈ ds -> exists n, h !! d = Some n /\ locked n = false) ->
  exists h', forEach ds decrement h = Ok tt h'.
Proof.
  induction ds as [|d ds IH]; intros h Hfree; simpl; [by eexists|].
  destruct (Hfree d) as (n & Hn & Hl); [by left|].
  erewrite (bind_run _ _ _ tt) by (apply decrement_Ok; eauto).
  apply IH. intros d' Hd'. destruct (Hfree d') as (n' & Hn' & Hl'); [by right|].
  destruct (decide (d = d')) as [<-|Hne].
  - exists (dec1 n). split; [|by replace n' with n in * by congruence].
    apply list_lookup_insert_eq. by eapply lookup_lt_Some.
  - exists n'. by rewrite list_lookup_insert_ne.
Qed.

(** A call of [Fail] on an unresolved node whose mutex is free, up to the
    decrement loop. *)
Lemma Fail_start fuel m h n :
  h !! m = Some n -> locked n = false -> status n = None ->
  Fail fuel m h =
  (forEach (dependencyOf n) decrement ;;
   n <- load m ;;
   let nodes := fold_left Push (dependencyOf n) New in
   n <- load m ;;
   let visited : gmap string bool := <[name n := true]> ∅ in
   e <- blockDependents fuel m visited nodes ;;
   Unlock m ;; ret e)
    (<[m := set_status (Some true) (set_locked true n)]> h).
Proof.
  intros Hn Hl Hs.
  assert (m < length h)%nat as Hm by by eapply lookup_lt_Some.
  unfold Fail.
  erewrite bind_run by by apply Lock_run.
  erewrite bind_run by by apply load_run, list_lookup_insert_eq.
  cbn [status set_locked]. rewrite Hs.
  erewrite (bind_run _ _ _ tt).
  2:{ apply update_Ok. eexists. split; [by apply list_lookup_insert_eq|done]. }
  rewrite list_insert_insert_eq.
  erewrite bind_run by by apply load_run, list_lookup_insert_eq.
  done.
Qed.

(** The same call, up to the traversal. *)
Lemma Fail_traversal fuel m h n h0 :
  h !! m = Some n -> locked n = false -> status n = None ->
  forEach (dependencyOf n) decrement
    (<[m := set_status (Some true) (set_locked true n)]> h) = Ok tt h0 ->
  h0 !! m = Some (set_status (Some true) (set_locked true n)) /\
  Fail fuel m h =
    (e <- blockDependents fuel m (<[name n := true]> ∅) (dependencyOf n) ;;
     Unlock m ;; ret e) h0.
Proof.
  intros Hn Hl Hs Hdec.
  assert (m < length h)%nat as Hm by by eapply lookup_lt_Some.
  assert (h0 !! m = Some (set_status (Some true) (set_locked true n)))
    as H0m.
  { pose proof Hdec as (_ & Hcnt & Hfree)%forEach_decrement_Ok.
    assert (m ∉ dependencyOf n) as Hnotin.
    { intros Hin. destruct (Hfree m Hin) as (n' & Hn' & Hl').
      rewrite list_lookup_insert_eq in Hn' by done. by simplify_eq. }
    erewrite Hcnt by by apply list_lookup_insert_eq.
    by rewrite count_occ_notin, decN_0. }
  split; [done|].
  rewrite (Fail_start _ _ _ _ Hn Hl Hs), (bind_run _ _ _ _ _ Hdec).
  rewrite !(bind_run _ _ _ _ _ (load_run _ _ _ H0m)).
  cbn [dependencyOf name set_status set_locked].
  by rewrite fold_left_Push.
Qed.

Lemma Fail_prefix_cases fuel m h : Fail_prefix fuel m h.
Proof.
  destruct (h !! m) as [n|] eqn:Hn.
  2:{ apply (prefix_fault _ _ _ NilDeref); [done|]. unfold Fail, Lock.
      by apply bind_fault, bind_fault, load_fault. }
  destruct (locked n) eqn:Hl.
  { apply (prefix_fault _ _ _ Deadlock); [done|]. unfold Fail.
    apply bind_fault. unfold Lock.
    rewrite (bind_run _ _ _ _ _ (load_run _ _ _ Hn)). by rewrite Hl. }
  destruct (status n) as [s|] eqn:Hs.
  { apply prefix_resolved. unfold Fail. by eapply already_resolved_run. }
  destruct (forEach (dependencyOf n) decrement
              (<[m := set_status (Some true) (set_locked true n)]> h))
    as [[] h0|f] eqn:Hdec.
  - apply (prefix_traversal _ _ _ n h0); [done..|].
    by apply Fail_traversal.
  - apply (prefix_fault _ _ _ f).
    + intros ->. by apply fuel_free_forEach_decrement in Hdec.
    + rewrite (Fail_start _ _ _ _ Hn Hl Hs). by apply bind_fault.
Qed.

(** The traversal starts with less to do than twice the size of the
    graph. *)
Lemma entry_measure m n (h h0 : heap) V :
  h !! m = Some n ->
  forEach (dependencyOf n) decrement
    (<[m := set_status (Some true) (set_locked true n)]> h) = Ok tt h0 ->
  (length (dependencyOf n) + total V h0 < S (2 * graph_size h))%nat.
Proof.
  intros Hn (Hlen & Hcnt & _)%forEach_decrement_Ok.
  assert (m < length h)%nat as Hm by by eapply lookup_lt_Some.
  rewrite length_insert in Hlen.
  assert (graph_size h0 = graph_size h) as Hsize.
  { apply graph_size_ext; [done|]. intros p np Hp.
    destruct (decide (m = p)) as [<-|Hne].
    - eexists. split; [by apply Hcnt, list_lookup_insert_eq|].
      by replace np with n by congruence.
    - eexists. split; [apply Hcnt; by rewrite list_lookup_insert_ne|done]. }
  pose proof (total_le_graph_size V h0).
  assert (S (length (dependencyOf n)) <= graph_size h)%nat; [|lia].
  unfold graph_size.
  apply (sum_list_with_in n (fun n => S (length (dependencyOf n)))).
  by eapply list_elem_of_lookup_2.
Qed.

(** More iterations than twice the count of nodes and edges are never
    used up. *)
Lemma Fail_fuel_suffices h m fuel :
  (2 * graph_size h < fuel)%nat -> Fail fuel m h <> Fault OutOfFuel.
Proof.
  intros Hfuel.
  destruct (Fail_prefix_cases fuel m h) as [f Hf ->| ->|n h0 Hn Hdec ->];
    [congruence|done|].
  pose proof (entry_measure m n h h0 (<[name n := true]> ∅) Hn Hdec).
  destruct (blockDependents_total m fuel (<[name n := true]> ∅)
              (dependencyOf n) h0) as [Hno _]; [lia|].
  unfold bind at 1.
  destruct (blockDependents _ _ _ _ _) as [e h1|f]; [|done].
  apply fuel_free_bind; [apply fuel_free_Unlock|done].
Qed.

(** On a closed heap with free mutexes, and for a node that is not its own
    direct dependent, [Fail] returns, and its result is the same for every
    sufficient bound on the iterations. *)
Lemma Fail_returns h m n :
  h !! m = Some n -> closed h -> quiescent h -> m ∉ dependencyOf n ->
  exists e h', forall fuel, (2 * graph_size h < fuel)%nat ->
    Fail fuel m h = Ok e h'.
Proof.
  intros Hn Hcl Hq Hnotin.
  assert (m < length h)%nat as Hm by by eapply lookup_lt_Some.
  pose proof (Hq _ _ Hn) as Hl.
  destruct (status n) as [s|] eqn:Hs.
  { exists (Some AlreadyResolved), h. intros fuel _. unfold Fail.
    by eapply already_resolved_run. }
  destruct (forEach_decrement_run (dependencyOf n)
              (<[m := set_status (Some true) (set_locked true n)]> h))
    as [h0 Hdec].
  { intros d Hd. assert (m <> d) as Hne by (by intros ->).
    destruct (Hcl _ _ _ Hn Hd) as [nd Hnd]. exists nd.
    rewrite list_lookup_insert_ne by done. eauto. }
  pose proof (entry_measure m n h h0 (<[name n := true]> ∅) Hn Hdec)
    as Hmeasure.
  pose proof Hdec as (Hlen0 & Hcnt & _)%forEach_decrement_Ok.
  rewrite length_insert in Hlen0.
  assert (closed h0) as Hcl0.
  { intros p np d Hp Hd. apply lookup_lt_is_Some. rewrite Hlen0.
    assert (is_Some (h !! p)) as [np' Hp'].
    { apply lookup_lt_is_Some. rewrite <- Hlen0.
      by eapply lookup_lt_Some. }
    apply lookup_lt_is_Some. apply (Hcl p np'); [done|].
    destruct (decide (m = p)) as [<-|Hne].
    - erewrite Hcnt in Hp by by apply list_lookup_insert_eq.
      replace np' with n in * by congruence. by simplify_eq.
    - erewrite Hcnt in Hp by by rewrite list_lookup_insert_ne.
      by simplify_eq. }
  destruct (blockDependents_total m (S (2 * graph_size h))
              (<[name n := true]> ∅) (dependencyOf n) h0)
    as [_ (e & h1 & Hloop)]; [lia|done| |by apply lookup_lt_is_Some; lia|].
  { intros d Hd. apply lookup_lt_is_Some. rewrite Hlen0.
    by apply lookup_lt_is_Some, (Hcl m n). }
  destruct (Fail_traversal 0 m h n h0 Hn Hl Hs Hdec) as [H0m _].
  destruct (blockDependents_blocked_only _ _ _ _ _ _ _ Hloop)
    as [Hlen1 Hfr].
  destruct (Hfr _ _ H0m) as (b & H1m & _).
  eexists e, _. intros fuel Hfuel.
  destruct (Fail_traversal fuel m h n h0 Hn Hl Hs Hdec) as [_ ->].
  erewrite bind_run by (eapply blockDependents_fuel_mono; [done|lia]).
  erewrite (bind_run _ _ _ tt); [done|].
  apply Unlock_Ok. eexists. split_and!; [done..|].
  reflexivity.
Qed.

(** ** Step *)

Lemma readyDependents_run ds : forall depth h,
  (forall d, d ∈ ds -> is_Some (h !! d)) ->
  readyDependents ds depth h =
  Ok (depth ++ filter (fun d => ready h d = true) ds) h.
Proof.
  induction ds as [|d ds IH]; intros depth h Hval; simpl.
  - by rewrite app_nil_r.
  - destruct (Hval d) as [n Hn]; [by left|].
    rewrite (bind_run _ _ _ _ _ (load_run _ _ _ Hn)).
    assert (ready h d = negb (blocked n) && (depsRemaining n =? 0)) as Hr
      by (unfold ready; by rewrite Hn).
    destruct (negb (blocked n) && (depsRemaining n =? 0)) eqn:Hc.
    + rewrite IH by (intros d' Hd'; apply Hval; by right).
      rewrite filter_cons_True by done. by rewrite <- app_assoc.
    + rewrite IH by (intros d' Hd'; apply Hval; by right).
      rewrite filter_cons_False by by rewrite Hr. done.
Qed.

Lemma StepFrom_resolved nodes : forall depth h,
  closed h ->
  (forall p, p ∈ nodes -> exists n, h !! p = Some n /\ status n <> None) ->
  StepFrom nodes depth h = Ok (depth ++ next_frontier h nodes, None) h.
Proof.
  induction nodes as [|p nodes IH]; intros depth h Hcl Hres; simpl.
  - by rewrite app_nil_r.
  - destruct (Hres p) as (n & Hn & Hst); [by left|].
    rewrite (bind_run _ _ _ _ _ (load_run _ _ _ Hn)).
    destruct (status n) as [s|]; [|done].
    rewrite (bind_run _ _ _ _ _
               (readyDependents_run _ _ _ (fun d Hd => Hcl _ _ _ Hn Hd))).
    rewrite IH by (try done; intros p' Hp'; apply Hres; by right).
    unfold next_frontier. cbn [flat_map]. unfold dependents at 2.
    rewrite Hn. by rewrite <- app_assoc.
Qed.

Lemma StepFrom_unresolved nodes : forall depth h,
  closed h ->
  (forall p, p ∈ nodes -> is_Some (h !! p)) ->
  (exists p n, p ∈ nodes /\ h !! p = Some n /\ status n = None) ->
  exists p n, p ∈ nodes /\ h !! p = Some n /\ status n = None /\
    StepFrom nodes depth h = Ok ([], Some (NotResolved (name n))) h.
Proof.
  induction nodes as [|p nodes IH]; intros depth h Hcl Hval Hun.
  - destruct Hun as (p & n & Hp & _). by apply elem_of_nil in Hp.
  - simpl. destruct (Hval p) as [n Hn]; [by left|].
    rewrite (bind_run _ _ _ _ _ (load_run _ _ _ Hn)).
    destruct (status n) as [s|] eqn:Hst.
    + rewrite (bind_run _ _ _ _ _
               (readyDependents_run _ _ _ (fun d Hd => Hcl _ _ _ Hn Hd))).
      destruct (IH (depth ++ filter (fun d => ready h d = true) (dependencyOf n))
                  h Hcl) as (p' & n' & Hp' & Hn' & Hst' & Hrun).
      * intros p' Hp'. apply Hval. by right.
      * destruct Hun as (p' & n' & [->|Hp']%elem_of_cons & Hn' & Hst');
          [congruence|eauto].
      * exists p', n'. split_and!; [by right|done..].
    + exists p, n. split_and!; [by left|done..].
Qed.

(** Occurrences in the frontier: one per edge from an input node. *)
Lemma count_occ_filter_ready h d (l : list ptr) :
  count_occ Nat.eq_dec (filter (fun d => ready h d = true) l) d =
  if ready h d then count_occ Nat.eq_dec l d else 0%nat.
Proof.
  induction l as [|x l IH]; simpl; [by destruct (ready h d)|].
  destruct (decide (ready h x = true)) as [Hx|Hx].
  - rewrite filter_cons_True by done. simpl.
    destruct (Nat.eq_dec x d) as [->|Hne]; rewrite IH.
    + by rewrite Hx.
    + done.
  - rewrite filter_cons_False by done. rewrite IH.
    destruct (Nat.eq_dec x d) as [->|Hne]; [|done].
    by destruct (ready h d).
Qed.

Lemma count_occ_NoDup (l : list ptr) d :
  NoDup l -> count_occ Nat.eq_dec l d = if decide (d ∈ l) then 1%nat else 0%nat.
Proof.
  induction 1 as [|x l Hx Hnd IH]; cbn [count_occ].
  - rewrite decide_False; [done|]. by intros ?%elem_of_nil.
  - destruct (Nat.eq_dec x d) as [->|Hne].
    + rewrite IH, (decide_False (P := d ∈ l)) by done.
      rewrite decide_True; [done|by left].
    + rewrite IH. destruct (decide (d ∈ l)) as [Hd|Hd].
      * rewrite decide_True; [done|by right].
      * rewrite decide_False; [done|].
        intros [->|?]%elem_of_cons; done.
Qed.

Lemma count_occ_next_frontier h nodes d :
  (forall p, p ∈ nodes -> NoDup (dependents h p)) ->
  count_occ Nat.eq_dec (next_frontier h nodes) d =
  if ready h d
  then length (filter (fun p => d ∈ dependents h p) nodes)
  else 0%nat.
Proof.
  unfold next_frontier. induction nodes as [|p nodes IH]; intros Hnd; simpl.
  - by destruct (ready h d).
  - rewrite count_occ_app, count_occ_filter_ready, IH
      by (intros p' Hp'; apply Hnd; by right).
    destruct (ready h d); [|done].
    rewrite count_occ_NoDup by (apply Hnd; by left).
    destruct (decide (d ∈ dependents h p)) as [Hd|Hd].
    + by rewrite filter_cons_True.
    + by rewrite filter_cons_False.
Qed.

(** X20: on a heap whose edges lead to nodes, [Step] returns the
    NotResolved error (and no node) as soon as one input node has no
    status; when all input nodes have a status it returns, in order and
    without removing repetitions, the direct dependents of the input nodes
    that are not blocked and have [depsRemaining = 0]; with edge lists
    free of repetitions, a ready dependent occurs once for each input node
    it depends on. *)
Theorem Step_next_frontier h nodes :
  closed h -> (forall p, p ∈ nodes -> is_Some (h !! p)) ->
  ((exists p n, p ∈ nodes /\ h !! p = Some n /\ status n = None) ->
   exists p n, p ∈ nodes /\ h !! p = Some n /\ status n = None /\
     Step nodes h = Ok ([], Some (NotResolved (name n))) h) /\
  ((forall p n, p ∈ nodes -> h !! p = Some n -> status n <> None) ->
   Step nodes h = Ok (next_frontier h nodes, None) h /\
   (forall d, d ∈ next_frontier h nodes <->
      ready h d = true /\ exists p, p ∈ nodes /\ d ∈ dependents h p) /\
   ((forall p, p ∈ nodes -> NoDup (dependents h p)) ->
    forall d, count_occ Nat.eq_dec (next_frontier h nodes) d =
      if ready h d
      then length (filter (fun p => d ∈ dependents h p) nodes)
      else 0%nat)).
Proof.
  intros Hcl Hval. split.
  - intros Hun. by apply StepFrom_unresolved.
  - intros Hres. split_and!.
    + unfold Step. rewrite StepFrom_resolved; [done..|].
      intros p Hp. destruct (Hval p Hp) as [n Hn]. exists n.
      split; [done|]. by eapply Hres.
    + intros d. unfold next_frontier.
      rewrite list_elem_of_In, in_flat_map. split.
      * intros (p & Hp & Hd). rewrite <- list_elem_of_In in Hp, Hd.
        apply list_elem_of_filter in Hd as [Hr Hd]. eauto.
      * intros (Hr & p & Hp & Hd). exists p.
        rewrite <- !list_elem_of_In. split; [done|].
        by apply list_elem_of_filter.
    + intros Hnd d. by apply count_occ_next_frontier.
Qed.

(** ** Construction *)

(** C7, as the code has it: [NewModule] rejects the empty name with the
    EmptyName error and [NewJob] rejects it with its own error before it
    calls [NewNode]; [NewNode] itself has no error result and allocates a
    node for every name, the empty one included; a name that is not empty
    is accepted by all three, and the new node is unresolved, unblocked
    and has no edges. *)
Theorem construction h nm :
  NewNode nm h = Ok (length h) (h ++ [fresh_node nm]) /\
  NewModule "" h = Ok (None, Some EmptyName) h /\
  (forall J (j : J), NewJob j "" h = Ok (None, Some EmptyJobName) h) /\
  (nm <> "" ->
   NewModule nm h = Ok (Some (length h), None) (h ++ [fresh_node nm]) /\
   forall J (j : J),
     NewJob j nm h = Ok (Some (mkJob j (length h)), None)
                        (h ++ [fresh_node nm])) /\
  (h ++ [fresh_node nm]) !! length h = Some (fresh_node nm) /\
  status (fresh_node nm) = None /\ blocked (fresh_node nm) = false /\
  dependencyOf (fresh_node nm) = [] /\ depsRemaining (fresh_node nm) = 0 /\
  hasDependencies (fresh_node nm) = false.
Proof.
  split_and!; try done.
  - intros Hne. apply String.eqb_neq in Hne.
    unfold NewModule, NewJob. rewrite Hne. done.
  - by rewrite lookup_app_r, Nat.sub_diag.
Qed.

(** The empty name is accepted by [NewNode]: no error, and a node named
    by the empty string in the heap. *)
Lemma NewNode_accepts_empty_name :
  NewNode "" [] = Ok 0%nat [fresh_node ""] /\
  name (fresh_node "") = "".
Proof. done. Qed.

(** ** Heaps that the API builds *)

(** Calls that keep names, edges and mutexes keep well-formedness. *)
Lemma well_formed_same_skeleton h h' :
  length h' = length h ->
  (forall p np, h !! p = Some np ->
     exists np', h' !! p = Some np' /\ name np' = name np /\
       dependencyOf np' = dependencyOf np /\ locked np' = locked np) ->
  well_formed h -> well_formed h'.
Proof.
  intros Hlen Hpt [Hcl Hq Hnm].
  assert (forall p np', h' !! p = Some np' ->
     exists np, h !! p = Some np /\ name np' = name np /\
       dependencyOf np' = dependencyOf np /\ locked np' = locked np) as Hback.
  { intros p np' Hp'. assert (is_Some (h !! p)) as [np Hp].
    { apply lookup_lt_is_Some. rewrite <- Hlen. by eapply lookup_lt_Some. }
    destruct (Hpt p np Hp) as (np'' & Hp'' & ?).
    exists np. by replace np' with np'' by congruence. }
  split.
  - intros p n' d Hp' Hd. destruct (Hback _ _ Hp') as (n & Hp & _ & Hdeps & _).
    apply lookup_lt_is_Some. rewrite Hlen. apply lookup_lt_is_Some.
    apply (Hcl p n); [done|]. by rewrite <- Hdeps.
  - intros p n' Hp'. destruct (Hback _ _ Hp') as (n & Hp & _ & _ & Hl).
    rewrite Hl. by eapply Hq.
  - intros p n' d nd' Hp' Hd Hd'.
    destruct (Hback _ _ Hp') as (n & Hp & Hn & Hdeps & _).
    destruct (Hback _ _ Hd') as (nd & Hdn & Hnd & _).
    rewrite Hn, Hnd. apply (Hnm p n d nd); [done| |done].
    by rewrite <- Hdeps.
Qed.

Lemma well_formed_NewNode h nm p h' :
  NewNode nm h = Ok p h' -> well_formed h -> well_formed h'.
Proof.
  intros [= <- <-] [Hcl Hq Hnm].
  assert (forall p n, (h ++ [fresh_node nm]) !! p = Some n ->
            h !! p = Some n \/ n = fresh_node nm) as Hcases.
  { intros p n [Hp|[_ Hp]]%lookup_app_Some; [by left|right].
    destruct (p - length h)%nat; simpl in Hp; [congruence|done]. }
  split.
  - intros p n d Hp Hd. destruct (Hcases _ _ Hp) as [Hp'| ->].
    + destruct (Hcl _ _ _ Hp' Hd) as [nd Hnd]. exists nd.
      by apply lookup_app_l_Some.
    + by apply elem_of_nil in Hd.
  - intros p n Hp. destruct (Hcases _ _ Hp) as [Hp'| ->]; [by eapply Hq|done].
  - intros p n d nd Hp Hd Hdn. destruct (Hcases _ _ Hp) as [Hp'| ->].
    + destruct (Hcl _ _ _ Hp' Hd) as [nd' Hnd'].
      rewrite (lookup_app_l_Some _ _ _ _ Hnd') in Hdn.
      replace nd with nd' by congruence. by eapply Hnm.
    + by apply elem_of_nil in Hd.
Qed.

Lemma well_formed_DependsOn h m dep e h' :
  DependsOn m dep h = Ok e h' -> well_formed h ->
  well_formed h' /\ (e = None \/ e = Some SelfDependency).
Proof.
  intros (depn & mn & Hdep & Hm & Hcase)%DependsOn_Ok Hwf.
  destruct Hcase as [(_ & -> & ->)|(Hne & Hl & Hcase)]; [by auto|].
  pose proof Hwf as [Hcl Hq Hnm].
  destruct Hcase as [(_ & (d & nd & Hd & Hnd & Heq) & _)
                    |(-> & Hlm & _ & ->)].
  { by destruct (Hnm _ _ _ _ Hdep Hd Hnd). }
  split; [|by left].
  assert (m <> dep) as Hmd by (intros ->; congruence).
  assert (dep < length h)%nat as Hdlt by by eapply lookup_lt_Some.
  assert (m < length h)%nat as Hmlt by by eapply lookup_lt_Some.
  set (h' := <[m := add_dependency mn]> (<[dep := add_dependent m depn]> h)).
  assert (forall p n', h' !! p = Some n' ->
     exists n, h !! p = Some n /\ name n' = name n /\ locked n' = locked n /\
       (dependencyOf n' = dependencyOf n \/
        p = dep /\ dependencyOf n' = dependencyOf n ++ [m])) as Hback.
  { intros p n' Hp. unfold h' in Hp.
    destruct (decide (m = p)) as [<-|Hmp].
    - rewrite list_lookup_insert_eq in Hp by by rewrite length_insert.
      simplify_eq. exists mn. split_and!; [done..|by left].
    - rewrite list_lookup_insert_ne in Hp by done.
      destruct (decide (dep = p)) as [<-|Hdp].
      + rewrite list_lookup_insert_eq in Hp by done.
        simplify_eq. exists depn. split_and!; [done..|by right].
      + rewrite list_lookup_insert_ne in Hp by done.
        exists n'. split_and!; [done..|by left]. }
  assert (forall p, is_Some (h !! p) -> is_Some (h' !! p)) as Hvalid.
  { intros p Hp. unfold h'. by rewrite !list_lookup_insert_is_Some. }
  split.
  - intros p n' d Hp Hd. apply Hvalid.
    destruct (Hback _ _ Hp) as (n & Hn & _ & _ & [Hdeps|[-> Hdeps]]);
      rewrite Hdeps in Hd.
    + by eapply Hcl.
    + apply elem_of_app in Hd as [Hd|Hd%list_elem_of_singleton];
        [by eapply Hcl|subst d; eauto].
  - intros p n' Hp. destruct (Hback _ _ Hp) as (n & Hn & _ & -> & _).
    by eapply Hq.
  - intros p n' d nd' Hp Hd Hdn.
    destruct (Hback _ _ Hp) as (n & Hn & -> & _ & [Hdeps|[-> Hdeps]]);
      destruct (Hback _ _ Hdn) as (nd & Hnd & -> & _);
      rewrite Hdeps in Hd.
    + by eapply Hnm.
    + apply elem_of_app in Hd as [Hd|Hd%list_elem_of_singleton].
      * by eapply Hnm.
      * subst d. replace n with depn by congruence.
        replace nd with mn by congruence. congruence.
Qed.

Lemma well_formed_Pass h m e h' :
  Pass m h = Ok e h' -> well_formed h -> well_formed h'.
Proof.
  intros (n & Hn & Hl & Hcase)%Pass_Ok.
  destruct (status n); [by destruct Hcase as [_ ->]|].
  destruct Hcase as (_ & _ & Hlen & Hpt).
  apply well_formed_same_skeleton; [done|].
  intros p np Hp. eexists. split; [by apply Hpt|].
  by rewrite resolved_node_name, resolved_node_dependencyOf,
    resolved_node_locked.
Qed.

Lemma well_formed_Fail h fuel m e h' :
  Fail fuel m h = Ok e h' -> well_formed h -> well_formed h'.
Proof.
  intros Hrun. pose proof Hrun as (n & Hn & Hl & Hcase)%Fail_Ok.
  destruct (status n) eqn:Hst; [by destruct Hcase as [_ ->]|].
  destruct (Fail_frame _ _ _ _ _ _ Hrun Hn Hst) as [Hlen Hpt].
  apply well_formed_same_skeleton; [done|].
  intros p np Hp. destruct (Hpt _ _ Hp) as (b & -> & _).
  eexists. split; [done|]. cbn [name dependencyOf locked set_blocked].
  by rewrite resolved_node_name, resolved_node_dependencyOf,
    resolved_node_locked.
Qed.

Lemma built_well_formed h : built h -> well_formed h.
Proof.
  induction 1 as [|h nm p h' _ IH Hrun|h m dep e h' _ IH Hrun
                  |h m e h' _ IH Hrun|h fuel m e h' _ IH Hrun].
  - split.
    + by intros p n d Hp.
    + by intros p n Hp.
    + by intros p n d nd Hp.
  - by eapply well_formed_NewNode.
  - by eapply well_formed_DependsOn.
  - by eapply well_formed_Pass.
  - by eapply well_formed_Fail.
Qed.

(** ** Termination of Fail on built heaps *)

(** On a heap built through the API, [Fail] returns on every node. *)
Lemma built_Fail_returns h m n :
  built h -> h !! m = Some n ->
  exists e h', forall fuel, (2 * graph_size h < fuel)%nat ->
    Fail fuel m h = Ok e h'.
Proof.
  intros [Hcl Hq Hnm]%built_well_formed Hn.
  apply (Fail_returns h m n); [done..|].
  intros Hin. by destruct (Hnm m n m n).
Qed.

(** C10: on every heap, cyclic or not, a number of iterations above twice
    the count of nodes and edges is never exhausted by [Fail]: a name
    enters [visited] once, only then are the dependents of its node
    pushed, and every iteration pops.  When, moreover, every edge leads to
    a node, every mutex is free and [m] is not its own direct dependent,
    as on every heap built through the API, [Fail] returns, with a result
    that no longer depends on the bound. *)
Theorem Fail_terminates h m :
  (forall fuel, (2 * graph_size h < fuel)%nat ->
     Fail fuel m h <> Fault OutOfFuel) /\
  (forall n, h !! m = Some n -> closed h -> quiescent h ->
     m ∉ dependencyOf n ->
     exists e h', forall fuel, (2 * graph_size h < fuel)%nat ->
       Fail fuel m h = Ok e h') /\
  (forall n, built h -> h !! m = Some n ->
     exists e h', forall fuel, (2 * graph_size h < fuel)%nat ->
       Fail fuel m h = Ok e h').
Proof.
  split_and!.
  - intros fuel. apply Fail_fuel_suffices.
  - intros n. apply Fail_returns.
  - intros n. apply built_Fail_returns.
Qed.

(** ** The cycle check of Fail *)

Lemma origin_kept_out_skip m nmm V St s h nd mn :
  origin_kept_out m nmm V (St ++ [s]) h -> h !! s = Some nd ->
  h !! m = Some mn -> name nd <> name mn -> visited_at V (name nd) = true ->
  origin_kept_out m nmm V St h.
Proof.
  intros (Hm & Hv & Hst) _ _ _ _. split_and!; [done..|].
  intros s' ns Hs'. apply Hst, elem_of_app. by left.
Qed.

Lemma origin_kept_out_expand m nmm V St s h nd mn :
  origin_kept_out m nmm V (St ++ [s]) h -> h !! s = Some nd ->
  h !! m = Some mn -> name nd <> name mn -> visited_at V (name nd) = false ->
  (forall d, d ∈ dependencyOf nd -> is_Some (h !! d)) ->
  origin_kept_out m nmm (<[name nd := true]> V)
    (St ++ filter (fun d => unvisited (<[name nd := true]> V)
                              (<[s := set_blocked true nd]> h) d = true)
                  (dependencyOf nd))
    (<[s := set_blocked true nd]> h).
Proof.
  intros ((mn' & Hm' & Hnm) & Hv & Hst) Hs Hm Hne Hvs _.
  assert (s <> m) as Hsm by (intros ->; congruence).
  split_and!.
  - exists mn'. by rewrite list_lookup_insert_ne.
  - rewrite visited_at_insert. by destruct (decide (name nd = nmm)).
  - intros s' ns [Hs'|Hs']%elem_of_app Hns.
    + destruct (decide (s = s')) as [<-|Hss].
      * rewrite list_lookup_insert_eq in Hns by by eapply lookup_lt_Some.
        simplify_eq. cbn [name set_blocked]. congruence.
      * rewrite list_lookup_insert_ne in Hns by done.
        eapply Hst; [|done]. apply elem_of_app. by left.
    + apply list_elem_of_filter in Hs' as [Hun _].
      unfold unvisited in Hun. rewrite Hns in Hun.
      intros Heq. rewrite Heq, visited_at_insert in Hun.
      destruct (decide (name nd = nmm)); [done|]. by rewrite Hv in Hun.
Qed.

(** On a heap where no direct dependent of [m] carries the name of [m],
    [Fail] never returns the CircularDependency error, whatever cycles
    pass through [m]. *)
Lemma Fail_not_CircularDependency fuel m h e h' n :
  Fail fuel m h = Ok e h' -> h !! m = Some n ->
  (forall d nd, d ∈ dependencyOf n -> h !! d = Some nd -> name nd <> name n) ->
  e <> Some CircularDependency.
Proof.
  intros (n' & Hn' & Hl & Hcase)%Fail_Ok Hn Hnames.
  replace n' with n in * by congruence.
  destruct (status n) eqn:Hst; [destruct Hcase as [-> _]; done|].
  destruct Hcase as (Hnotin & Hval & h0 & h1 & n1 & Hlen & H0m & H0 & Hloop & _).
  pose proof (entry_heap_same_graph _ _ _ _ Hn Hlen H0m H0) as Hsame.
  assert (origin_kept_out m (name n) (<[name n := true]> ∅)
            (dependencyOf n) h0) as HJ0.
  { split_and!.
    - eexists. split; [done|]. done.
    - by rewrite visited_at_insert, decide_True.
    - intros s ns Hs Hns.
      destruct (proj2 (Hsame s) _ Hns) as (np & Hp & -> & _).
      by eapply Hnames. }
  destruct (blockDependents_rule m (origin_kept_out m (name n))
              (origin_kept_out_skip m (name n))
              (origin_kept_out_expand m (name n))
              fuel _ _ _ _ _ HJ0 Hloop)
    as [[-> _]|[_ (V' & St' & s & nd & mn & HJ & Hs & Hm & Heq)]]; [done|].
  destruct HJ as ((mn' & Hm' & Hnm) & _ & Hst').
  replace mn' with mn in * by congruence.
  destruct (Hst' s nd); [apply elem_of_app; right; by left|done|congruence].
Qed.

(** No sequence of calls builds a heap on which [Fail] reports a cycle. *)
Lemma built_Fail_not_CircularDependency fuel m h e h' :
  built h -> Fail fuel m h = Ok e h' -> e <> Some CircularDependency.
Proof.
  intros [_ _ Hnm]%built_well_formed Hrun.
  pose proof Hrun as (n & Hn & _)%Fail_Ok.
  eapply Fail_not_CircularDependency; [done..|].
  intros d nd Hd Hnd. by eapply Hnm.
Qed.

(** No sequence of calls builds a heap on which [DependsOn] reports a
    duplicate. *)
Lemma built_DependsOn_not_DuplicateDependency m dep h e h' :
  built h -> DependsOn m dep h = Ok e h' ->
  e = None \/ e = Some SelfDependency.
Proof.
  intros Hwf%built_well_formed Hrun.
  by destruct (well_formed_DependsOn _ _ _ _ _ Hrun Hwf).
Qed.

Lemma exec_built c h h' : built h -> exec c h = Some h' -> built h'.
Proof.
  intros Hb Hex. destruct c as [nm|m dep|m|fuel m]; simpl in Hex.
  - destruct (NewNode nm h) as [p h1|] eqn:Hrun; simplify_eq/=.
    by eapply built_NewNode.
  - destruct (DependsOn m dep h) as [e h1|] eqn:Hrun; simplify_eq/=.
    by eapply built_DependsOn.
  - destruct (Pass m h) as [e h1|] eqn:Hrun; simplify_eq/=.
    by eapply built_Pass.
  - destruct (Fail fuel m h) as [e h1|] eqn:Hrun; simplify_eq/=.
    by eapply built_Fail.
Qed.

Lemma replay_built cs : forall h h',
  built h -> replay cs h = Some h' -> built h'.
Proof.
  induction cs as [|c cs IH]; intros h h' Hb Hre; simpl in Hre.
  - by simplify_eq.
  - destruct (exec c h) as [h1|] eqn:Hex; [|done].
    eapply IH; [|done]. by eapply exec_built.
Qed.

(** ** Cycles and repeated edges, on concrete graphs *)

Lemma cycle_XYZ_replayed : replay cycle_calls [] = Some cycle_XYZ.
Proof. vm_compute. reflexivity. Qed.

Lemma cycle_XYZ_built : built cycle_XYZ.
Proof. exact (replay_built _ _ _ built_empty cycle_XYZ_replayed). Qed.

Lemma edge_intro (h : heap) p q n :
  h !! p = Some n -> q ∈ dependencyOf n -> edge h p q.
Proof. intros. by exists n. Qed.

Lemma cycle_XYZ_paths :
  path cycle_XYZ 0%nat 0%nat /\ path cycle_XYZ 1%nat 1%nat /\
  path cycle_XYZ 2%nat 2%nat.
Proof.
  assert (edge cycle_XYZ 0 2) as H02
    by (eapply edge_intro; [reflexivity|by left]).
  assert (edge cycle_XYZ 2 1) as H21
    by (eapply edge_intro; [reflexivity|by left]).
  assert (edge cycle_XYZ 1 0) as H10
    by (eapply edge_intro; [reflexivity|by left]).
  unfold path. split_and!.
  - eapply tc_l; [exact H02|]. eapply tc_l; [exact H21|]. by apply tc_once.
  - eapply tc_l; [exact H10|]. eapply tc_l; [exact H02|]. by apply tc_once.
  - eapply tc_l; [exact H21|]. eapply tc_l; [exact H10|]. by apply tc_once.
Qed.

(** A result computed with one sufficient bound is the result for every
    larger one. *)
Lemma Fail_result_stable h m n e h' k :
  h !! m = Some n -> closed h -> quiescent h -> m ∉ dependencyOf n ->
  (2 * graph_size h < k)%nat -> Fail k m h = Ok e h' ->
  forall fuel, Fail (k + fuel) m h = Ok e h'.
Proof.
  intros Hn Hcl Hq Hnotin Hk Hrun fuel.
  destruct (Fail_returns h m n Hn Hcl Hq Hnotin) as (e' & h'' & Hall).
  rewrite (Hall k Hk) in Hrun. rewrite (Hall (k + fuel)%nat) by lia. done.
Qed.

(** C1, on the code: X depends on Y, Y on Z and Z on X, all registered by
    [DependsOn]; [Fail] on X, on Y and on Z returns nil, not the
    CircularDependency error: the two other nodes are blocked and the
    traversal stops at the failed node, whose name is in [visited] from
    the start and which is therefore never pushed. *)
Theorem Fail_on_cycle_returns_nil :
  replay cycle_calls [] = Some cycle_XYZ /\
  (path cycle_XYZ 0%nat 0%nat /\ path cycle_XYZ 1%nat 1%nat /\
   path cycle_XYZ 2%nat 2%nat) /\
  (forall fuel, Fail (13 + fuel) 0 cycle_XYZ = Ok None
     [ mkNode "X" false true 1 false [2%nat] (Some true);
       mkNode "Y" true true 1 false [0%nat] None;
       mkNode "Z" true true 0 false [1%nat] None ]) /\
  (forall fuel, Fail (13 + fuel) 1 cycle_XYZ = Ok None
     [ mkNode "X" true true 0 false [2%nat] None;
       mkNode "Y" false true 1 false [0%nat] (Some true);
       mkNode "Z" true true 1 false [1%nat] None ]) /\
  (forall fuel, Fail (13 + fuel) 2 cycle_XYZ = Ok None
     [ mkNode "X" true true 1 false [2%nat] None;
       mkNode "Y" true true 0 false [0%nat] None;
       mkNode "Z" false true 1 false [1%nat] (Some true) ]).
Proof.
  destruct (built_well_formed _ cycle_XYZ_built) as [Hcl Hq _].
  split; [exact cycle_XYZ_replayed|]. split; [exact cycle_XYZ_paths|].
  split_and!; intros fuel.
  - eapply (Fail_result_stable cycle_XYZ 0); try done.
    + by intros [=]%list_elem_of_singleton.
    + vm_compute. lia.
  - eapply (Fail_result_stable cycle_XYZ 1); try done.
    + by intros [=]%list_elem_of_singleton.
    + vm_compute. lia.
  - eapply (Fail_result_stable cycle_XYZ 2); try done.
    + by intros [=]%list_elem_of_singleton.
    + vm_compute. lia.
Qed.

(** C4, on the code: with [b] already in [a.dependencyOf], a second
    [b.DependsOn(a)] returns nil, appends [b] once more and counts one
    more dependency on [b]: the loop compares the name of each dependent
    of [a] with the name of [a] itself. *)
Theorem DependsOn_registers_edge_twice :
  replay [CallNewNode "a"; CallNewNode "b"; CallDependsOn 1 0] []
    = Some edge_ab /\
  DependsOn 1 0 edge_ab = Ok None
    [ mkNode "a" false false 0 false [1%nat; 1%nat] None;
      mkNode "b" false true 2 false [] None ].
Proof. split; vm_compute; reflexivity. Qed.

(** C5, on the code: [b.DependsOn(a)] twice registers the edge from [a]
    to [b] twice (the duplicate check of [DependsOn] compares the wrong
    name), and after [a.Pass()] the counter of [b] is zero; [Step] on the
    one node [a] then returns [b] twice, although [b] depends on one input
    node only. *)
Theorem Step_returns_a_dependent_twice :
  replay edge_ab_twice_calls [] = Some edge_ab_twice_passed /\
  Step [0%nat] edge_ab_twice_passed
    = Ok ([1%nat; 1%nat], None) edge_ab_twice_passed /\
  count_occ Nat.eq_dec [1%nat; 1%nat] 1%nat = 2%nat /\
  length (filter (fun p => 1%nat ∈ dependents edge_ab_twice_passed p)
                 [0%nat]) = 1%nat.
Proof. split_and!; vm_compute; reflexivity. Qed.

(** The traversal identifies nodes by name: of two dependents of A that
    carry the same name, only the one popped first is blocked. *)
Lemma Fail_skips_second_node_of_a_name :
  Fail 13 0 [ mkNode "A" false false 0 false [1%nat; 2%nat] None;
              mkNode "b" false true 1 false [] None;
              mkNode "b" false true 1 false [] None ]
  = Ok None [ mkNode "A" false false 0 false [1%nat; 2%nat] (Some true);
              mkNode "b" false true 0 false [] None;
              mkNode "b" true true 0 false [] None ].
Proof. vm_compute. reflexivity. Qed.

(** ** The theorems at work on concrete graphs *)

Lemma chain_ABCD_unique_names : unique_names chain_ABCD.
Proof.
  intros [|[|[|[|p]]]] [|[|[|[|q]]]] np nq Hp Hq Hnm;
    simpl in Hp, Hq; simplify_eq; done.
Qed.

(** A heap whose edges all lead to higher addresses has no cycle. *)
Lemma increasing_acyclic (h : heap) :
  (forall x y, edge h x y -> (x < y)%nat) -> acyclic h.
Proof.
  intros Hinc p Hp.
  assert (forall x y, path h x y -> (x < y)%nat) as Hlt.
  { intros x y Hxy. induction Hxy as [x y Hxy|x y z Hxy _ IH].
    - by apply Hinc.
    - apply Hinc in Hxy. lia. }
  apply Hlt in Hp. lia.
Qed.

Lemma chain_ABCD_acyclic : acyclic chain_ABCD.
Proof.
  apply increasing_acyclic.
  intros [|[|[|[|x]]]] y (n & Hn & Hy); simpl in Hn; simplify_eq;
    simpl in Hy.
  - apply list_elem_of_singleton in Hy as ->. lia.
  - apply list_elem_of_singleton in Hy as ->. lia.
  - by apply elem_of_nil in Hy.
  - by apply elem_of_nil in Hy.
Qed.

Lemma Fail_blocks_transitive_dependents_witness :
  unique_names chain_ABCD /\ acyclic chain_ABCD /\
  Fail 13 0 chain_ABCD = Ok None chain_ABCD_failed /\
  (forall q, path chain_ABCD 0%nat q ->
     exists nq, chain_ABCD_failed !! q = Some nq /\ blocked nq = true) /\
  (forall q nq, ~ path chain_ABCD 0%nat q -> chain_ABCD !! q = Some nq ->
     exists nq', chain_ABCD_failed !! q = Some nq' /\
                 blocked nq' = blocked nq).
Proof.
  split; [exact chain_ABCD_unique_names|].
  split; [exact chain_ABCD_acyclic|].
  split; [vm_compute; reflexivity|].
  apply (Fail_blocks_transitive_dependents 13 chain_ABCD 0 chain_ABCD_failed
           chain_ABCD_unique_names chain_ABCD_acyclic).
  vm_compute; reflexivity.
Defined.

(** Without unique names the traversal misses a dependent: on the
    acyclic graph built by [b1.DependsOn(A)] and [b2.DependsOn(A)], with
    both dependents named b, [A.Fail()] returns nil and leaves [b1], a
    direct dependent of [A], unblocked. *)
Lemma Fail_leaves_a_same_name_dependent_unblocked :
  replay same_name_calls [] = Some same_name_dependents /\
  acyclic same_name_dependents /\
  Fail 13 0 same_name_dependents = Ok None same_name_dependents_failed /\
  path same_name_dependents 0%nat 1%nat /\
  same_name_dependents_failed !! 1%nat
    = Some (mkNode "b" false true 0 false [] None) /\
  ~ (forall q, path same_name_dependents 0%nat q ->
       exists nq, same_name_dependents_failed !! q = Some nq /\
                  blocked nq = true).
Proof.
  assert (path same_name_dependents 0%nat 1%nat) as Hpath.
  { apply tc_once. eapply edge_intro; [reflexivity|]. by left. }
  split_and!; [vm_compute; reflexivity| |vm_compute; reflexivity|done|done|].
  - apply increasing_acyclic.
    intros [|[|[|x]]] y (n & Hn & Hy); simpl in Hn; simplify_eq;
      simpl in Hy.
    + apply elem_of_cons in Hy as [->|Hy]; [lia|].
      apply list_elem_of_singleton in Hy as ->. lia.
    + by apply elem_of_nil in Hy.
    + by apply elem_of_nil in Hy.
  - intros Hall. destruct (Hall 1%nat Hpath) as (nq & Hq & Hb).
    simpl in Hq. injection Hq as <-. done.
Qed.

Lemma resolved_status_is_final_witness :
  passed_a !! 0%nat = Some (mkNode "a" false false 0 false [] (Some false)) /\
  Pass 0 passed_a = Ok (Some AlreadyResolved) passed_a /\
  (forall fuel, Fail fuel 0 passed_a = Ok (Some AlreadyResolved) passed_a) /\
  (forall q e h', Pass q passed_a = Ok e h' ->
     exists n', h' !! 0%nat = Some n' /\ status n' = Some false) /\
  (forall fuel q e h', Fail fuel q passed_a = Ok e h' ->
     exists n', h' !! 0%nat = Some n' /\ status n' = Some false) /\
  (forall q r e h', DependsOn q r passed_a = Ok e h' ->
     exists n', h' !! 0%nat = Some n' /\ status n' = Some false).
Proof.
  split; [reflexivity|].
  apply (resolved_status_is_final passed_a 0
           (mkNode "a" false false 0 false [] (Some false)) false);
    reflexivity.
Defined.

Lemma graph_ABDEF_replayed : replay graph_ABDEF_calls [] = Some graph_ABDEF.
Proof. vm_compute. reflexivity. Qed.

Lemma graph_ABDEF_closed : closed graph_ABDEF.
Proof.
  apply built_well_formed.
  exact (replay_built _ _ _ built_empty graph_ABDEF_replayed).
Qed.

Lemma graph_ABDEF_roots_valid :
  forall p, p ∈ [0%nat; 2%nat] -> is_Some (graph_ABDEF !! p).
Proof.
  intros p [->|[->|Hp]%elem_of_cons]%elem_of_cons; [by eexists..|].
  by apply elem_of_nil in Hp.
Qed.

Lemma graph_ABDEF_roots_resolved :
  forall p n, p ∈ [0%nat; 2%nat] -> graph_ABDEF !! p = Some n ->
              status n <> None.
Proof.
  intros p n [->|[->|Hp]%elem_of_cons]%elem_of_cons Hn;
    [by simplify_eq/=..|].
  by apply elem_of_nil in Hp.
Qed.

Lemma graph_ABDEF_roots_NoDup :
  forall p, p ∈ [0%nat; 2%nat] -> NoDup (dependents graph_ABDEF p).
Proof.
  intros p [->|[->|Hp]%elem_of_cons]%elem_of_cons;
    [apply NoDup_singleton..|].
  by apply elem_of_nil in Hp.
Qed.

Lemma Step_next_frontier_witness :
  closed graph_ABDEF /\
  (forall p, p ∈ [0%nat; 2%nat] -> is_Some (graph_ABDEF !! p)) /\
  (forall p n, p ∈ [0%nat; 2%nat] -> graph_ABDEF !! p = Some n ->
               status n <> None) /\
  (forall p, p ∈ [0%nat; 2%nat] -> NoDup (dependents graph_ABDEF p)) /\
  Step [0%nat; 2%nat] graph_ABDEF
    = Ok (next_frontier graph_ABDEF [0%nat; 2%nat], None) graph_ABDEF /\
  next_frontier graph_ABDEF [0%nat; 2%nat] = [1%nat] /\
  forall d,
    count_occ Nat.eq_dec (next_frontier graph_ABDEF [0%nat; 2%nat]) d =
    if ready graph_ABDEF d
    then length (filter (fun p => d ∈ dependents graph_ABDEF p)
                        [0%nat; 2%nat])
    else 0%nat.
Proof.
  split; [exact graph_ABDEF_closed|].
  split; [exact graph_ABDEF_roots_valid|].
  split; [exact graph_ABDEF_roots_resolved|].
  split; [exact graph_ABDEF_roots_NoDup|].
  destruct (proj2 (Step_next_frontier graph_ABDEF [0%nat; 2%nat]
                     graph_ABDEF_closed graph_ABDEF_roots_valid)
                  graph_ABDEF_roots_resolved) as (Hrun & _ & Hcount).
  split; [exact Hrun|]. split; [vm_compute; reflexivity|].
  exact (Hcount graph_ABDEF_roots_NoDup).
Defined.

Lemma resolve_decrements_once_per_edge_witness :
  edge_ab !! 0%nat = Some (mkNode "a" false false 0 false [1%nat] None) /\
  edge_ab !! 1%nat = Some (mkNode "b" false true 1 false [] None) /\
  Pass 0 edge_ab = Ok None
    [ mkNode "a" false false 0 false [1%nat] (Some false);
      mkNode "b" false true 0 false [] None ] /\
  exists nb',
    [ mkNode "a" false false 0 false [1%nat] (Some false);
      mkNode "b" false true 0 false [] None ] !! 1%nat = Some nb' /\
    depsRemaining nb' = decz 1 /\
    (- 2 ^ 63 <= 1 - 1 -> 1 <= 2 ^ 63 - 1 -> depsRemaining nb' = 1 - 1).
Proof.
  split; [reflexivity|]. split; [reflexivity|].
  split; [vm_compute; reflexivity|].
  apply (proj2 (resolve_decrements_once_per_edge edge_ab 0
                  (mkNode "a" false false 0 false [1%nat] None) 1
                  (mkNode "b" false true 1 false [] None) None
                  [ mkNode "a" false false 0 false [1%nat] (Some false);
                    mkNode "b" false true 0 false [] None ]
                  eq_refl eq_refl (or_introl eq_refl))).
  reflexivity.
Defined.

Lemma construction_witness :
  "a" <> "" /\
  NewModule "a" [] = Ok (Some 0%nat, None) [fresh_node "a"] /\
  NewNode "a" [] = Ok 0%nat [fresh_node "a"].
Proof.
  assert ("a" <> "") as Hne by discriminate.
  split; [exact Hne|].
  pose proof (construction [] "a") as (Hnode & _ & _ & Hmod & _).
  split; [exact (proj1 (Hmod Hne))|exact Hnode].
Defined.

Lemma DependsOn_self_rejected_witness :
  [fresh_node "a"] !! 0%nat = Some (fresh_node "a") /\
  DependsOn 0 0 [fresh_node "a"] = Ok (Some SelfDependency) [fresh_node "a"].
Proof.
  split; [reflexivity|].
  apply (DependsOn_self_rejected [fresh_node "a"] 0 (fresh_node "a")).
  reflexivity.
Defined.

Lemma DependsOn_same_name_rejected_witness :
  0%nat <> 1%nat /\
  twins !! 0%nat = Some (fresh_node "a") /\
  twins !! 1%nat = Some (fresh_node "a") /\
  DependsOn 1 0 twins = Ok (Some SelfDependency) twins.
Proof.
  assert (0%nat <> 1%nat) as Hne by discriminate.
  split; [exact Hne|]. split; [reflexivity|]. split; [reflexivity|].
  apply (DependsOn_same_name_rejected twins 0 1 (fresh_node "a")
           (fresh_node "a") Hne); reflexivity.
Defined.

Lemma Fail_terminates_witness :
  closed cycle_XYZ /\ quiescent cycle_XYZ /\
  exists e h', forall fuel, (2 * graph_size cycle_XYZ < fuel)%nat ->
    Fail fuel 0 cycle_XYZ = Ok e h'.
Proof.
  pose proof (built_well_formed _ cycle_XYZ_built) as [Hcl Hq _].
  split; [exact Hcl|]. split; [exact Hq|].
  apply (proj1 (proj2 (Fail_terminates cycle_XYZ 0))
           (mkNode "X" false true 1 false [2%nat] None) eq_refl Hcl Hq).
  intros Hin. apply list_elem_of_singleton in Hin. discriminate Hin.
Defined.

(** * Further properties of the code *)

(** ** The stack *)

(** X1: [Pop] after [Push] returns the pushed node with no error and the
    stack as it was before the push, and [Push] makes the stack one longer. *)
Theorem Push_Pop_round_trip (s : nodeStack) x :
  Pop (Push s x) = (Some x, None, s) /\ Len (Push s x) = S (Len s).
Proof.
  split; [apply Pop_Push|].
  unfold Len, Push. rewrite length_app. simpl. lia.
Qed.

(** X2: [Pop] returns the "Empty Stack" error exactly on the empty stack,
    with a nil node and the stack untouched; on any other stack it returns
    the node pushed last, no error, and the stack without that node. *)
Theorem Pop_fails_only_on_empty (s : nodeStack) :
  (Len s = 0%nat /\ Pop s = (None, Some EmptyStack, s)) \/
  (exists s' x, s = s' ++ [x] /\ Pop s = (Some x, None, s') /\
                Len s = S (Len s')).
Proof.
  destruct (stack_cases s) as [->|(s' & x & ->)].
  - left. by split.
  - right. exists s', x. split_and!; [done|apply (Pop_Push s' x)|].
    unfold Len. rewrite length_app. simpl. lia.
Qed.

(** ** Roots and names *)

Lemma GetRootDependencies_Ok nodes : forall h roots h',
  GetRootDependencies nodes h = Ok roots h' <->
  h' = h /\ (forall p, p ∈ nodes -> is_Some (h !! p)) /\
  roots = filter (fun p => is_root h p = true) nodes.
Proof.
  induction nodes as [|p nodes IH]; intros h roots h'; simpl.
  - rewrite ret_Ok. split.
    + intros [<- <-]. split_and!; [done| |done].
      intros p Hp. by apply elem_of_nil in Hp.
    + by intros (-> & _ & ->).
  - rewrite bind_Ok. split.
    + intros (n & h1 & [Hn ->]%load_Ok & Hk).
      apply bind_Ok in Hk as (roots' & h2 & Hrec & Hret).
      apply IH in Hrec as (-> & Hval & ->).
      apply ret_Ok in Hret as [<- <-].
      assert (is_root h p = negb (hasDependencies n)) as Hr
        by (unfold is_root; by rewrite Hn).
      split_and!; [done| |].
      * intros p' [->|Hp']%elem_of_cons; eauto.
      * destruct (negb (hasDependencies n)).
        -- by rewrite filter_cons_True.
        -- rewrite filter_cons_False; [done|]. by rewrite Hr.
    + intros (-> & Hval & ->). destruct (Hval p) as [n Hn]; [by left|].
      exists n, h. split; [by apply load_Ok|].
      apply bind_Ok. eexists _, h. split.
      * apply IH. split_and!; [done| |done].
        intros p' Hp'. apply Hval. by right.
      * apply ret_Ok. split; [|done].
        assert (is_root h p = negb (hasDependencies n)) as Hr
          by (unfold is_root; by rewrite Hn).
        destruct (negb (hasDependencies n)).
        -- by rewrite filter_cons_True.
        -- rewrite filter_cons_False; [done|]. by rewrite Hr.
Qed.

(** X3: [GetRootDependencies] returns exactly when every listed pointer
    leads to a node; it then leaves the heap as it was and returns, in the
    order of the input and with its repetitions, the listed nodes whose
    [hasDependencies] flag is false. *)
Theorem GetRootDependencies_filters nodes h roots h' :
  GetRootDependencies nodes h = Ok roots h' <->
  h' = h /\ (forall p, p ∈ nodes -> is_Some (h !! p)) /\
  roots = filter (fun p => is_root h p = true) nodes.
Proof. apply GetRootDependencies_Ok. Qed.

Lemma GetDependencyNamesFrom_Ok deps : forall names h r h',
  GetDependencyNamesFrom deps names h = Ok r h' <->
  (forall d, d ∈ deps -> exists nd, h !! d = Some nd /\ locked nd = false) /\
  h' = h /\ r = names ++ map (name_at h) deps.
Proof.
  induction deps as [|d deps IH]; intros names h r h'; simpl.
  - rewrite ret_Ok, app_nil_r. split.
    + intros [<- <-]. split_and!; [|done..].
      intros d Hd. by apply elem_of_nil in Hd.
    + by intros (_ & -> & ->).
  - split.
    + intros Hrun. pose proof Hrun as Hrun'.
      apply bind_Ok in Hrun' as (u & h1 & (nd & Hnd & Hl & ->)%Lock_Ok & _).
      assert (d < length h)%nat by by eapply lookup_lt_Some.
      step_in Hrun as u1 h1 Hlock.
      apply Lock_Ok in Hlock as (nd1 & Hnd1 & _ & ->).
      replace nd1 with nd in * by congruence.
      step_in Hrun as n1 h1 Hload. apply load_Ok in Hload as [Hn1 ->].
      rewrite list_lookup_insert_eq in Hn1 by done. injection Hn1 as <-.
      step_in Hrun as u2 h2 Hunl.
      apply Unlock_Ok in Hunl as (n2 & Hn2 & _ & ->).
      rewrite list_lookup_insert_eq in Hn2 by done. injection Hn2 as <-.
      rewrite list_insert_insert_eq, set_locked_back in Hrun by done.
      rewrite list_insert_id in Hrun by done.
      apply IH in Hrun as (Hfree & -> & ->).
      split_and!; [|done|].
      * intros d' [->|Hd']%elem_of_cons; eauto.
      * assert (name_at h d = name nd) as Hna
          by (unfold name_at; by rewrite Hnd).
        cbn [name set_locked map]. rewrite Hna. by rewrite <- app_assoc.
    + intros (Hfree & -> & ->).
      destruct (Hfree d) as (nd & Hnd & Hl); [by left|].
      assert (d < length h)%nat by by eapply lookup_lt_Some.
      erewrite bind_run by by apply Lock_run.
      erewrite bind_run by by apply load_run, list_lookup_insert_eq.
      erewrite (bind_run _ _ _ tt).
      2:{ apply Unlock_Ok. eexists.
          split_and!; [by apply list_lookup_insert_eq|done..]. }
      rewrite list_insert_insert_eq, set_locked_back by done.
      rewrite list_insert_id by done.
      apply IH. split_and!; [|done|].
      * intros d' Hd'. apply Hfree. by right.
      * assert (name_at h d = name nd) as Hna
          by (unfold name_at; by rewrite Hnd).
        cbn [name set_locked map]. rewrite Hna. by rewrite <- app_assoc.
Qed.

Lemma ListNodeNamesFrom_Ok nodes : forall a h r h',
  ListNodeNamesFrom nodes a h = Ok r h' <->
  (forall p, p ∈ nodes -> is_Some (h !! p)) /\
  h' = h /\ r = a ++ map (name_at h) nodes.
Proof.
  induction nodes as [|p nodes IH]; intros a h r h'; simpl.
  - rewrite ret_Ok, app_nil_r. split.
    + intros [<- <-]. split_and!; [|done..].
      intros p Hp. by apply elem_of_nil in Hp.
    + by intros (_ & -> & ->).
  - rewrite bind_Ok. split.
    + intros (n & h1 & [Hn ->]%load_Ok & Hk).
      apply IH in Hk as (Hval & -> & ->). split_and!; [|done|].
      * intros p' [->|Hp']%elem_of_cons; eauto.
      * assert (name_at h p = name n) as Hna
          by (unfold name_at; by rewrite Hn).
        cbn [map]. rewrite Hna. by rewrite <- app_assoc.
    + intros (Hval & -> & ->). destruct (Hval p) as [n Hn]; [by left|].
      exists n, h. split; [by apply load_Ok|]. apply IH.
      split_and!; [|done|].
      * intros p' Hp'. apply Hval. by right.
      * assert (name_at h p = name n) as Hna
          by (unfold name_at; by rewrite Hn).
        cbn [map]. rewrite Hna. by rewrite <- app_assoc.
Qed.

(** X4: [GetDependencyNames] returns exactly when its node exists and
    every direct dependent exists with a free mutex; it then returns the
    names of the direct dependents in the order of [dependencyOf], leaves
    the heap (every mutex included) as it was, and agrees with
    [ListNodeNames] on the list of dependents. *)
Theorem GetDependencyNames_names_dependents m h names h' :
  GetDependencyNames m h = Ok names h' <->
  exists n, h !! m = Some n /\
    (forall d, d ∈ dependencyOf n ->
       exists nd, h !! d = Some nd /\ locked nd = false) /\
    h' = h /\ names = map (name_at h) (dependencyOf n) /\
    ListNodeNames (dependencyOf n) h = Ok names h.
Proof.
  unfold GetDependencyNames. rewrite bind_Ok. split.
  - intros (n & h1 & [Hn ->]%load_Ok & Hk).
    apply GetDependencyNamesFrom_Ok in Hk as (Hfree & -> & ->).
    exists n. split_and!; [done..|].
    apply ListNodeNamesFrom_Ok. split_and!; [|done..].
    intros d Hd. destruct (Hfree d Hd) as (nd & Hnd & _). eauto.
  - intros (n & Hn & Hfree & -> & -> & _).
    exists n, h. split; [by apply load_Ok|].
    by apply GetDependencyNamesFrom_Ok.
Qed.

(** ** What the calls keep *)

Lemma node_grows_refl n : node_grows n n.
Proof. by split_and!. Qed.

Lemma node_grows_trans n1 n2 n3 :
  node_grows n1 n2 -> node_grows n2 n3 -> node_grows n1 n3.
Proof.
  intros (Hn & Hs & Hb & Hh & Hd) (Hn' & Hs' & Hb' & Hh' & Hd').
  split_and!; [congruence|auto..|by etrans].
Qed.

Lemma heap_grows_refl h : heap_grows h h.
Proof. split; [done|]. intros p n Hn. eauto using node_grows_refl. Qed.

Lemma heap_grows_trans h1 h2 h3 :
  heap_grows h1 h2 -> heap_grows h2 h3 -> heap_grows h1 h3.
Proof.
  intros [Hl Hp] [Hl' Hp']. split; [lia|]. intros p n Hn.
  destruct (Hp _ _ Hn) as (n2 & Hn2 & Hg).
  destruct (Hp' _ _ Hn2) as (n3 & Hn3 & Hg').
  eauto using node_grows_trans.
Qed.

Lemma heap_grows_insert (h : heap) p n x :
  h !! p = Some n -> node_grows n x -> heap_grows h (<[p := x]> h).
Proof.
  intros Hn Hg. split; [by rewrite length_insert|]. intros q nq Hq.
  destruct (decide (p = q)) as [<-|Hne].
  - exists x. rewrite list_lookup_insert_eq by by eapply lookup_lt_Some.
    by replace nq with n by congruence.
  - exists nq. rewrite list_lookup_insert_ne by done.
    split; [done|apply node_grows_refl].
Qed.

Lemma node_grows_resolved m s ds p np :
  (p = m -> status np = None) ->
  node_grows np (resolved_node m s ds p np).
Proof.
  intros Hst. split_and!.
  - apply resolved_node_name.
  - intros s' Hs'. rewrite resolved_node_status.
    destruct (decide (p = m)) as [->|]; [|done]. rewrite Hst in Hs'; done.
  - by rewrite resolved_node_blocked.
  - by rewrite resolved_node_hasDependencies.
  - by rewrite resolved_node_dependencyOf.
Qed.

Lemma NewNode_grows nm h p h' : NewNode nm h = Ok p h' -> heap_grows h h'.
Proof.
  intros [= <- <-]. split; [rewrite length_app; lia|].
  intros p n Hn. exists n. split; [by apply lookup_app_l_Some|].
  apply node_grows_refl.
Qed.

Lemma DependsOn_grows m dep h e h' :
  DependsOn m dep h = Ok e h' -> heap_grows h h'.
Proof.
  intros (depn & mn & Hdep & Hm & Hcase)%DependsOn_Ok.
  destruct Hcase as [(_ & _ & ->)
                    |(Hne & _ & [(_ & _ & ->)|(_ & _ & _ & ->)])].
  - apply heap_grows_refl.
  - apply (heap_grows_insert h dep depn (set_locked true depn)); [done|].
    by split_and!.
  - assert (m <> dep) as Hmd by (intros ->; congruence).
    eapply heap_grows_trans.
    + apply (heap_grows_insert h dep depn (add_dependent m depn)); [done|].
      split_and!; first [done|by apply prefix_app_r].
    + apply (heap_grows_insert _ m mn (add_dependency mn));
        [by rewrite list_lookup_insert_ne|].
      by split_and!.
Qed.

Lemma Pass_grows m h e h' : Pass m h = Ok e h' -> heap_grows h h'.
Proof.
  intros (n & Hn & _ & Hcase)%Pass_Ok.
  destruct (status n) eqn:Hst.
  - destruct Hcase as [_ ->]. apply heap_grows_refl.
  - destruct Hcase as (_ & _ & Hlen & Hpt). split; [lia|].
    intros p np Hp. eexists. split; [by apply Hpt|].
    apply node_grows_resolved. intros ->. congruence.
Qed.

Lemma Fail_grows fuel m h e h' : Fail fuel m h = Ok e h' -> heap_grows h h'.
Proof.
  intros Hrun. pose proof Hrun as (n & Hn & _ & Hcase)%Fail_Ok.
  destruct (status n) eqn:Hst.
  - destruct Hcase as [_ ->]. apply heap_grows_refl.
  - destruct (Fail_frame _ _ _ _ _ _ Hrun Hn Hst) as [Hlen Hpt].
    split; [lia|]. intros p np Hp.
    destruct (Hpt _ _ Hp) as (b & -> & Hb). eexists. split; [done|].
    eapply node_grows_trans.
    + apply (node_grows_resolved m true (dependencyOf n) p np).
      intros ->. congruence.
    + split_and!; try done. cbn [blocked set_blocked].
      rewrite resolved_node_blocked. exact Hb.
Qed.

Lemma exec_grows c h h' : exec c h = Some h' -> heap_grows h h'.
Proof.
  destruct c as [nm|m dep|m|fuel m]; simpl.
  - intros [= <-]. by apply (NewNode_grows nm h (length h)).
  - destruct (DependsOn m dep h) as [e h1|] eqn:Hrun; intros [= <-].
    by eapply DependsOn_grows.
  - destruct (Pass m h) as [e h1|] eqn:Hrun; intros [= <-].
    by eapply Pass_grows.
  - destruct (Fail fuel m h) as [e h1|] eqn:Hrun; intros [= <-].
    by eapply Fail_grows.
Qed.

(** X5: no returning call of [NewNode], [DependsOn], [Pass] or [Fail], and
    no sequence of such calls, removes or moves a node, changes a name,
    changes a status that is set, clears a [blocked] or a
    [hasDependencies] flag, or removes or reorders an edge: an edge list
    only ever grows at its end. *)
Theorem calls_only_grow cs h h' :
  replay cs h = Some h' -> heap_grows h h'.
Proof.
  revert h. induction cs as [|c cs IH]; intros h Hre; simpl in Hre.
  - injection Hre as <-. apply heap_grows_refl.
  - destruct (exec c h) as [h1|] eqn:Hex; [|done].
    eapply heap_grows_trans; [by eapply exec_grows|by apply IH].
Qed.

Lemma calls_only_grow_witness :
  replay [CallDependsOn 1 0; CallPass 0] edge_ab =
    Some [ mkNode "a" false false 0 false [1%nat; 1%nat] (Some false);
           mkNode "b" false true 0 false [] None ] /\
  heap_grows edge_ab
    [ mkNode "a" false false 0 false [1%nat; 1%nat] (Some false);
      mkNode "b" false true 0 false [] None ].
Proof.
  assert (replay [CallDependsOn 1 0; CallPass 0] edge_ab =
    Some [ mkNode "a" false false 0 false [1%nat; 1%nat] (Some false);
           mkNode "b" false true 0 false [] None ]) as Hre
    by (vm_compute; reflexivity).
  split; [exact Hre|].
  exact (calls_only_grow [CallDependsOn 1 0; CallPass 0] _ _ Hre).
Defined.

(** ** Heaps built through the API *)

(** X6: after any sequence of returning calls of [NewNode], [DependsOn],
    [Pass] and [Fail] from the empty heap, every edge leads to an existing
    node, every mutex is free again, and no node has a direct dependent
    that carries its own name; in particular no node is its own direct
    dependent. *)
Theorem built_heaps_are_well_formed h :
  built h ->
  closed h /\ quiescent h /\ no_same_name_edge h /\
  (forall p n, h !! p = Some n -> p ∉ dependencyOf n).
Proof.
  intros [Hcl Hq Hnm]%built_well_formed. split_and!; [done..|].
  intros p n Hn Hin. by destruct (Hnm p n p n).
Qed.

Lemma built_heaps_are_well_formed_witness :
  built cycle_XYZ /\
  closed cycle_XYZ /\ quiescent cycle_XYZ /\ no_same_name_edge cycle_XYZ /\
  (forall p n, cycle_XYZ !! p = Some n -> p ∉ dependencyOf n).
Proof.
  split; [exact cycle_XYZ_built|].
  exact (built_heaps_are_well_formed cycle_XYZ cycle_XYZ_built).
Defined.

Lemma DependsOn_result_lookup (h : heap) m dep mn depn q :
  m <> dep -> h !! m = Some mn -> h !! dep = Some depn ->
  (<[m := add_dependency mn]> (<[dep := add_dependent m depn]> h)) !! q =
  if decide (q = m) then Some (add_dependency mn)
  else if decide (q = dep) then Some (add_dependent m depn)
  else h !! q.
Proof.
  intros Hmd Hm Hdep.
  assert (m < length h)%nat by by eapply lookup_lt_Some.
  assert (dep < length h)%nat by by eapply lookup_lt_Some.
  destruct (decide (q = m)) as [->|Hqm].
  - rewrite list_lookup_insert_eq; [done|by rewrite length_insert].
  - rewrite list_lookup_insert_ne by done.
    destruct (decide (q = dep)) as [->|Hqd].
    + by rewrite list_lookup_insert_eq.
    + by rewrite list_lookup_insert_ne.
Qed.

Lemma flags_match_edges_same_skeleton h h' :
  length h' = length h ->
  (forall p np, h !! p = Some np ->
     exists np', h' !! p = Some np' /\
       dependencyOf np' = dependencyOf np /\
       hasDependencies np' = hasDependencies np) ->
  flags_match_edges h -> flags_match_edges h'.
Proof.
  intros Hlen Hpt Hinv.
  assert (forall p np', h' !! p = Some np' ->
     exists np, h !! p = Some np /\
       dependencyOf np' = dependencyOf np /\
       hasDependencies np' = hasDependencies np) as Hback.
  { intros p np' Hp'. assert (is_Some (h !! p)) as [np Hp].
    { apply lookup_lt_is_Some. rewrite <- Hlen. by eapply lookup_lt_Some. }
    destruct (Hpt p np Hp) as (np'' & Hp'' & ?).
    exists np. by replace np' with np'' by congruence. }
  intros m nm' Hm'. destruct (Hback _ _ Hm') as (nm & Hm & _ & Hhd).
  rewrite Hhd, (Hinv m nm Hm). split; intros (p & np & Hp & Hin).
  - destruct (Hpt _ _ Hp) as (np' & Hp' & Hd & _).
    exists p, np'. split; [done|]. by rewrite Hd.
  - destruct (Hback _ _ Hp) as (np0 & Hp0 & Hd & _).
    exists p, np0. split; [done|]. by rewrite <- Hd.
Qed.

Lemma built_flags_match_edges h : built h -> flags_match_edges h.
Proof.
  induction 1 as [|h nm p h' Hb IH Hrun|h m dep e h' Hb IH Hrun
                  |h m e h' Hb IH Hrun|h fuel m e h' Hb IH Hrun].
  - by intros m nm Hm.
  - injection Hrun as <- <-.
    destruct (built_well_formed _ Hb) as [Hcl _ _].
    assert (forall p n, (h ++ [fresh_node nm]) !! p = Some n ->
              h !! p = Some n \/ (p = length h /\ n = fresh_node nm))
      as Hcases.
    { intros p n [Hp|[Hge Hp]]%lookup_app_Some; [by left|right].
      destruct (p - length h)%nat eqn:Hsub; simpl in Hp; [|done].
      split; [lia|congruence]. }
    assert (forall p q, edge (h ++ [fresh_node nm]) p q <-> edge h p q)
      as Hedge.
    { intros p q. split; intros (n & Hn & Hin).
      - destruct (Hcases _ _ Hn) as [Hn'|[_ ->]]; [by exists n|].
        by apply elem_of_nil in Hin.
      - exists n. split; [by apply lookup_app_l_Some|done]. }
    intros m nm' Hm. destruct (Hcases _ _ Hm) as [Hm'|[-> ->]].
    + rewrite (IH m nm' Hm'). split; intros [p Hp]; exists p; by apply Hedge.
    + split; [done|]. intros [p (n & Hn & Hin)%Hedge].
      apply (Hcl _ _ _ Hn), lookup_lt_is_Some in Hin. lia.
  - pose proof (built_well_formed _ Hb) as Hwf.
    pose proof Hrun as (depn & mn & Hdep & Hm & Hcase)%DependsOn_Ok.
    destruct Hcase as [(_ & _ & ->)|(Hne & _ & Hcase)]; [done|].
    destruct Hcase as [(_ & (d & nd & Hd & Hnd & Heq) & _)
                      |(_ & _ & _ & ->)].
    { by destruct (wf_names _ Hwf _ _ _ _ Hdep Hd Hnd). }
    assert (m <> dep) as Hmd by (intros ->; congruence).
    pose proof (fun q => DependsOn_result_lookup h m dep mn depn q Hmd Hm Hdep)
      as Hlk.
    set (h' := <[m := add_dependency mn]> (<[dep := add_dependent m depn]> h))
      in *.
    assert (forall p q, q <> m -> edge h' p q <-> edge h p q) as Hedge.
    { intros p q Hqm. unfold edge. rewrite Hlk.
      destruct (decide (p = m)) as [->|Hpm].
      - split; intros (n & Hn & Hin).
        + injection Hn as <-. by exists mn.
        + exists (add_dependency mn). by replace n with mn in * by congruence.
      - destruct (decide (p = dep)) as [->|Hpd]; [|done].
        split; intros (n & Hn & Hin).
        + injection Hn as <-. exists depn. split; [done|].
          cbn [dependencyOf add_dependent set_dependencyOf] in Hin.
          apply elem_of_app in Hin as [Hin|Hin%list_elem_of_singleton];
            [done|congruence].
        + exists (add_dependent m depn).
          replace n with depn in * by congruence. split; [done|].
          cbn [dependencyOf add_dependent set_dependencyOf].
          apply elem_of_app. by left. }
    intros q nq Hq. rewrite Hlk in Hq.
    destruct (decide (q = m)) as [->|Hqm].
    + injection Hq as <-. split; [|done]. intros _. exists dep.
      unfold edge. rewrite Hlk, decide_False, decide_True by done.
      eexists. split; [done|].
      cbn [dependencyOf add_dependent set_dependencyOf].
      apply elem_of_app. right. by left.
    + assert (exists nq0, h !! q = Some nq0 /\
                hasDependencies nq = hasDependencies nq0) as (nq0 & Hq0 & ->).
      { destruct (decide (q = dep)) as [->|Hqd].
        - injection Hq as <-. by exists depn.
        - by exists nq. }
      rewrite (IH q nq0 Hq0). split; intros [p Hp]; exists p;
        by apply (Hedge p q Hqm).
  - pose proof Hrun as (n & Hn & _ & Hcase)%Pass_Ok.
    destruct (status n); [by destruct Hcase as [_ ->]|].
    destruct Hcase as (_ & _ & Hlen & Hpt).
    eapply flags_match_edges_same_skeleton; [done| |done].
    intros p np Hp. eexists. split; [by apply Hpt|].
    by rewrite resolved_node_dependencyOf, resolved_node_hasDependencies.
  - pose proof Hrun as (n & Hn & _ & Hcase)%Fail_Ok.
    destruct (status n) eqn:Hst; [by destruct Hcase as [_ ->]|].
    destruct (Fail_frame _ _ _ _ _ _ Hrun Hn Hst) as [Hlen Hpt].
    eapply flags_match_edges_same_skeleton; [done| |done].
    intros p np Hp. destruct (Hpt _ _ Hp) as (b & -> & _).
    eexists. split; [done|]. cbn [dependencyOf hasDependencies set_blocked].
    by rewrite resolved_node_dependencyOf, resolved_node_hasDependencies.
Qed.

(** X7: on a heap built through the API, [hasDependencies] is true exactly
    for the nodes that occur in the [dependencyOf] list of some node, so
    that [GetRootDependencies] returns exactly the listed nodes that
    depend on nothing. *)
Theorem GetRootDependencies_finds_roots h nodes roots h' :
  built h -> GetRootDependencies nodes h = Ok roots h' ->
  flags_match_edges h /\ h' = h /\
  forall p, p ∈ roots <-> p ∈ nodes /\ ~ exists q, edge h q p.
Proof.
  intros Hb (-> & Hval & ->)%GetRootDependencies_Ok.
  pose proof (built_flags_match_edges h Hb) as Hinv.
  split_and!; [done..|]. intros p. rewrite list_elem_of_filter. split.
  - intros [Hr Hp]. split; [done|]. destruct (Hval p Hp) as [n Hn].
    unfold is_root in Hr. rewrite Hn in Hr.
    rewrite <- (Hinv p n Hn). by destruct (hasDependencies n).
  - intros [Hp Hno]. split; [|done]. destruct (Hval p Hp) as [n Hn].
    unfold is_root. rewrite Hn. rewrite <- (Hinv p n Hn) in Hno.
    by destruct (hasDependencies n).
Qed.

(** ** The counter of unresolved dependencies *)

Lemma wrap_wrap_add z y : wrap (wrap z + y) = wrap (z + y).
Proof.
  unfold wrap. f_equal.
  replace ((z + 2 ^ 63) mod 2 ^ 64 - 2 ^ 63 + y + 2 ^ 63)
    with ((z + 2 ^ 63) mod 2 ^ 64 + y) by lia.
  rewrite Zplus_mod_idemp_l. f_equal. lia.
Qed.

Lemma iter_decz_wrap k : forall z,
  Nat.iter k decz (wrap z) = wrap (z - Z.of_nat k).
Proof.
  induction k as [|k IH]; intros z.
  - simpl. f_equal. lia.
  - change (Nat.iter (S k) decz (wrap z))
      with (decz (Nat.iter k decz (wrap z))).
    rewrite IH. unfold decz.
    replace (wrap (z - Z.of_nat k) - 1) with (wrap (z - Z.of_nat k) + -1)
      by lia.
    rewrite wrap_wrap_add. f_equal. lia.
Qed.

Lemma sum_list_with_insert {A} (f : A -> nat) (l : list A) i x old :
  l !! i = Some old ->
  (sum_list_with f (<[i := x]> l) + f old = sum_list_with f l + f x)%nat.
Proof.
  revert i. induction l as [|y l IH]; intros [|i] Hi; simpl in *; try done.
  - injection Hi as ->. lia.
  - specialize (IH i Hi). lia.
Qed.

Lemma sum_list_with_pointwise {A} (f g : A -> nat) (l l' : list A) :
  length l' = length l ->
  (forall p x, l !! p = Some x -> exists x', l' !! p = Some x' /\ g x' = f x) ->
  sum_list_with g l' = sum_list_with f l.
Proof.
  revert l'. induction l as [|y l IH]; intros [|y' l'] Hlen Hpt;
    simpl in *; try done.
  destruct (Hpt 0%nat y eq_refl) as (x' & [= <-] & ->).
  f_equal. apply IH; [lia|]. intros p x Hp. by apply (Hpt (S p)).
Qed.

Lemma sum_list_with_zero {A} (f : A -> nat) (l : list A) :
  sum_list_with f l = 0%nat <-> forall p x, l !! p = Some x -> f x = 0%nat.
Proof.
  induction l as [|y l IH]; simpl.
  - split; [by intros _ p x|done].
  - split.
    + intros Hsum [|p] x Hp; simpl in Hp.
      * injection Hp as <-. lia.
      * apply (proj1 IH ltac:(lia) p x Hp).
    + intros Hall. rewrite (Hall 0%nat y eq_refl).
      rewrite (proj2 IH); [done|]. intros p x Hp. by apply (Hall (S p)).
Qed.

(** The counter waits for nothing exactly when no unresolved node has an
    edge to [m]. *)
Lemma pending_zero h m :
  pending h m = 0%nat <->
  forall p np, h !! p = Some np -> m ∈ dependencyOf np -> status np <> None.
Proof.
  unfold pending. rewrite sum_list_with_zero. unfold pending_from. split.
  - intros Hall p np Hp Hin Hst. specialize (Hall p np Hp).
    rewrite Hst in Hall.
    apply count_occ_not_In in Hall. by apply Hall, list_elem_of_In.
  - intros Hall p np Hp. destruct (status np) eqn:Hst; [done|].
    apply count_occ_not_In. rewrite <- list_elem_of_In. intros Hin.
    by eapply Hall.
Qed.

Lemma count_occ_le_length (l : list ptr) m :
  (count_occ Nat.eq_dec l m <= length l)%nat.
Proof.
  induction l as [|x l IH]; simpl; [done|].
  destruct (Nat.eq_dec x m); lia.
Qed.

Lemma pending_le_graph_size h m : (pending h m <= graph_size h)%nat.
Proof.
  unfold pending, graph_size. induction h as [|n h IH]; simpl; [done|].
  unfold pending_from at 1. pose proof (count_occ_le_length (dependencyOf n) m).
  destruct (status n); lia.
Qed.

Lemma orderly_built h : orderly h -> built h.
Proof.
  induction 1; eauto using built.
Qed.

(** Marking [a] resolved takes its edges out of every count. *)
Lemma pending_resolved (h h' : heap) a na s :
  h !! a = Some na -> status na = None -> length h' = length h ->
  (forall p np, h !! p = Some np ->
     exists np', h' !! p = Some np' /\
       dependencyOf np' = dependencyOf np /\
       status np' = if decide (p = a) then Some s else status np) ->
  forall m,
    (pending h' m + count_occ Nat.eq_dec (dependencyOf na) m = pending h m)%nat.
Proof.
  intros Ha Hst Hlen Hpt m.
  pose proof (sum_list_with_insert (pending_from m) h a
                (set_status (Some s) na) na Ha) as Hins.
  assert (pending h' m =
          sum_list_with (pending_from m) (<[a := set_status (Some s) na]> h))
    as ->.
  { apply sum_list_with_pointwise; [by rewrite length_insert|].
    intros p x Hp. destruct (decide (a = p)) as [<-|Hne].
    - rewrite list_lookup_insert_eq in Hp by by eapply lookup_lt_Some.
      injection Hp as <-. destruct (Hpt a na Ha) as (np' & Hp' & Hd & Hs).
      exists np'. split; [done|]. unfold pending_from.
      rewrite Hs, decide_True by done. done.
    - rewrite list_lookup_insert_ne in Hp by done.
      destruct (Hpt p x Hp) as (np' & Hp' & Hd & Hs).
      exists np'. split; [done|]. unfold pending_from.
      rewrite Hs, Hd, decide_False by done. done. }
  unfold pending. unfold pending_from at 2 4 in Hins.
  cbn [status set_status] in Hins. rewrite Hst in Hins. lia.
Qed.

Lemma counters_match_resolved (h h' : heap) a na s :
  h !! a = Some na -> status na = None -> length h' = length h ->
  (forall p np, h !! p = Some np ->
     exists b, h' !! p =
       Some (set_blocked b (resolved_node a s (dependencyOf na) p np))) ->
  counters_match h -> counters_match h'.
Proof.
  intros Ha Hst Hlen Hpt Hinv m nm' Hm'.
  assert (is_Some (h !! m)) as [nm Hm].
  { apply lookup_lt_is_Some. rewrite <- Hlen. by eapply lookup_lt_Some. }
  destruct (Hpt m nm Hm) as (b & Hb).
  replace nm' with (set_blocked b (resolved_node a s (dependencyOf na) m nm))
    by congruence.
  cbn [depsRemaining set_blocked].
  rewrite resolved_node_depsRemaining, (Hinv m nm Hm), iter_decz_wrap.
  f_equal.
  pose proof (pending_resolved h h' a na s Ha Hst Hlen) as Hp.
  rewrite <- (Hp ltac:(
    intros p np Hq; destruct (Hpt p np Hq) as (b' & Hb'); eexists;
    split; [exact Hb'|]; cbn [dependencyOf status set_blocked];
    by rewrite resolved_node_dependencyOf, resolved_node_status) m).
  lia.
Qed.

Lemma orderly_counters_match h : orderly h -> counters_match h.
Proof.
  induction 1 as [|h nm p h' Ho IH Hrun|h m dep depn e h' Ho IH Hdep Hst Hrun
                  |h m e h' Ho IH Hrun|h fuel m e h' Ho IH Hrun].
  - by intros m nm Hm.
  - injection Hrun as <- <-.
    destruct (built_well_formed _ (orderly_built _ Ho)) as [Hcl _ _].
    assert (forall m, pending (h ++ [fresh_node nm]) m = pending h m) as Hpend.
    { intros m. unfold pending. rewrite sum_list_with_app. simpl.
      unfold pending_from. simpl. lia. }
    intros m nm' [Hm|[Hge Hm]]%lookup_app_Some.
    + rewrite Hpend. by apply IH.
    + destruct (m - length h)%nat eqn:Hsub; simpl in Hm; [|done].
      injection Hm as <-. rewrite Hpend.
      assert (pending h m = 0%nat) as ->; [|done].
      apply pending_zero. intros q nq Hq Hin.
      apply (Hcl _ _ _ Hq), lookup_lt_is_Some in Hin. lia.
  - pose proof (built_well_formed _ (orderly_built _ Ho)) as Hwf.
    pose proof Hrun as (depn' & mn & Hdep' & Hm & Hcase)%DependsOn_Ok.
    replace depn' with depn in * by congruence.
    destruct Hcase as [(_ & _ & ->)|(Hne & _ & Hcase)]; [done|].
    destruct Hcase as [(_ & (d & nd & Hd & Hnd & Heq) & _)
                      |(_ & _ & _ & ->)].
    { by destruct (wf_names _ Hwf _ _ _ _ Hdep Hd Hnd). }
    assert (m <> dep) as Hmd by (intros ->; congruence).
    pose proof (fun q => DependsOn_result_lookup h m dep mn depn q Hmd Hm Hdep)
      as Hlk.
    set (h' := <[m := add_dependency mn]> (<[dep := add_dependent m depn]> h))
      in *.
    assert (forall q, pending h' q =
              (pending h q + if decide (q = m) then 1 else 0)%nat) as Hpend.
    { intros q. unfold h', pending.
      pose proof (sum_list_with_insert (pending_from q) h dep
                    (add_dependent m depn) depn Hdep) as H1.
      pose proof (sum_list_with_insert (pending_from q)
                    (<[dep := add_dependent m depn]> h) m
                    (add_dependency mn) mn) as H2.
      rewrite list_lookup_insert_ne in H2 by done. specialize (H2 Hm).
      assert (pending_from q (add_dependency mn) = pending_from q mn)
        as Hsame by done.
      assert (pending_from q (add_dependent m depn) =
              (pending_from q depn + if decide (q = m) then 1 else 0)%nat)
        as Hadd.
      { unfold pending_from.
        cbn [status dependencyOf add_dependent set_dependencyOf].
        rewrite Hst, count_occ_app. simpl.
        destruct (Nat.eq_dec m q) as [->|Hmq].
        - by rewrite decide_True.
        - rewrite decide_False; [done|congruence]. }
      lia. }
    intros q nq Hq. rewrite Hlk in Hq. rewrite Hpend.
    destruct (decide (q = m)) as [->|Hqm].
    + injection Hq as <-.
      cbn [depsRemaining add_dependency set_hasDependencies set_depsRemaining].
      rewrite (IH m mn Hm), wrap_wrap_add. f_equal. lia.
    + replace (pending h q + 0)%nat with (pending h q) by lia.
      destruct (decide (q = dep)) as [->|Hqd].
      * injection Hq as <-. by apply (IH dep depn).
      * by apply IH.
  - pose proof Hrun as (n & Hn & _ & Hcase)%Pass_Ok.
    destruct (status n) eqn:Hst; [by destruct Hcase as [_ ->]|].
    destruct Hcase as (_ & _ & Hlen & Hpt).
    eapply (counters_match_resolved h h' m n false); try done.
    intros p np Hp.
    exists (blocked (resolved_node m false (dependencyOf n) p np)).
    rewrite set_blocked_same. by apply Hpt.
  - pose proof Hrun as (n & Hn & _ & Hcase)%Fail_Ok.
    destruct (status n) eqn:Hst; [by destruct Hcase as [_ ->]|].
    destruct (Fail_frame _ _ _ _ _ _ Hrun Hn Hst) as [Hlen Hpt].
    eapply (counters_match_resolved h h' m n true); try done.
    intros p np Hp. destruct (Hpt _ _ Hp) as (b & Hb & _). eauto.
Qed.

(** X8: as long as [DependsOn] is only called on dependencies that have
    not resolved yet, the counter [depsRemaining] of every node is, in
    [int], the number of its edges from dependencies that have not called
    [Pass] or [Fail]; on a graph smaller than the range of [int] it is
    that number, and it is zero exactly when every dependency of the node
    has resolved. *)
Theorem depsRemaining_counts_unresolved_dependencies h m nm :
  orderly h -> h !! m = Some nm ->
  depsRemaining nm = wrap (Z.of_nat (pending h m)) /\
  (Z.of_nat (graph_size h) < 2 ^ 63 ->
   depsRemaining nm = Z.of_nat (pending h m) /\
   (depsRemaining nm = 0 <->
    forall p np, h !! p = Some np -> m ∈ dependencyOf np ->
                 status np <> None)).
Proof.
  intros Ho Hm. pose proof (orderly_counters_match h Ho m nm Hm) as Hdr.
  split; [done|]. intros Hsize.
  pose proof (pending_le_graph_size h m) as Hle.
  assert (depsRemaining nm = Z.of_nat (pending h m)) as Heq.
  { rewrite Hdr. apply wrap_in_range. lia. }
  split; [done|]. rewrite Heq, <- pending_zero. lia.
Qed.

Lemma exec_orderly c h h' :
  orderly h -> in_order h c = true -> exec c h = Some h' -> orderly h'.
Proof.
  intros Ho Hin Hex. destruct c as [nm|m dep|m|fuel m]; simpl in Hex, Hin.
  - destruct (NewNode nm h) as [p h1|] eqn:Hrun; simplify_eq/=.
    by eapply orderly_NewNode.
  - destruct (h !! dep) as [depn|] eqn:Hdep; [|done].
    destruct (status depn) eqn:Hst; [done|].
    destruct (DependsOn m dep h) as [e h1|] eqn:Hrun; simplify_eq/=.
    by eapply orderly_DependsOn.
  - destruct (Pass m h) as [e h1|] eqn:Hrun; simplify_eq/=.
    by eapply orderly_Pass.
  - destruct (Fail fuel m h) as [e h1|] eqn:Hrun; simplify_eq/=.
    by eapply orderly_Fail.
Qed.

Lemma replay_in_order_orderly cs : forall h h',
  orderly h -> replay_in_order cs h = Some h' -> orderly h'.
Proof.
  induction cs as [|c cs IH]; intros h h' Ho Hre; simpl in Hre.
  - by simplify_eq.
  - destruct (in_order h c) eqn:Hin; [|done].
    destruct (exec c h) as [h1|] eqn:Hex; [|done].
    eapply IH; [|done]. by eapply exec_orderly.
Qed.

Lemma graph_ABDEF_in_order :
  replay_in_order graph_ABDEF_calls [] = Some graph_ABDEF.
Proof. vm_compute. reflexivity. Qed.

Lemma graph_ABDEF_orderly : orderly graph_ABDEF.
Proof.
  exact (replay_in_order_orderly _ _ _ orderly_empty graph_ABDEF_in_order).
Qed.

Lemma depsRemaining_counts_unresolved_dependencies_witness :
  orderly graph_ABDEF /\
  graph_ABDEF !! 3%nat = Some (mkNode "E" false true 1 false [4%nat] None) /\
  1 = wrap (Z.of_nat (pending graph_ABDEF 3)) /\
  (Z.of_nat (graph_size graph_ABDEF) < 2 ^ 63 ->
   1 = Z.of_nat (pending graph_ABDEF 3) /\
   (1 = 0 <->
    forall p np, graph_ABDEF !! p = Some np -> 3%nat ∈ dependencyOf np ->
                 status np <> None)).
Proof.
  split; [exact graph_ABDEF_orderly|].
  split; [reflexivity|].
  exact (depsRemaining_counts_unresolved_dependencies graph_ABDEF 3
           (mkNode "E" false true 1 false [4%nat] None)
           graph_ABDEF_orderly eq_refl).
Defined.

(** ** What Step hands out *)

Lemma unique_names_grows h h' :
  heap_grows h h' -> unique_names h' -> unique_names h.
Proof.
  intros [_ Hg] Hu p q np nq Hp Hq Hnm.
  destruct (Hg _ _ Hp) as (np' & Hp' & Hnp' & _).
  destruct (Hg _ _ Hq) as (nq' & Hq' & Hnq' & _).
  eapply Hu; [done..|congruence].
Qed.

Lemma blocked_grows h h' d nd :
  heap_grows h h' -> h !! d = Some nd -> blocked nd = true ->
  exists nd', h' !! d = Some nd' /\ blocked nd' = true.
Proof.
  intros [_ Hg] Hd Hb. destruct (Hg _ _ Hd) as (nd' & Hd' & _ & _ & Hbl & _).
  eauto.
Qed.

(** With unique names, a call of [Fail] that returns nil has blocked every
    transitive dependent other than the failed node itself. *)
Lemma Fail_marks_paths fuel h a h' :
  unique_names h -> Fail fuel a h = Ok None h' ->
  forall q, path h a q -> q <> a ->
    exists nq, h' !! q = Some nq /\ blocked nq = true.
Proof.
  intros Huniq (n & Hn & Hl & Hcase)%Fail_Ok.
  destruct (status n) eqn:Hst; [by destruct Hcase|].
  destruct Hcase as (Hnotin & Hval & h0 & h1 & n1 & Hlen & H0m & H0 & Hloop
                     & Hn1 & Hl1 & ->).
  pose proof (entry_heap_same_graph _ _ _ _ Hn Hlen H0m H0) as Hsame.
  assert (unique_names h0) as Huniq0.
  { intros p q np nq Hp Hq Hnm.
    destruct (proj2 (Hsame p) _ Hp) as (np' & Hp' & Hnp' & _).
    destruct (proj2 (Hsame q) _ Hq) as (nq' & Hq' & Hnq' & _).
    eapply Huniq; [done..|congruence]. }
  assert (forall x y, edge h x y -> edge h0 x y) as Hedge.
  { intros x y (nx & Hx & Hin).
    destruct (proj1 (Hsame x) _ Hx) as (nx0 & Hx0 & _ & Hd & _).
    exists nx0. split; [done|]. by rewrite Hd. }
  destruct (blockDependents_marks h0 a _ H0m Huniq0 fuel h1)
    as (Hlen1 & H1a & Hmarked & Hrest); [|done|].
  { intros d Hd. apply lookup_lt_is_Some. rewrite Hlen.
    by apply lookup_lt_is_Some, Hval. }
  intros q Hq Hqa. rewrite list_lookup_insert_ne by done.
  apply Hmarked; [|done]. by eapply path_same_edges.
Qed.

Lemma blockDependents_result fuel m V St h e h' :
  blockDependents fuel m V St h = Ok e h' ->
  e = None \/ e = Some CircularDependency.
Proof.
  intros Hrun.
  destruct (blockDependents_rule m (fun _ _ _ => True))
    with (fuel := fuel) (V := V) (St := St) (h := h) (e := e) (h' := h')
    as [[? _]|[? _]]; auto.
Qed.

Lemma orderly_failed_blocks h :
  orderly h -> unique_names h -> failed_blocks_dependents h.
Proof.
  induction 1 as [|h nm p h' Ho IH Hrun|h m dep depn e h' Ho IH Hdep Hst Hrun
                  |h m e h' Ho IH Hrun|h fuel m e h' Ho IH Hrun]; intros Hu.
  - by intros p np d Hp.
  - pose proof (NewNode_grows _ _ _ _ Hrun) as Hg.
    specialize (IH (unique_names_grows _ _ Hg Hu)).
    injection Hrun as <- <-.
    intros q nq d [Hq|[Hge Hq]]%lookup_app_Some Hfailed Hd.
    + destruct (IH q nq d Hq Hfailed Hd) as (nd & Hnd & Hb).
      by eapply blocked_grows.
    + destruct (q - length h)%nat; simpl in Hq; [|done].
      injection Hq as <-. done.
  - pose proof (DependsOn_grows _ _ _ _ _ Hrun) as Hg.
    specialize (IH (unique_names_grows _ _ Hg Hu)).
    pose proof (built_well_formed _ (orderly_built _ Ho)) as Hwf.
    pose proof Hrun as (depn' & mn & Hdep' & Hm & Hcase)%DependsOn_Ok.
    replace depn' with depn in * by congruence.
    destruct Hcase as [(_ & _ & ->)|(Hne & _ & Hcase)]; [done|].
    destruct Hcase as [(_ & (d & nd & Hd & Hnd & Heq) & _)
                      |(_ & _ & _ & Hh')].
    { by destruct (wf_names _ Hwf _ _ _ _ Hdep Hd Hnd). }
    assert (m <> dep) as Hmd by (intros ->; congruence).
    intros q nq d Hq Hfailed Hd. rewrite Hh' in Hq.
    rewrite (DependsOn_result_lookup h m dep mn depn q Hmd Hm Hdep) in Hq.
    assert (exists nq0, h !! q = Some nq0 /\ status nq0 = Some true /\
                        d ∈ dependencyOf nq0) as (nq0 & Hq0 & Hst0 & Hd0).
    { destruct (decide (q = m)) as [->|Hqm].
      - injection Hq as <-. by exists mn.
      - destruct (decide (q = dep)) as [->|Hqd].
        + injection Hq as <-.
          cbn [status add_dependent set_dependencyOf] in Hfailed. congruence.
        + by exists nq. }
    destruct (IH q nq0 d Hq0 Hst0 Hd0) as (nd & Hnd & Hb).
    by eapply blocked_grows.
  - pose proof (Pass_grows _ _ _ _ Hrun) as Hg.
    specialize (IH (unique_names_grows _ _ Hg Hu)).
    pose proof Hrun as (n & Hn & _ & Hcase)%Pass_Ok.
    destruct (status n) eqn:Hst; [by destruct Hcase as [_ ->]|].
    destruct Hcase as (_ & _ & Hlen & Hpt).
    intros q nq d Hq Hfailed Hd.
    assert (is_Some (h !! q)) as [nq0 Hq0].
    { apply lookup_lt_is_Some. rewrite <- Hlen. by eapply lookup_lt_Some. }
    rewrite (Hpt _ _ Hq0) in Hq. injection Hq as <-.
    rewrite resolved_node_status in Hfailed.
    rewrite resolved_node_dependencyOf in Hd.
    destruct (decide (q = m)); [done|].
    destruct (IH q nq0 d Hq0 Hfailed Hd) as (nd & Hnd & Hb).
    by eapply blocked_grows.
  - pose proof (Fail_grows _ _ _ _ _ Hrun) as Hg.
    pose proof (unique_names_grows _ _ Hg Hu) as Hu0.
    specialize (IH Hu0).
    pose proof (built_Fail_not_CircularDependency _ _ _ _ _
                  (orderly_built _ Ho) Hrun) as Hnc.
    pose proof Hrun as (n & Hn & _ & Hcase)%Fail_Ok.
    destruct (status n) eqn:Hst; [by destruct Hcase as [_ ->]|].
    destruct Hcase as (Hnotin & _ & h0 & h1 & n1 & _ & _ & _ & Hloop & _).
    destruct (Fail_frame _ _ _ _ _ _ Hrun Hn Hst) as [Hlen Hpt].
    intros q nq d Hq Hfailed Hd.
    assert (is_Some (h !! q)) as [nq0 Hq0].
    { apply lookup_lt_is_Some. rewrite <- Hlen. by eapply lookup_lt_Some. }
    destruct (Hpt _ _ Hq0) as (b & Hq' & _).
    rewrite Hq' in Hq. injection Hq as <-.
    cbn [status dependencyOf set_blocked] in Hfailed, Hd.
    rewrite resolved_node_status in Hfailed.
    rewrite resolved_node_dependencyOf in Hd.
    destruct (decide (q = m)) as [->|Hqm].
    + replace nq0 with n in * by congruence.
      assert (e = None) as ->.
      { by destruct (blockDependents_result _ _ _ _ _ _ _ Hloop). }
      apply (Fail_marks_paths fuel h m h' Hu0 Hrun d).
      * apply tc_once. by exists n.
      * intros ->. done.
    + destruct (IH q nq0 d Hq0 Hfailed Hd) as (nd & Hnd & Hb).
      by eapply blocked_grows.
Qed.

Lemma readyDependents_valid ds : forall depth h r h',
  readyDependents ds depth h = Ok r h' ->
  forall d, d ∈ ds -> is_Some (h !! d).
Proof.
  induction ds as [|d ds IH]; intros depth h r h' H d' Hd'.
  - by apply elem_of_nil in Hd'.
  - simpl in H. step_in H as n h1 Hload. apply load_Ok in Hload as [Hn ->].
    apply elem_of_cons in Hd' as [->|Hd']; [by eexists|].
    destruct (negb (blocked n) && (depsRemaining n =? 0)); by eapply IH.
Qed.

Lemma StepFrom_Ok_None nodes : forall depth h r h',
  StepFrom nodes depth h = Ok (r, None) h' ->
  h' = h /\
  (forall p, p ∈ nodes ->
     exists n, h !! p = Some n /\ status n <> None /\
       forall d, d ∈ dependencyOf n -> is_Some (h !! d)) /\
  r = depth ++ next_frontier h nodes.
Proof.
  induction nodes as [|p nodes IH]; intros depth h r h' H; simpl in H.
  - apply ret_Ok in H as [[= <-] <-]. split_and!; [done| |by rewrite app_nil_r].
    intros p Hp. by apply elem_of_nil in Hp.
  - step_in H as n h1 Hload. apply load_Ok in Hload as [Hn ->].
    destruct (status n) as [s|] eqn:Hst; [|by apply ret_Ok in H as [[=] _]].
    step_in H as depth1 h1 Hrd.
    pose proof (readyDependents_valid _ _ _ _ _ Hrd) as Hval.
    rewrite (readyDependents_run _ _ _ Hval) in Hrd. injection Hrd as <- <-.
    apply IH in H as (-> & Hres & ->). split_and!; [done| |].
    + intros q [->|Hq]%elem_of_cons; [|by apply Hres].
      exists n. rewrite Hst. by split_and!.
    + simpl. unfold dependents at 1. rewrite Hn. by rewrite app_assoc.
Qed.

(** X9: the scheduling guarantee of [Step]. On a graph with unique names
    and fewer nodes and edges than [int] can count, driven by [NewNode],
    [DependsOn] (on dependencies not yet resolved), [Pass] and [Fail], every
    node that a successful [Step] returns is a direct dependent of one of
    the given nodes, and each of its dependencies has passed: none is
    unresolved and none has failed. *)
Theorem Step_returns_nodes_whose_dependencies_passed h nodes depth h' :
  orderly h -> unique_names h -> Z.of_nat (graph_size h) < 2 ^ 63 ->
  Step nodes h = Ok (depth, None) h' ->
  forall d, d ∈ depth ->
    (exists p, p ∈ nodes /\ edge h p d) /\
    (forall p np, h !! p = Some np -> d ∈ dependencyOf np ->
       status np = Some false).
Proof.
  intros Ho Hu Hsize (-> & Hres & ->)%StepFrom_Ok_None d Hd.
  simpl in Hd. unfold next_frontier in Hd.
  apply list_elem_of_In, in_flat_map in Hd as (p & Hp & Hd).
  apply list_elem_of_In in Hp. apply list_elem_of_In in Hd.
  apply list_elem_of_filter in Hd as [Hready Hd].
  destruct (Hres p Hp) as (n & Hn & _ & _).
  unfold dependents in Hd. rewrite Hn in Hd.
  split; [exists p; split; [done|by exists n]|].
  unfold ready in Hready. destruct (h !! d) as [nd|] eqn:Hnd; [|done].
  apply andb_true_iff in Hready as [Hb Hz].
  apply negb_true_iff in Hb. apply Z.eqb_eq in Hz.
  pose proof (orderly_counters_match h Ho d nd Hnd) as Hdr.
  pose proof (pending_le_graph_size h d) as Hle.
  rewrite wrap_in_range in Hdr by lia.
  assert (pending h d = 0%nat) as Hzero by lia.
  intros q nq Hq Hin.
  pose proof (proj1 (pending_zero h d) Hzero q nq Hq Hin) as Hres'.
  destruct (status nq) as [[|]|] eqn:Hst; [|done..].
  destruct (orderly_failed_blocks h Ho Hu q nq d Hq Hst Hin)
    as (nd' & Hnd' & Hb').
  congruence.
Qed.

Lemma graph_ABDEF_unique_names : unique_names graph_ABDEF.
Proof.
  intros [|[|[|[|[|p]]]]] [|[|[|[|[|q]]]]] np nq Hp Hq Hnm;
    simpl in Hp, Hq; simplify_eq; done.
Qed.

Lemma Step_returns_nodes_whose_dependencies_passed_witness :
  orderly graph_ABDEF /\ unique_names graph_ABDEF /\
  Z.of_nat (graph_size graph_ABDEF) < 2 ^ 63 /\
  Step [0%nat; 2%nat] graph_ABDEF = Ok ([1%nat], None) graph_ABDEF /\
  forall d, d ∈ [1%nat] ->
    (exists p, p ∈ [0%nat; 2%nat] /\ edge graph_ABDEF p d) /\
    (forall p np, graph_ABDEF !! p = Some np -> d ∈ dependencyOf np ->
       status np = Some false).
Proof.
  split; [exact graph_ABDEF_orderly|].
  split; [exact graph_ABDEF_unique_names|].
  split; [vm_compute; reflexivity|].
  split; [vm_compute; reflexivity|].
  apply (Step_returns_nodes_whose_dependencies_passed graph_ABDEF
           [0%nat; 2%nat] [1%nat] graph_ABDEF graph_ABDEF_orderly
           graph_ABDEF_unique_names).
  - vm_compute. reflexivity.
  - vm_compute. reflexivity.
Defined.

Lemma graph_ABDEF_built : built graph_ABDEF.
Proof. exact (replay_built _ _ _ built_empty graph_ABDEF_replayed). Qed.

Lemma GetRootDependencies_finds_roots_witness :
  built graph_ABDEF /\
  GetRootDependencies [0; 1; 2; 3; 4]%nat graph_ABDEF
    = Ok [0; 2]%nat graph_ABDEF /\
  flags_match_edges graph_ABDEF /\ graph_ABDEF = graph_ABDEF /\
  forall p, p ∈ [0; 2]%nat <->
    p ∈ [0; 1; 2; 3; 4]%nat /\ ~ exists q, edge graph_ABDEF q p.
Proof.
  split; [exact graph_ABDEF_built|].
  split; [vm_compute; reflexivity|].
  apply (GetRootDependencies_finds_roots graph_ABDEF [0; 1; 2; 3; 4]%nat
           [0; 2]%nat graph_ABDEF graph_ABDEF_built).
  vm_compute. reflexivity.
Defined.

(** ** The calls return on built heaps *)

Lemma Pass_returns h m n :
  h !! m = Some n -> closed h -> quiescent h -> m ∉ dependencyOf n ->
  exists e h', Pass m h = Ok e h'.
Proof.
  intros Hn Hcl Hq Hnotin.
  assert (m < length h)%nat as Hm by by eapply lookup_lt_Some.
  pose proof (Hq _ _ Hn) as Hl.
  destruct (status n) as [s|] eqn:Hs.
  { exists (Some AlreadyResolved), h. unfold Pass.
    by eapply already_resolved_run. }
  destruct (forEach_decrement_run (dependencyOf n)
              (<[m := set_status (Some false) (set_locked true n)]> h))
    as [h0 Hdec].
  { intros d Hd. assert (m <> d) as Hne by (by intros ->).
    destruct (Hcl _ _ _ Hn Hd) as [nd Hnd]. exists nd.
    rewrite list_lookup_insert_ne by done. eauto. }
  pose proof Hdec as (Hlen0 & Hcnt & _)%forEach_decrement_Ok.
  unfold Pass.
  erewrite bind_run by by apply Lock_run.
  erewrite bind_run by by apply load_run, list_lookup_insert_eq.
  cbn [status set_locked]. rewrite Hs.
  erewrite (bind_run _ _ _ tt).
  2:{ apply update_Ok. eexists. split; [by apply list_lookup_insert_eq|done]. }
  rewrite list_insert_insert_eq.
  erewrite bind_run by by apply load_run, list_lookup_insert_eq.
  erewrite (bind_run _ _ _ tt) by exact Hdec.
  erewrite (bind_run _ _ _ tt).
  2:{ apply Unlock_Ok. eexists.
      split_and!; [by apply Hcnt, list_lookup_insert_eq|reflexivity..]. }
  by eexists _, _.
Qed.

Lemma built_Pass_outcome h m n :
  built h -> h !! m = Some n ->
  exists h',
    Pass m h = Ok (match status n with
                   | Some _ => Some AlreadyResolved
                   | None => None
                   end) h'.
Proof.
  intros [Hcl Hq Hnm]%built_well_formed Hn.
  destruct (Pass_returns h m n) as (e & h' & Hrun); [done..| |].
  { intros Hin. by destruct (Hnm m n m n). }
  exists h'. rewrite Hrun. f_equal.
  apply Pass_Ok in Hrun as (n' & Hn' & _ & Hcase).
  replace n' with n in * by congruence.
  destruct (status n); by destruct Hcase as [-> _].
Qed.

Lemma built_Fail_outcome h m n :
  built h -> h !! m = Some n ->
  exists h', forall fuel, (2 * graph_size h < fuel)%nat ->
    Fail fuel m h = Ok (match status n with
                        | Some _ => Some AlreadyResolved
                        | None => None
                        end) h'.
Proof.
  intros Hb Hn.
  destruct (built_Fail_returns h m n Hb Hn) as (e & h' & Hall).
  exists h'. intros fuel Hfuel. rewrite (Hall fuel Hfuel). f_equal.
  pose proof (Hall fuel Hfuel) as Hrun.
  pose proof (built_Fail_not_CircularDependency _ _ _ _ _ Hb Hrun) as Hnc.
  apply Fail_Ok in Hrun as (n' & Hn' & _ & Hcase).
  replace n' with n in * by congruence.
  destruct (status n); [by destruct Hcase as [-> _]|].
  destruct Hcase as (_ & _ & h0 & h1 & n1 & _ & _ & _ & Hloop & _).
  by destruct (blockDependents_result _ _ _ _ _ _ _ Hloop).
Qed.

(** X10: on a heap built through the API, [Pass] and [Fail] on an existing
    node never panic and never block on a mutex: they return nil on an
    unresolved node and AlreadyResolved on a resolved one, and nothing
    else; for [Fail] this holds for every bound on the traversal above
    twice the size of the graph, with one and the same final heap. *)
Theorem Pass_and_Fail_return_on_built_heaps h m n :
  built h -> h !! m = Some n ->
  (exists h', Pass m h = Ok (match status n with
                             | Some _ => Some AlreadyResolved
                             | None => None
                             end) h') /\
  (exists h', forall fuel, (2 * graph_size h < fuel)%nat ->
     Fail fuel m h = Ok (match status n with
                         | Some _ => Some AlreadyResolved
                         | None => None
                         end) h').
Proof.
  intros Hb Hn. split.
  - by apply built_Pass_outcome.
  - by apply built_Fail_outcome.
Qed.

Lemma Pass_and_Fail_return_on_built_heaps_witness :
  built graph_ABDEF /\
  graph_ABDEF !! 1%nat = Some (mkNode "B" false true 0 false [3%nat] None) /\
  (exists h', Pass 1 graph_ABDEF = Ok None h') /\
  (exists h', forall fuel, (2 * graph_size graph_ABDEF < fuel)%nat ->
     Fail fuel 1 graph_ABDEF = Ok None h').
Proof.
  split; [exact graph_ABDEF_built|].
  split; [reflexivity|].
  exact (Pass_and_Fail_return_on_built_heaps graph_ABDEF 1
           (mkNode "B" false true 0 false [3%nat] None)
           graph_ABDEF_built eq_refl).
Defined.

Lemma duplicateFound_run dep ds : forall h depn,
  h !! dep = Some depn ->
  (forall d, d ∈ ds -> exists nd, h !! d = Some nd /\ name nd <> name depn) ->
  duplicateFound dep ds h = Ok false h.
Proof.
  induction ds as [|d ds IH]; intros h depn Hdep Hall; simpl; [done|].
  destruct (Hall d) as (nd & Hnd & Hne); [by left|].
  rewrite (bind_run _ _ _ _ _ (load_run _ _ _ Hnd)).
  rewrite (bind_run _ _ _ _ _ (load_run _ _ _ Hdep)).
  destruct (String.eqb_spec (name nd) (name depn)); [done|].
  eapply IH; [done|]. intros d' Hd'. apply Hall. by right.
Qed.

Lemma DependsOn_returns h m dep mn depn :
  h !! m = Some mn -> h !! dep = Some depn ->
  locked mn = false -> locked depn = false ->
  (forall d, d ∈ dependencyOf depn ->
     exists nd, h !! d = Some nd /\ name nd <> name depn) ->
  exists e h', DependsOn m dep h = Ok e h'.
Proof.
  intros Hm Hdep Hlm Hld Hall. unfold DependsOn.
  rewrite (bind_run _ _ _ _ _ (load_run _ _ _ Hdep)).
  rewrite (bind_run _ _ _ _ _ (load_run _ _ _ Hm)).
  destruct (String.eqb_spec (name depn) (name mn)) as [Heq|Hne];
    [by eexists _, _|].
  assert (m <> dep) as Hmd by (intros ->; congruence).
  assert (m < length h)%nat as Hmlt by by eapply lookup_lt_Some.
  assert (dep < length h)%nat as Hdlt by by eapply lookup_lt_Some.
  erewrite (bind_run _ _ _ tt) by by apply Lock_run.
  erewrite bind_run by by apply load_run, list_lookup_insert_eq.
  erewrite (bind_run _ _ _ false).
  2:{ apply (duplicateFound_run dep _ _ (set_locked true depn));
        [by apply list_lookup_insert_eq|].
      intros d Hd. destruct (Hall d Hd) as (nd & Hnd & Hne').
      exists nd. split; [|done].
      rewrite list_lookup_insert_ne; [done|]. intros <-. congruence. }
  cbv iota.
  erewrite (bind_run _ _ _ tt).
  2:{ apply update_Ok. eexists. split; [by apply list_lookup_insert_eq|done]. }
  erewrite (bind_run _ _ _ tt).
  2:{ apply Unlock_Ok. eexists. split_and!;
        [apply list_lookup_insert_eq; by rewrite length_insert
        |reflexivity..]. }
  erewrite (bind_run _ _ _ tt).
  2:{ apply Lock_Ok. exists mn. split_and!; [|done..].
      by rewrite !list_lookup_insert_ne. }
  erewrite (bind_run _ _ _ tt).
  2:{ apply update_Ok. eexists. split; [|done].
      apply list_lookup_insert_eq. by rewrite !length_insert. }
  erewrite (bind_run _ _ _ tt).
  2:{ apply update_Ok. eexists. split; [|done].
      apply list_lookup_insert_eq. by rewrite !length_insert. }
  erewrite (bind_run _ _ _ tt).
  2:{ apply Unlock_Ok. eexists.
      split_and!;
        [apply list_lookup_insert_eq; by rewrite !length_insert
        |reflexivity..]. }
  by eexists _, _.
Qed.

Lemma built_DependsOn_outcome h m dep mn depn :
  built h -> h !! m = Some mn -> h !! dep = Some depn ->
  DependsOn m dep h =
    if String.eqb (name depn) (name mn) then Ok (Some SelfDependency) h
    else Ok None
           (<[m := add_dependency mn]> (<[dep := add_dependent m depn]> h)).
Proof.
  intros Hwf%built_well_formed Hm Hdep.
  pose proof Hwf as [Hcl Hq Hnm].
  destruct (DependsOn_returns h m dep mn depn) as (e & h' & Hrun);
    [done|done|by eapply Hq|by eapply Hq| |].
  { intros d Hd. destruct (Hcl _ _ _ Hdep Hd) as [nd Hnd].
    exists nd. split; [done|]. by eapply Hnm. }
  rewrite Hrun.
  pose proof Hrun as (depn' & mn' & Hdep' & Hm' & Hcase)%DependsOn_Ok.
  replace depn' with depn in * by congruence.
  replace mn' with mn in * by congruence.
  destruct (String.eqb_spec (name depn) (name mn)) as [Heq|Hne].
  - destruct Hcase as [(_ & -> & ->)|(Hne & _)]; done.
  - destruct Hcase as [(Heq & _)|(_ & _ & Hcase)]; [done|].
    destruct Hcase as [(_ & (d & nd & Hd & Hnd & Heq) & _)
                      |(-> & _ & _ & ->)]; [|done].
    by destruct (Hnm _ _ _ _ Hdep Hd Hnd).
Qed.

(** X11: on a heap built through the API, [DependsOn] between two existing
    nodes never panics or blocks and has one of two outcomes, decided by
    the names alone: SelfDependency with the heap unchanged when the names
    are equal, and otherwise nil, with [m] appended to the dependents of
    [dep], the counter of [m] incremented and [hasDependencies] set;
    whether [dep] has resolved, is blocked, or already has [m] as a
    dependent makes no difference, and DuplicateDependency never comes
    back. *)
Theorem DependsOn_on_built_heaps h m dep mn depn :
  built h -> h !! m = Some mn -> h !! dep = Some depn ->
  DependsOn m dep h =
    if String.eqb (name depn) (name mn) then Ok (Some SelfDependency) h
    else Ok None
           (<[m := add_dependency mn]> (<[dep := add_dependent m depn]> h)).
Proof. apply built_DependsOn_outcome. Qed.

Lemma DependsOn_on_built_heaps_witness :
  built graph_ABDEF /\
  DependsOn 4 0 graph_ABDEF =
    Ok None
      [ mkNode "A" false false 0 false [1%nat; 4%nat] (Some false);
        mkNode "B" false true 0 false [3%nat] None;
        mkNode "D" false false 0 false [3%nat] (Some false);
        mkNode "E" false true 1 false [4%nat] None;
        mkNode "F" false true 2 false [] None ].
Proof.
  split; [exact graph_ABDEF_built|].
  exact (DependsOn_on_built_heaps graph_ABDEF 4 0
           (mkNode "F" false true 1 false [] None)
           (mkNode "A" false false 0 false [1%nat] (Some false))
           graph_ABDEF_built eq_refl eq_refl).
Defined.

(** ** Lists of dependencies *)

Lemma name_at_insert (h : heap) i x n :
  h !! i = Some n -> name x = name n ->
  forall p, name_at (<[i := x]> h) p = name_at h p.
Proof.
  intros Hi Hnm p. unfold name_at. destruct (decide (i = p)) as [<-|Hne].
  - rewrite list_lookup_insert_eq by by eapply lookup_lt_Some.
    by rewrite Hi.
  - by rewrite list_lookup_insert_ne.
Qed.

Lemma DependsOn_name_at m dep h e h' :
  DependsOn m dep h = Ok e h' -> forall p, name_at h' p = name_at h p.
Proof.
  intros (depn & mn & Hdep & Hm & Hcase)%DependsOn_Ok p.
  destruct Hcase as [(_ & _ & ->)
                    |(Hne & _ & [(_ & _ & ->)|(_ & _ & _ & ->)])].
  - done.
  - by apply (name_at_insert h dep _ depn).
  - assert (m <> dep) as Hmd by (intros ->; congruence).
    rewrite (name_at_insert _ m _ mn); [|by rewrite list_lookup_insert_ne|done].
    by apply (name_at_insert h dep _ depn).
Qed.

Lemma DependsOnListFrom_Ok m deps : forall seen (names : list string) h e h',
  (forall nm, visited_at seen nm = true <-> nm ∈ names) ->
  DependsOnListFrom m seen deps h = Ok e h' ->
  match e with
  | None =>
      (forall d, d ∈ deps -> name_at h d ∉ names) /\
      NoDup (map (name_at h) deps) /\
      ModuleDependsOnList m deps h = Ok None h'
  | Some err =>
      exists done dep rest h1,
        deps = done ++ dep :: rest /\
        (forall d, d ∈ done -> name_at h d ∉ names) /\
        NoDup (map (name_at h) done) /\
        ModuleDependsOnList m done h = Ok None h1 /\
        ((err = DuplicateInList (name_at h dep) /\
          (name_at h dep ∈ names \/ name_at h dep ∈ map (name_at h) done) /\
          h' = h1) \/
         ((name_at h dep ∉ names) /\
          (name_at h dep ∉ map (name_at h) done) /\
          DependsOn m dep h1 = Ok (Some err) h'))
  end.
Proof.
  induction deps as [|dep deps IH]; intros seen names h e h' Hseen Hrun;
    simpl in Hrun.
  { apply ret_Ok in Hrun as [<- <-]. split_and!; [|constructor|done].
    intros d Hd. by apply elem_of_nil in Hd. }
  step_in Hrun as depn h0 Hload. apply load_Ok in Hload as [Hdep ->].
  assert (name_at h dep = name depn) as Hnm
    by (unfold name_at; by rewrite Hdep).
  destruct (visited_at seen (name depn)) eqn:Hv.
  { apply ret_Ok in Hrun as [<- <-]. exists [], dep, deps, h.
    split_and!; [done| |constructor|done|].
    - intros d Hd. by apply elem_of_nil in Hd.
    - left. rewrite Hnm. split_and!; [done| |done]. left. by apply Hseen. }
  assert (name depn ∉ names) as Hfresh.
  { intros Hin. apply Hseen in Hin. congruence. }
  step_in Hrun as err h1 Hdo. destruct err as [err|].
  { apply ret_Ok in Hrun as [<- <-]. exists [], dep, deps, h.
    split_and!; [done| |constructor|done|].
    - intros d Hd. by apply elem_of_nil in Hd.
    - right. rewrite Hnm. split_and!; [done| |done].
      simpl. apply not_elem_of_nil. }
  pose proof (DependsOn_name_at _ _ _ _ _ Hdo) as Hna.
  apply (IH _ (name depn :: names)) in Hrun.
  2:{ intros nm. rewrite visited_at_insert, elem_of_cons.
      destruct (decide (name depn = nm)) as [->|Hne].
      - split; [by left|done].
      - rewrite Hseen. split; [by right|]. by intros [->|?]. }
  destruct e as [err|].
  - destruct Hrun as (done & dep' & rest & h2 & -> & Hout & Hnd & Hreg & Hcase).
    rewrite (map_ext _ _ Hna) in Hnd, Hcase. rewrite (Hna dep') in Hcase.
    exists (dep :: done), dep', rest, h2. split_and!.
    + done.
    + intros d [->|Hd]%elem_of_cons; [by rewrite Hnm|].
      specialize (Hout d Hd). rewrite Hna in Hout.
      intros Hin. apply Hout. by right.
    + simpl. constructor; [|done]. rewrite Hnm.
      intros (d & Hd & Hin)%list_elem_of_fmap.
      specialize (Hout d Hin). rewrite Hna in Hout. apply Hout.
      rewrite <- Hd. by left.
    + simpl. by rewrite (bind_run _ _ _ _ _ Hdo).
    + destruct Hcase as [(-> & Hin & ->)|(Hn1 & Hn2 & Hdo')].
      * left. split_and!; [done| |done].
        destruct Hin as [[Heq|Hin]%elem_of_cons|Hin].
        -- right. simpl. rewrite Hnm, Heq. by left.
        -- by left.
        -- right. simpl. by right.
      * right. split_and!; [| |done].
        -- intros Hin. apply Hn1. by right.
        -- simpl. rewrite Hnm. intros [Heq|Hin]%elem_of_cons; [|done].
           apply Hn1. rewrite Heq. by left.
  - destruct Hrun as (Hout & Hnd & Hreg).
    rewrite (map_ext _ _ Hna) in Hnd.
    split_and!.
    + intros d [->|Hd]%elem_of_cons; [by rewrite Hnm|].
      specialize (Hout d Hd). rewrite Hna in Hout.
      intros Hin. apply Hout. by right.
    + simpl. constructor; [|done]. rewrite Hnm.
      intros (d & Hd & Hin)%list_elem_of_fmap.
      specialize (Hout d Hin). rewrite Hna in Hout. apply Hout.
      rewrite <- Hd. by left.
    + simpl. by rewrite (bind_run _ _ _ _ _ Hdo).
Qed.

Lemma DependsOnList_Ok_None m deps h h' :
  DependsOnList m deps h = Ok None h' ->
  NoDup (map (name_at h) deps) /\ ModuleDependsOnList m deps h = Ok None h'.
Proof.
  intros Hrun. apply (DependsOnListFrom_Ok m deps ∅ []) in Hrun.
  - by destruct Hrun as (_ & ? & ?).
  - intros nm. rewrite visited_at_empty. split; [done|].
    by intros ?%elem_of_nil.
Qed.

(** X12: [DependsOnList] of [Node] is the loop of the [Module] version
    behind a check of the names. It returns nil exactly as that loop does
    on a list whose nodes carry pairwise distinct names. When it returns an
    error, the dependencies before the offending one have been registered
    and stay registered: the error is DuplicateInList when the name of the
    offending node already occurred in the list, with nothing done for that
    node, and otherwise it is the error of [DependsOn] on that node. *)
Theorem DependsOnList_checks_names_then_registers m deps h e h' :
  DependsOnList m deps h = Ok e h' ->
  match e with
  | None =>
      NoDup (map (name_at h) deps) /\
      ModuleDependsOnList m deps h = Ok None h'
  | Some err =>
      exists done dep rest h1,
        deps = done ++ dep :: rest /\
        NoDup (map (name_at h) done) /\
        ModuleDependsOnList m done h = Ok None h1 /\
        ((err = DuplicateInList (name_at h dep) /\
          name_at h dep ∈ map (name_at h) done /\ h' = h1) \/
         ((name_at h dep ∉ map (name_at h) done) /\
          DependsOn m dep h1 = Ok (Some err) h'))
  end.
Proof.
  intros Hrun. apply (DependsOnListFrom_Ok m deps ∅ []) in Hrun.
  2:{ intros nm. rewrite visited_at_empty. split; [done|].
      by intros ?%elem_of_nil. }
  destruct e as [err|].
  - destruct Hrun as (done & dep & rest & h1 & -> & _ & Hnd & Hreg & Hcase).
    exists done, dep, rest, h1. split_and!; [done..|].
    destruct Hcase as [(-> & [Hin|Hin] & ->)|(_ & Hn & Hdo)].
    + by apply elem_of_nil in Hin.
    + by left.
    + by right.
  - by destruct Hrun as (_ & ? & ?).
Qed.

Lemma DependsOnList_checks_names_then_registers_witness :
  DependsOnList 4 [0; 2; 0]%nat graph_ABDEF =
    Ok (Some (DuplicateInList "A"))
      [ mkNode "A" false false 0 false [1%nat; 4%nat] (Some false);
        mkNode "B" false true 0 false [3%nat] None;
        mkNode "D" false false 0 false [3%nat; 4%nat] (Some false);
        mkNode "E" false true 1 false [4%nat] None;
        mkNode "F" false true 3 false [] None ] /\
  exists done dep rest h1,
    [0; 2; 0]%nat = done ++ dep :: rest /\
    NoDup (map (name_at graph_ABDEF) done) /\
    ModuleDependsOnList 4 done graph_ABDEF = Ok None h1 /\
    ((DuplicateInList "A" = DuplicateInList (name_at graph_ABDEF dep) /\
      name_at graph_ABDEF dep ∈ map (name_at graph_ABDEF) done /\
      [ mkNode "A" false false 0 false [1%nat; 4%nat] (Some false);
        mkNode "B" false true 0 false [3%nat] None;
        mkNode "D" false false 0 false [3%nat; 4%nat] (Some false);
        mkNode "E" false true 1 false [4%nat] None;
        mkNode "F" false true 3 false [] None ] = h1) \/
     ((name_at graph_ABDEF dep ∉ map (name_at graph_ABDEF) done) /\
      DependsOn 4 dep h1 =
        Ok (Some (DuplicateInList "A"))
          [ mkNode "A" false false 0 false [1%nat; 4%nat] (Some false);
            mkNode "B" false true 0 false [3%nat] None;
            mkNode "D" false false 0 false [3%nat; 4%nat] (Some false);
            mkNode "E" false true 1 false [4%nat] None;
            mkNode "F" false true 3 false [] None ])).
Proof.
  assert (DependsOnList 4 [0; 2; 0]%nat graph_ABDEF =
    Ok (Some (DuplicateInList "A"))
      [ mkNode "A" false false 0 false [1%nat; 4%nat] (Some false);
        mkNode "B" false true 0 false [3%nat] None;
        mkNode "D" false false 0 false [3%nat; 4%nat] (Some false);
        mkNode "E" false true 1 false [4%nat] None;
        mkNode "F" false true 3 false [] None ]) as Hrun
    by (vm_compute; reflexivity).
  split; [exact Hrun|].
  exact (DependsOnList_checks_names_then_registers 4 [0; 2; 0]%nat
           graph_ABDEF _ _ Hrun).
Defined.

Lemma iter_add_dependency k : forall mn,
  dependencyOf (Nat.iter k add_dependency mn) = dependencyOf mn /\
  name (Nat.iter k add_dependency mn) = name mn /\
  (k <> 0%nat ->
   depsRemaining (Nat.iter k add_dependency mn) =
     wrap (depsRemaining mn + Z.of_nat k) /\
   hasDependencies (Nat.iter k add_dependency mn) = true).
Proof.
  induction k as [|k IH]; intros mn; [done|].
  change (Nat.iter (S k) add_dependency mn)
    with (add_dependency (Nat.iter k add_dependency mn)).
  destruct (IH mn) as (Hd & Hn & Hk).
  split_and!; [done|done|]. intros _. split; [|done].
  cbn [depsRemaining add_dependency set_hasDependencies set_depsRemaining].
  destruct k as [|k]; [simpl; f_equal; lia|].
  destruct Hk as [-> _]; [done|].
  rewrite wrap_wrap_add. f_equal. lia.
Qed.

Lemma ModuleDependsOnList_Ok_None m deps : forall h h' mn,
  ModuleDependsOnList m deps h = Ok None h' -> h !! m = Some mn ->
  (m ∉ deps) /\ length h' = length h /\
  h' !! m = Some (Nat.iter (length deps) add_dependency mn) /\
  forall dep depn, dep <> m -> h !! dep = Some depn ->
    exists depn', h' !! dep = Some depn' /\ name depn' = name depn /\
      dependencyOf depn' =
        dependencyOf depn ++ replicate (count_occ Nat.eq_dec deps dep) m.
Proof.
  induction deps as [|dep deps IH]; intros h h' mn Hrun Hm; simpl in Hrun.
  { apply ret_Ok in Hrun as [_ <-]. split_and!; [apply not_elem_of_nil|done..|].
    intros dep depn _ Hdep. exists depn. by rewrite app_nil_r. }
  step_in Hrun as err h1 Hdo. destruct err as [err|];
    [by apply ret_Ok in Hrun as [[=] _]|].
  pose proof Hdo as (depn & mn' & Hdep & Hm' & Hcase)%DependsOn_Ok.
  replace mn' with mn in * by congruence.
  destruct Hcase as [(_ & [=] & _)|(Hne & _ & [([=] & _)|(_ & _ & _ & ->)])].
  assert (m <> dep) as Hmd by (intros ->; congruence).
  pose proof (fun q => DependsOn_result_lookup h m dep mn depn q Hmd Hm Hdep)
    as Hlk.
  destruct (IH _ _ (add_dependency mn) Hrun) as (Hnotin & Hlen & Hm1 & Hdeps).
  { by rewrite Hlk, decide_True. }
  split_and!.
  - intros [->|Hin]%elem_of_cons; done.
  - by rewrite Hlen, !length_insert.
  - rewrite Hm1. f_equal. change (length (dep :: deps)) with (S (length deps)).
    by rewrite Nat.iter_succ_r.
  - intros d dn Hdm Hd.
    destruct (Hdeps d (if decide (d = dep) then add_dependent m depn else dn))
      as (dn' & Hdn' & Hnm' & Hds'); [done| |].
    { rewrite Hlk, decide_False by done.
      destruct (decide (d = dep)) as [->|?]; [done|done]. }
    exists dn'. split; [done|]. simpl.
    destruct (decide (d = dep)) as [->|Hne'].
    + replace dn with depn in * by congruence.
      split; [done|]. rewrite Hds'.
      cbn [dependencyOf add_dependent set_dependencyOf].
      destruct (Nat.eq_dec dep dep); [|done].
      by rewrite <- app_assoc.
    + split; [done|]. rewrite Hds'.
      destruct (Nat.eq_dec dep d); [congruence|done].
Qed.

(** X13: a call of the [Module] method [DependsOnList] that returns nil has
    run [DependsOn] once per entry of the list, repetitions included: [m]
    is not in the list, the counter of [m] has gone up by the length of the
    list and its [hasDependencies] is set, and every node has got [m]
    appended to its dependents once per occurrence in the list. *)
Theorem ModuleDependsOnList_registers_every_entry m deps h h' mn :
  ModuleDependsOnList m deps h = Ok None h' -> h !! m = Some mn ->
  (m ∉ deps) /\
  (exists mn', h' !! m = Some mn' /\
     dependencyOf mn' = dependencyOf mn /\
     (deps <> [] ->
      depsRemaining mn' =
        wrap (depsRemaining mn + Z.of_nat (length deps)) /\
      hasDependencies mn' = true)) /\
  (forall dep depn, dep <> m -> h !! dep = Some depn ->
     exists depn', h' !! dep = Some depn' /\
       dependencyOf depn' =
         dependencyOf depn ++ replicate (count_occ Nat.eq_dec deps dep) m).
Proof.
  intros Hrun Hm.
  destruct (ModuleDependsOnList_Ok_None m deps h h' mn Hrun Hm)
    as (Hnotin & _ & Hm' & Hdeps).
  destruct (iter_add_dependency (length deps) mn) as (Hd & _ & Hk).
  split_and!; [done| |].
  - eexists. split_and!; [done..|]. intros Hne. apply Hk.
    by destruct deps.
  - intros dep depn Hne Hdep.
    destruct (Hdeps dep depn Hne Hdep) as (depn' & ? & _ & ?). eauto.
Qed.

Lemma ModuleDependsOnList_registers_every_entry_witness :
  ModuleDependsOnList 1 [0; 0]%nat edge_ab =
    Ok None [ mkNode "a" false false 0 false [1; 1; 1]%nat None;
              mkNode "b" false true 3 false [] None ] /\
  edge_ab !! 1%nat = Some (mkNode "b" false true 1 false [] None) /\
  (1%nat ∉ [0; 0]%nat) /\
  (exists mn',
     [ mkNode "a" false false 0 false [1; 1; 1]%nat None;
       mkNode "b" false true 3 false [] None ] !! 1%nat = Some mn' /\
     dependencyOf mn' = [] /\
     ([0; 0]%nat <> [] ->
      depsRemaining mn' = wrap (1 + Z.of_nat (length [0; 0]%nat)) /\
      hasDependencies mn' = true)) /\
  (forall dep depn, dep <> 1%nat -> edge_ab !! dep = Some depn ->
     exists depn',
       [ mkNode "a" false false 0 false [1; 1; 1]%nat None;
         mkNode "b" false true 3 false [] None ] !! dep = Some depn' /\
       dependencyOf depn' =
         dependencyOf depn ++
           replicate (count_occ Nat.eq_dec [0; 0]%nat dep) 1%nat).
Proof.
  assert (ModuleDependsOnList 1 [0; 0]%nat edge_ab =
    Ok None [ mkNode "a" false false 0 false [1; 1; 1]%nat None;
              mkNode "b" false true 3 false [] None ]) as Hrun
    by (vm_compute; reflexivity).
  split; [exact Hrun|]. split; [reflexivity|].
  exact (ModuleDependsOnList_registers_every_entry 1 [0; 0]%nat edge_ab _
           (mkNode "b" false true 1 false [] None) Hrun eq_refl).
Defined.

Lemma fold_left_snoc_map {A B} (f : A -> B) (l : list A) : forall acc,
  fold_left (fun l x => l ++ [f x]) l acc = acc ++ map f l.
Proof.
  induction l as [|x l IH]; intros acc; simpl.
  - by rewrite app_nil_r.
  - by rewrite IH, <- app_assoc.
Qed.

(** X14: the method [DependsOn] of a job hands the nodes of the listed
    jobs, in their order, to [DependsOnList]. When it returns nil the
    listed jobs have pairwise distinct names, none of them is the job
    itself, and each of their nodes has the node of the job among its
    dependents. *)
Theorem JobDependsOn_registers_the_job {J} (j : jobNode J)
    (jobs : list (jobNode J)) h :
  JobDependsOn j jobs h = DependsOnList (node j) (map node jobs) h /\
  forall h', JobDependsOn j jobs h = Ok None h' ->
    is_Some (h !! node j) ->
    NoDup (map (fun jb => name_at h (node jb)) jobs) /\
    forall jb, jb ∈ jobs ->
      node jb <> node j /\
      exists depn', h' !! node jb = Some depn' /\
                    node j ∈ dependencyOf depn'.
Proof.
  assert (JobDependsOn j jobs h = DependsOnList (node j) (map node jobs) h)
    as Heq.
  { unfold JobDependsOn. by rewrite fold_left_snoc_map. }
  split; [done|]. intros h' Hrun [mn Hm]. rewrite Heq in Hrun.
  apply DependsOnList_Ok_None in Hrun as [Hnd Hrun].
  split; [by rewrite map_map in Hnd|].
  destruct (ModuleDependsOnList_Ok_None _ _ _ _ mn Hrun Hm)
    as (Hnotin & _ & _ & Hdeps).
  intros jb Hjb.
  assert (node jb ∈ map node jobs) as Hin by by apply list_elem_of_fmap_2.
  assert (node jb <> node j) as Hne by (intros Heq'; by rewrite Heq' in Hin).
  split; [done|].
  assert (is_Some (h !! node jb)) as [depn Hdep].
  { clear -Hrun Hin. revert h Hrun.
    induction (map node jobs) as [|d ds IH]; intros h Hrun;
      [by apply elem_of_nil in Hin|].
    simpl in Hrun. step_in Hrun as err h1 Hdo.
    destruct err as [err|]; [by apply ret_Ok in Hrun as [[=] _]|].
    pose proof Hdo as (depn & mn & Hdep & _)%DependsOn_Ok.
    apply elem_of_cons in Hin as [->|Hin]; [by eexists|].
    destruct (IH Hin h1 Hrun) as [x Hx].
    apply lookup_lt_is_Some. apply lookup_lt_Some in Hx.
    destruct (DependsOn_grows _ _ _ _ _ Hdo) as [_ Hg].
    pose proof (DependsOn_name_at _ _ _ _ _ Hdo) as Hna.
    apply DependsOn_Ok in Hdo as (? & ? & ? & ? & Hcase).
    destruct Hcase as [(_ & _ & ->)|(_ & _ & [(_ & _ & ->)|(_ & _ & _ & ->)])];
      by rewrite ?length_insert in Hx. }
  destruct (Hdeps _ _ Hne Hdep) as (depn' & Hdep' & _ & Hds).
  exists depn'. split; [done|]. rewrite Hds. apply elem_of_app. right.
  apply list_elem_of_In in Hin.
  apply (count_occ_In Nat.eq_dec) in Hin.
  destruct (count_occ Nat.eq_dec (map node jobs) (node jb)); [lia|].
  by left.
Qed.

Lemma JobDependsOn_registers_the_job_witness :
  JobDependsOn (mkJob tt 1%nat) [mkJob tt 0%nat]
    [fresh_node "a"; fresh_node "b"] = Ok None edge_ab /\
  is_Some ([fresh_node "a"; fresh_node "b"] !! 1%nat) /\
  NoDup (map (fun jb : jobNode unit =>
                name_at [fresh_node "a"; fresh_node "b"] (node jb))
             [mkJob tt 0%nat]) /\
  forall jb : jobNode unit, jb ∈ [mkJob tt 0%nat] ->
    node jb <> 1%nat /\
    exists depn', edge_ab !! node jb = Some depn' /\
                  1%nat ∈ dependencyOf depn'.
Proof.
  assert (JobDependsOn (mkJob tt 1%nat) [mkJob tt 0%nat]
            [fresh_node "a"; fresh_node "b"] = Ok None edge_ab) as Hrun
    by (vm_compute; reflexivity).
  assert (is_Some ([fresh_node "a"; fresh_node "b"] !! 1%nat)) as Hm
    by (by eexists).
  split; [exact Hrun|]. split; [exact Hm|].
  exact (proj2 (JobDependsOn_registers_the_job (mkJob tt 1%nat)
                  [mkJob tt 0%nat] [fresh_node "a"; fresh_node "b"])
               edge_ab Hrun Hm).
Defined.

(** ** Running a job *)

Lemma resolved_status_after (h h' : heap) m n s :
  h !! m = Some n -> length h' = length h ->
  (forall p np, h !! p = Some np ->
     exists b, h' !! p =
       Some (set_blocked b (resolved_node m s (dependencyOf n) p np))) ->
  exists n', h' !! m = Some n' /\ status n' = Some s.
Proof.
  intros Hn Hlen Hpt. destruct (Hpt m n Hn) as (b & Hb).
  eexists. split; [done|]. cbn [status set_blocked].
  by rewrite resolved_node_status, decide_True.
Qed.

Lemma built_Fail_resolves h m n fuel :
  built h -> h !! m = Some n -> status n = None ->
  (2 * graph_size h < fuel)%nat ->
  exists h' n', Fail fuel m h = Ok None h' /\
    h' !! m = Some n' /\ status n' = Some true /\ heap_grows h h'.
Proof.
  intros Hb Hn Hst Hfuel.
  destruct (built_Fail_outcome h m n Hb Hn) as (h' & Hall).
  specialize (Hall fuel Hfuel). rewrite Hst in Hall.
  destruct (Fail_frame _ _ _ _ _ _ Hall Hn Hst) as [Hlen Hpt].
  destruct (resolved_status_after h h' m n true Hn Hlen) as (n' & Hn' & Hs').
  { intros p np Hp. destruct (Hpt p np Hp) as (b & ? & _). eauto. }
  exists h', n'. split_and!; [done..|]. by eapply Fail_grows.
Qed.

Lemma built_Pass_resolves h m n :
  built h -> h !! m = Some n -> status n = None ->
  exists h' n', Pass m h = Ok None h' /\
    h' !! m = Some n' /\ status n' = Some false /\ heap_grows h h'.
Proof.
  intros Hb Hn Hst.
  destruct (built_Pass_outcome h m n Hb Hn) as (h' & Hrun).
  rewrite Hst in Hrun.
  pose proof Hrun as (n0 & Hn0 & _ & Hcase)%Pass_Ok.
  replace n0 with n in * by congruence. rewrite Hst in Hcase.
  destruct Hcase as (_ & _ & Hlen & Hpt).
  destruct (resolved_status_after h h' m n false Hn Hlen) as (n' & Hn' & Hs').
  { intros p np Hp.
    exists (blocked (resolved_node m false (dependencyOf n) p np)).
    rewrite set_blocked_same. by apply Hpt. }
  exists h', n'. split_and!; [done..|]. by eapply Pass_grows.
Qed.

(** X15: [Run] resolves the node of the job with the verdict of the job.
    When the job has returned and has left a heap built through the API in
    which its node is unresolved, [Run] returns, for every sufficient bound
    on the traversal: the node is then failed if the job returned an error
    or a non-empty list of validation errors, and passed otherwise; the
    error of the job comes back as it is, with no list, and without an
    error the list of the job comes back. Nothing else in the graph
    shrinks. *)
Theorem Run_resolves_the_node {E} fuel (j : jobNode (job_fn E)) h
    (res : list E) (err : option E) h1 n :
  job j h = Ok (res, err) h1 -> built h1 ->
  h1 !! node j = Some n -> status n = None ->
  (2 * graph_size h1 < fuel)%nat ->
  exists h' n',
    Run fuel j h =
      Ok (match err with Some _ => [] | None => res end,
          match err with Some x => Some (JobError x) | None => None end) h' /\
    h' !! node j = Some n' /\
    status n' = Some (match err with
                      | Some _ => true
                      | None => (0 <? length res)%nat
                      end) /\
    heap_grows h1 h'.
Proof.
  intros Hjob Hb Hn Hst Hfuel. unfold Run.
  rewrite (bind_run _ _ _ _ _ Hjob). cbn [fst snd].
  destruct err as [x|].
  - destruct (built_Fail_resolves h1 (node j) n fuel Hb Hn Hst Hfuel)
      as (h' & n' & Hrun & Hn' & Hs' & Hg).
    exists h', n'. by rewrite (bind_run _ _ _ _ _ Hrun).
  - destruct (0 <? length res)%nat eqn:Hres.
    + destruct (built_Fail_resolves h1 (node j) n fuel Hb Hn Hst Hfuel)
        as (h' & n' & Hrun & Hn' & Hs' & Hg).
      exists h', n'. by rewrite (bind_run _ _ _ _ _ Hrun).
    + destruct (built_Pass_resolves h1 (node j) n Hb Hn Hst)
        as (h' & n' & Hrun & Hn' & Hs' & Hg).
      exists h', n'. rewrite (bind_run _ _ _ _ _ Hrun).
      split_and!; [|done..].
      apply Nat.ltb_ge in Hres. by destruct res; [|simpl in Hres; lia].
Qed.

Lemma single_a_built : built [fresh_node "a"].
Proof.
  exact (replay_built [CallNewNode "a"] [] _ built_empty eq_refl).
Qed.

Lemma Run_resolves_the_node_witness :
  job validating_job [fresh_node "a"]
    = Ok (["validation failed"], None) [fresh_node "a"] /\
  built [fresh_node "a"] /\
  (2 * graph_size [fresh_node "a"] < 3)%nat /\
  exists h' n',
    Run 3 validating_job [fresh_node "a"]
      = Ok (["validation failed"], None) h' /\
    h' !! 0%nat = Some n' /\ status n' = Some true /\
    heap_grows [fresh_node "a"] h'.
Proof.
  split; [reflexivity|]. split; [exact single_a_built|].
  split; [vm_compute; lia|].
  apply (Run_resolves_the_node 3 validating_job [fresh_node "a"]
           ["validation failed"] None [fresh_node "a"] (fresh_node "a"));
    [reflexivity|exact single_a_built|reflexivity|reflexivity|].
  vm_compute. lia.
Defined.

(** X16: [Run] calls the job before it looks at the node. On a node that
    is already resolved the job runs again, with whatever it does to the
    heap; the status of the node stays, and [Run] answers with the error
    of the job if there is one and with AlreadyResolved otherwise, never
    with the list of validation errors. *)
Theorem Run_on_a_resolved_node {E} fuel (j : jobNode (job_fn E)) h
    (res : list E) (err : option E) h1 n s :
  job j h = Ok (res, err) h1 ->
  h1 !! node j = Some n -> locked n = false -> status n = Some s ->
  Run fuel j h =
    Ok ([], Some (match err with
                  | Some x => JobError x
                  | None => GraphError AlreadyResolved
                  end)) h1.
Proof.
  intros Hjob Hn Hl Hst. unfold Run.
  rewrite (bind_run _ _ _ _ _ Hjob). cbn [fst snd].
  assert (Fail fuel (node j) h1 = Ok (Some AlreadyResolved) h1) as HF
    by (unfold Fail; by eapply already_resolved_run).
  assert (Pass (node j) h1 = Ok (Some AlreadyResolved) h1) as HP
    by (unfold Pass; by eapply already_resolved_run).
  destruct err as [x|].
  - by rewrite (bind_run _ _ _ _ _ HF).
  - destruct (0 <? length res)%nat.
    + by rewrite (bind_run _ _ _ _ _ HF).
    + by rewrite (bind_run _ _ _ _ _ HP).
Qed.

Lemma Run_on_a_resolved_node_witness :
  Run 0 allocating_job passed_a =
    Ok ([], Some (GraphError AlreadyResolved))
       (passed_a ++ [fresh_node "made by the job"]).
Proof.
  apply (Run_on_a_resolved_node 0 allocating_job passed_a [] None
           (passed_a ++ [fresh_node "made by the job"])
           (mkNode "a" false false 0 false [] (Some false)) false);
    reflexivity.
Defined.

(** ** What gets blocked *)

Lemma blockDependents_dependents_only h0 a fuel V St e h1 :
  (forall s, s ∈ St -> path h0 a s) ->
  blockDependents fuel a V St h0 = Ok e h1 ->
  length h1 = length h0 /\
  forall p n, h0 !! p = Some n ->
    h1 !! p = Some n \/ (path h0 a p /\ h1 !! p = Some (set_blocked true n)).
Proof.
  intros HSt Hrun.
  assert (marks_dependents_only h0 a V St h0) as Hinit.
  { split_and!; [done|done|]. intros p n Hp. by left. }
  destruct (blockDependents_rule a (marks_dependents_only h0 a))
    with (fuel := fuel) (V := V) (St := St) (h := h0) (e := e) (h' := h1)
    as [[_ [V' (Hlen & _ & Hpt)]]
       |[_ (V' & St' & s & nd & mn & (Hlen & _ & Hpt) & _)]]; try done.
  - intros V0 St0 s h nd mn (Hlen & HS & Hpt) _ _ _ _.
    split_and!; [done| |done]. intros s' Hs'. apply HS, elem_of_app. by left.
  - intros V0 St0 s h nd mn (Hlen & HS & Hpt) Hs Hm Hne Hv Hval.
    assert (path h0 a s) as Hps.
    { apply HS, elem_of_app. right. by left. }
    assert (is_Some (h0 !! s)) as [n0 Hn0].
    { apply lookup_lt_is_Some. rewrite <- Hlen. by eapply lookup_lt_Some. }
    assert (dependencyOf nd = dependencyOf n0 /\
            set_blocked true nd = set_blocked true n0) as [Hdeps Hset].
    { destruct (Hpt s n0 Hn0) as [Hc|[_ Hc]]; rewrite Hs in Hc;
        injection Hc as ->; done. }
    split_and!.
    + by rewrite length_insert.
    + intros d [Hd|Hd]%elem_of_app; [apply HS, elem_of_app; by left|].
      apply list_elem_of_filter in Hd as [_ Hd].
      eapply tc_r; [exact Hps|]. exists n0. split; [done|].
      by rewrite <- Hdeps.
    + intros p n Hp. destruct (decide (p = s)) as [->|Hne'].
      * right. split; [done|].
        rewrite list_lookup_insert_eq by by eapply lookup_lt_Some.
        replace n with n0 by congruence. by rewrite Hset.
      * rewrite list_lookup_insert_ne by done. by apply Hpt.
Qed.

Lemma Fail_blocked_frame fuel a h e h' :
  Fail fuel a h = Ok e h' ->
  forall q nq, h !! q = Some nq ->
    exists nq', h' !! q = Some nq' /\
      (blocked nq' = blocked nq \/ (blocked nq' = true /\ path h a q)).
Proof.
  intros (n & Hn & Hl & Hcase)%Fail_Ok q nq Hq.
  destruct (status n) eqn:Hst.
  { destruct Hcase as [_ ->]. exists nq. split; [done|by left]. }
  destruct Hcase as (Hnotin & Hval & h0 & h1 & n1 & Hlen & H0m & H0 & Hloop
                     & Hn1 & Hl1 & ->).
  pose proof (entry_heap_same_graph _ _ _ _ Hn Hlen H0m H0) as Hsame.
  assert (forall x y, edge h0 x y -> edge h x y) as Hedge.
  { intros x y (nx & Hx & Hin).
    destruct (proj2 (Hsame x) _ Hx) as (nx' & Hx' & _ & Hd & _).
    exists nx'. split; [done|]. by rewrite <- Hd. }
  destruct (blockDependents_dependents_only h0 a fuel _ _ _ _
              ltac:(intros s Hs; apply tc_once;
                    exists (set_status (Some true) (set_locked true n));
                    split; [exact H0m|exact Hs]) Hloop) as [Hlen1 Hpt].
  destruct (proj1 (Hsame q) _ Hq) as (nq0 & Hq0 & _ & _ & Hbl).
  assert (exists nq1, h1 !! q = Some nq1 /\
            (blocked nq1 = blocked nq \/ (blocked nq1 = true /\ path h a q)))
    as (nq1 & Hq1 & Hres).
  { destruct (Hpt q nq0 Hq0) as [Hc|[Hp Hc]].
    - exists nq0. split; [done|by left].
    - eexists. split; [done|]. right. split; [done|].
      by eapply path_same_edges. }
  destruct (decide (q = a)) as [->|Hqa].
  - exists (set_locked false n1).
    rewrite list_lookup_insert_eq by by eapply lookup_lt_Some.
    split; [done|]. by replace n1 with nq1 by congruence.
  - exists nq1. by rewrite list_lookup_insert_ne.
Qed.

(** X17: whatever the names and whatever the shape of the graph, cycles
    included, and whatever it returns, [Fail] on [a] changes the [blocked]
    flag only of transitive dependents of [a], and only to true. *)
Theorem Fail_blocks_only_dependents fuel a h e h' :
  Fail fuel a h = Ok e h' ->
  forall q nq, h !! q = Some nq ->
    exists nq', h' !! q = Some nq' /\
      (blocked nq' = blocked nq \/ (blocked nq' = true /\ path h a q)).
Proof. apply Fail_blocked_frame. Qed.

Lemma Fail_blocks_only_dependents_witness :
  Fail 13 0 chain_ABCD = Ok None chain_ABCD_failed /\
  forall q nq, chain_ABCD !! q = Some nq ->
    exists nq', chain_ABCD_failed !! q = Some nq' /\
      (blocked nq' = blocked nq \/
       (blocked nq' = true /\ path chain_ABCD 0%nat q)).
Proof.
  assert (Fail 13 0 chain_ABCD = Ok None chain_ABCD_failed) as Hrun
    by (vm_compute; reflexivity).
  split; [exact Hrun|].
  exact (Fail_blocks_only_dependents 13 0 chain_ABCD None chain_ABCD_failed
           Hrun).
Defined.

Lemma heap_grows_edge h h' x y : heap_grows h h' -> edge h x y -> edge h' x y.
Proof.
  intros [_ Hg] (nx & Hx & Hin).
  destruct (Hg _ _ Hx) as (nx' & Hx' & _ & _ & _ & _ & Hpre).
  exists nx'. split; [done|].
  destruct Hpre as [k ->]. apply elem_of_app. by left.
Qed.

Lemma heap_grows_failed_ancestor h h' q :
  heap_grows h h' ->
  (exists p np, h !! p = Some np /\ status np = Some true /\ path h p q) ->
  exists p np, h' !! p = Some np /\ status np = Some true /\ path h' p q.
Proof.
  intros Hg (p & np & Hp & Hst & Hpath).
  destruct (proj2 Hg _ _ Hp) as (np' & Hp' & _ & Hs & _).
  exists p, np'. split_and!; [done|by apply Hs|].
  eapply path_same_edges; [|done]. intros x y. by apply heap_grows_edge.
Qed.

(** A call keeps [blocked_by_failure] when every node that it blocks is a
    transitive dependent of a node that has failed by the end. *)
Lemma blocked_by_failure_step h h' :
  heap_grows h h' -> blocked_by_failure h ->
  (forall q nq', h' !! q = Some nq' -> blocked nq' = true ->
     (exists nq, h !! q = Some nq /\ blocked nq = true) \/
     (exists p np, h' !! p = Some np /\ status np = Some true /\
                   path h' p q)) ->
  blocked_by_failure h'.
Proof.
  intros Hg IH Hcase q nq' Hq Hb.
  destruct (Hcase q nq' Hq Hb) as [(nq & Hq0 & Hb0)|?]; [|done].
  eapply heap_grows_failed_ancestor; [done|]. by eapply IH.
Qed.

Lemma built_blocked_by_failure h : built h -> blocked_by_failure h.
Proof.
  induction 1 as [|h nm p h' Hb IH Hrun|h m dep e h' Hb IH Hrun
                  |h m e h' Hb IH Hrun|h fuel m e h' Hb IH Hrun].
  - by intros q nq Hq.
  - apply (blocked_by_failure_step h h'); [by eapply NewNode_grows|done|].
    injection Hrun as <- <-.
    intros q nq' [Hq|[Hge Hq]]%lookup_app_Some Hbl; [left; eauto|].
    destruct (q - length h)%nat; simpl in Hq; [|done].
    by injection Hq as <-.
  - apply (blocked_by_failure_step h h'); [by eapply DependsOn_grows|done|].
    intros q nq' Hq Hbl. left.
    pose proof Hrun as (depn & mn & Hdep & Hm & Hcase)%DependsOn_Ok.
    destruct Hcase as [(_ & _ & ->)
                      |(Hne & _ & [(_ & _ & ->)|(_ & _ & _ & ->)])].
    + eauto.
    + destruct (decide (q = dep)) as [->|Hqd].
      * rewrite list_lookup_insert_eq in Hq by by eapply lookup_lt_Some.
        injection Hq as <-. eauto.
      * rewrite list_lookup_insert_ne in Hq by done. eauto.
    + assert (m <> dep) as Hmd by (intros ->; congruence).
      rewrite (DependsOn_result_lookup h m dep mn depn q Hmd Hm Hdep) in Hq.
      destruct (decide (q = m)) as [->|Hqm]; [injection Hq as <-; eauto|].
      destruct (decide (q = dep)) as [->|Hqd]; [injection Hq as <-|]; eauto.
  - apply (blocked_by_failure_step h h'); [by eapply Pass_grows|done|].
    intros q nq' Hq Hbl. left.
    pose proof Hrun as (n & Hn & _ & Hcase)%Pass_Ok.
    destruct (status n) eqn:Hst; [destruct Hcase as [_ ->]; eauto|].
    destruct Hcase as (_ & _ & Hlen & Hpt).
    assert (is_Some (h !! q)) as [nq Hq0].
    { apply lookup_lt_is_Some. rewrite <- Hlen. by eapply lookup_lt_Some. }
    rewrite (Hpt _ _ Hq0) in Hq. injection Hq as <-.
    rewrite resolved_node_blocked in Hbl. eauto.
  - pose proof (Fail_grows _ _ _ _ _ Hrun) as Hg.
    apply (blocked_by_failure_step h h'); [done..|].
    intros q nq' Hq Hbl.
    pose proof Hrun as (n & Hn & _ & Hcase)%Fail_Ok.
    destruct (status n) eqn:Hst; [destruct Hcase as [_ ->]; eauto|].
    destruct (Fail_frame _ _ _ _ _ _ Hrun Hn Hst) as [Hlen Hpt].
    assert (is_Some (h !! q)) as [nq Hq0].
    { apply lookup_lt_is_Some. rewrite <- Hlen. by eapply lookup_lt_Some. }
    destruct (Fail_blocked_frame _ _ _ _ _ Hrun q nq Hq0)
      as (nq1 & Hq1 & Hres).
    replace nq1 with nq' in * by congruence.
    destruct Hres as [Heq|[_ Hpath]]; [left; exists nq; split; congruence|].
    right.
    destruct (resolved_status_after h h' m n true Hn Hlen) as (n' & Hn' & Hs').
    { intros p np Hp. destruct (Hpt p np Hp) as (b & ? & _). eauto. }
    exists m, n'. split_and!; [done..|].
    eapply path_same_edges; [|done]. intros x y. by apply heap_grows_edge.
Qed.

(** X18: nothing but a failure blocks a node. In every heap built through
    the API, a node whose [blocked] flag is set is a transitive dependent
    of a node with status Failed. *)
Theorem blocked_nodes_have_a_failed_ancestor h q nq :
  built h -> h !! q = Some nq -> blocked nq = true ->
  exists p np, h !! p = Some np /\ status np = Some true /\ path h p q.
Proof.
  intros Hb. by apply built_blocked_by_failure.
Qed.

Lemma chain_ABCD_failed_built : built chain_ABCD_failed.
Proof.
  apply (replay_built
           [ CallNewNode "A"; CallNewNode "B"; CallNewNode "C";
             CallNewNode "D"; CallDependsOn 1 0; CallDependsOn 2 1;
             CallFail 13 0 ] [] _ built_empty).
  vm_compute. reflexivity.
Qed.

Lemma blocked_nodes_have_a_failed_ancestor_witness :
  built chain_ABCD_failed /\
  chain_ABCD_failed !! 2%nat = Some (mkNode "C" true true 1 false [] None) /\
  exists p np, chain_ABCD_failed !! p = Some np /\ status np = Some true /\
               path chain_ABCD_failed p 2%nat.
Proof.
  split; [exact chain_ABCD_failed_built|]. split; [reflexivity|].
  exact (blocked_nodes_have_a_failed_ancestor chain_ABCD_failed 2
           (mkNode "C" true true 1 false [] None)
           chain_ABCD_failed_built eq_refl eq_refl).
Defined.

(** ** Roots *)

Lemma path_last_edge h x y : path h x y -> exists z, edge h z y.
Proof.
  induction 1 as [x y Hxy|x y z _ _ IH]; [by exists x|done].
Qed.

Lemma built_roots_wait_for_nothing h : built h -> roots_wait_for_nothing h.
Proof.
  induction 1 as [|h nm p h' Hb IH Hrun|h m dep e h' Hb IH Hrun
                  |h m e h' Hb IH Hrun|h fuel m e h' Hb IH Hrun].
  - by intros p n Hp.
  - injection Hrun as <- <-.
    intros q nq [Hq|[Hge Hq]]%lookup_app_Some Hflag; [by eapply IH|].
    destruct (q - length h)%nat; simpl in Hq; [|done].
    by injection Hq as <-.
  - intros q nq Hq Hflag.
    pose proof Hrun as (depn & mn & Hdep & Hm & Hcase)%DependsOn_Ok.
    destruct Hcase as [(_ & _ & ->)
                      |(Hne & _ & [(_ & _ & ->)|(_ & _ & _ & ->)])].
    + by eapply IH.
    + destruct (decide (q = dep)) as [->|Hqd].
      * rewrite list_lookup_insert_eq in Hq by by eapply lookup_lt_Some.
        injection Hq as <-. by apply (IH dep depn).
      * rewrite list_lookup_insert_ne in Hq by done. by eapply IH.
    + assert (m <> dep) as Hmd by (intros ->; congruence).
      rewrite (DependsOn_result_lookup h m dep mn depn q Hmd Hm Hdep) in Hq.
      destruct (decide (q = m)) as [->|Hqm]; [by injection Hq as <-|].
      destruct (decide (q = dep)) as [->|Hqd].
      * injection Hq as <-. by apply (IH dep depn).
      * by eapply IH.
  - intros q nq' Hq Hflag.
    pose proof Hrun as (n & Hn & _ & Hcase)%Pass_Ok.
    destruct (status n) eqn:Hst; [destruct Hcase as [_ ->]; by eapply IH|].
    destruct Hcase as (_ & _ & Hlen & Hpt).
    assert (is_Some (h !! q)) as [nq Hq0].
    { apply lookup_lt_is_Some. rewrite <- Hlen. by eapply lookup_lt_Some. }
    rewrite (Hpt _ _ Hq0) in Hq. injection Hq as <-.
    rewrite resolved_node_hasDependencies in Hflag.
    rewrite resolved_node_depsRemaining, count_occ_notin; [by eapply IH|].
    intros Hin.
    assert (hasDependencies nq = true); [|congruence].
    apply (built_flags_match_edges h Hb q nq Hq0). exists m. by exists n.
  - intros q nq' Hq Hflag.
    pose proof Hrun as (n & Hn & _ & Hcase)%Fail_Ok.
    destruct (status n) eqn:Hst; [destruct Hcase as [_ ->]; by eapply IH|].
    destruct (Fail_frame _ _ _ _ _ _ Hrun Hn Hst) as [Hlen Hpt].
    assert (is_Some (h !! q)) as [nq Hq0].
    { apply lookup_lt_is_Some. rewrite <- Hlen. by eapply lookup_lt_Some. }
    destruct (Hpt _ _ Hq0) as (b & Hq' & _).
    rewrite Hq' in Hq. injection Hq as <-.
    cbn [hasDependencies depsRemaining set_blocked] in *.
    rewrite resolved_node_hasDependencies in Hflag.
    rewrite resolved_node_depsRemaining, count_occ_notin; [by eapply IH|].
    intros Hin.
    assert (hasDependencies nq = true); [|congruence].
    apply (built_flags_match_edges h Hb q nq Hq0). exists m. by exists n.
Qed.

(** X19: what [GetRootDependencies] returns passes the test of [Step]. On
    a heap built through the API every node it returns is not blocked and
    its counter of unresolved dependencies is zero. *)
Theorem roots_are_ready h nodes roots h' :
  built h -> GetRootDependencies nodes h = Ok roots h' ->
  forall p, p ∈ roots -> ready h p = true.
Proof.
  intros Hb (-> & Hval & ->)%GetRootDependencies_Ok p
    [Hroot Hp]%list_elem_of_filter.
  unfold is_root in Hroot. unfold ready.
  destruct (h !! p) as [n|] eqn:Hn; [|done].
  apply negb_true_iff in Hroot.
  rewrite (built_roots_wait_for_nothing h Hb p n Hn Hroot). simpl.
  destruct (blocked n) eqn:Hbl; [|done].
  destruct (built_blocked_by_failure h Hb p n Hn Hbl)
    as (f & nf & _ & _ & Hpath).
  apply path_last_edge in Hpath.
  apply (built_flags_match_edges h Hb p n Hn) in Hpath. congruence.
Qed.

Lemma roots_are_ready_witness :
  built graph_ABDEF /\
  GetRootDependencies [0; 1; 2; 3; 4]%nat graph_ABDEF
    = Ok [0; 2]%nat graph_ABDEF /\
  forall p, p ∈ [0; 2]%nat -> ready graph_ABDEF p = true.
Proof.
  split; [exact graph_ABDEF_built|].
  split; [vm_compute; reflexivity|].
  apply (roots_are_ready graph_ABDEF [0; 1; 2; 3; 4]%nat [0; 2]%nat
           graph_ABDEF graph_ABDEF_built).
  vm_compute. reflexivity.
Defined.
